(** * startidy: the resilient batch-classification pipeline

    A shallow embedding of
      - [src/services/gemini.ts]   ([parseBatchClassifierResponse]),
      - [src/utils/rate-limiter.ts] ([retryWithBackoff], [runWithConcurrency]),
      - [src/commands/classify.ts] ([classifyAndAddRepos])
    together with the parts of the ECMAScript runtime they call
    ([String.prototype.trim], [JSON.parse], [RegExp.prototype.exec], [Map]). *)

From Stdlib Require Import ZArith NArith List String Ascii Bool Lia.
From stdpp Require Import base numbers option list countable gmap.
Import ListNotations.

Local Open Scope N_scope.

(** ** ECMAScript strings

    A JavaScript string is a sequence of UTF-16 code units. *)

Module JsString.

Definition char16 : Type := N.
Definition jsstring : Type := list N.

(** A literal of ASCII characters. *)
Definition js (s : string) : jsstring :=
  map N_of_ascii (list_ascii_of_string s).

(** The same, with every apostrophe (code 39) read as a double quote
    (code 34), to write response texts as literals. *)
Definition jsq (s : string) : jsstring :=
  map (fun c => if c =? 39 then 34 else c) (js s).

Definition eqb (a b : jsstring) : bool := bool_decide (a = b).

(** WhiteSpace and LineTerminator code points: what [trim] strips and
    what the regular expression class [\s] matches. *)
Definition isWhiteSpace (c : char16) : bool :=
  (c =? 9) || (c =? 10) || (c =? 11) || (c =? 12) || (c =? 13) || (c =? 32)
  || (c =? 160) || (c =? 5760) || ((8192 <=? c) && (c <=? 8202))
  || (c =? 8232) || (c =? 8233) || (c =? 8239) || (c =? 8287)
  || (c =? 12288) || (c =? 65279).

Fixpoint trimStart (s : jsstring) : jsstring :=
  match s with
  | c :: r => if isWhiteSpace c then trimStart r else s
  | [] => []
  end.

Definition trimEnd (s : jsstring) : jsstring := rev (trimStart (rev s)).

Definition trim (s : jsstring) : jsstring := trimEnd (trimStart s).

(** [s.endsWith(c)] for a one-character search string. *)
Definition endsWithChar (s : jsstring) (c : char16) : bool :=
  match rev s with
  | d :: _ => d =? c
  | [] => false
  end.

(** [(s.match(/c/g) || []).length]. *)
Definition countChar (c : char16) (s : jsstring) : Z :=
  Z.of_nat (length (filter (fun d => d = c) s)).

Definition includesChar (s : jsstring) (c : char16) : bool :=
  existsb (N.eqb c) s.

(** [s.lastIndexOf(c)]: the index of the last occurrence, or -1. *)
Fixpoint lastIndexOfFrom (c : char16) (s : jsstring) (i : Z) (found : Z) : Z :=
  match s with
  | [] => found
  | d :: r => lastIndexOfFrom c r (i + 1)%Z (if d =? c then i else found)
  end.

Definition lastIndexOfChar (s : jsstring) (c : char16) : Z :=
  lastIndexOfFrom c s 0%Z (-1)%Z.

(** [l.slice(0, e)] of strings and arrays: a negative end counts from
    the end of the sequence. *)
Definition sliceTo {A} (l : list A) (e : Z) : list A :=
  if (e <? 0)%Z
  then take (Z.to_nat (Z.max 0 (Z.of_nat (length l) + e))) l
  else take (Z.to_nat e) l.

(** [s.slice(b)] for a non-negative start. *)
Definition sliceFrom {A} (l : list A) (b : Z) : list A :=
  drop (Z.to_nat b) l.

(** [c.repeat(n)] for a count that is not negative. *)
Definition repeatChar (c : char16) (n : Z) : jsstring :=
  replicate (Z.to_nat n) c.

(** [s.split(c)]: the pieces between the occurrences of a one-character
    separator; the empty string gives one empty piece. *)
Fixpoint splitChar (c : char16) (s : jsstring) : list jsstring :=
  match s with
  | [] => [[]]
  | d :: r =>
      if d =? c then [] :: splitChar c r
      else match splitChar c r with
           | piece :: pieces => (d :: piece) :: pieces
           | [] => [[d]]
           end
  end.

(** [s.replace(/c/g, "")]. *)
Definition removeChar (c : char16) (s : jsstring) : jsstring :=
  filter (fun d => d ≠ c) s.

(** [s] starts with [p]: what is left of [s] after [p]. *)
Fixpoint stripPrefix (p s : jsstring) : option jsstring :=
  match p, s with
  | [], _ => Some s
  | c :: p', d :: s' => if c =? d then stripPrefix p' s' else None
  | _ :: _, [] => None
  end.

(** The longest prefix of characters other than [c], and the rest. *)
Fixpoint spanNot (c : char16) (s : jsstring) : jsstring * jsstring :=
  match s with
  | [] => ([], [])
  | d :: r =>
      if d =? c then ([], s)
      else let '(taken, rest) := spanNot c r in (d :: taken, rest)
  end.

Definition quote : char16 := 34.
Definition comma : char16 := 44.
Definition colon : char16 := 58.
Definition lbracket : char16 := 91.
Definition backslash : char16 := 92.
Definition rbracket : char16 := 93.
Definition lbrace : char16 := 123.
Definition rbrace : char16 := 125.

End JsString.
Import JsString.

(** ** JSON values and [JSON.parse]

    [JSON.parse] belongs to the ECMAScript runtime, not to the repository;
    it is modelled after the JSON grammar of ECMA-262 (sec. 25.5.1). A
    number keeps its literal text. *)

Module Json.

#[local] Set Warnings "-register-all".
Inductive json : Type :=
| JNull
| JBool (b : bool)
| JNum (literal : jsstring)
| JStr (s : jsstring)
| JArr (elements : list json)
| JObj (members : list (jsstring * json)).

(** What a parser returns: a value and the unread input, a
    [SyntaxError], or a nesting deeper than the recursion budget (the
    runtime raises a [RangeError] there). Both are exceptions for the
    caller. *)
Inductive ParseResult (A : Type) : Type :=
| Parsed (a : A) (rest : jsstring)
| SyntaxError
| RangeError.
Arguments Parsed {A} a rest.
Arguments SyntaxError {A}.
Arguments RangeError {A}.

(** JSON white space: tab, line feed, carriage return, space. *)
Definition isJsonWs (c : char16) : bool :=
  (c =? 9) || (c =? 10) || (c =? 13) || (c =? 32).

Fixpoint skipWs (s : jsstring) : jsstring :=
  match s with
  | c :: r => if isJsonWs c then skipWs r else s
  | [] => []
  end.

Definition isDigit (c : char16) : bool := (48 <=? c) && (c <=? 57).

Definition hexValue (c : char16) : option N :=
  if isDigit c then Some (c - 48)
  else if (97 <=? c) && (c <=? 102) then Some (c - 87)
  else if (65 <=? c) && (c <=? 70) then Some (c - 55)
  else None.

(** The characters of a string literal after its opening quote, up to
    the closing one; [acc] holds the decoded characters, last first. *)
Fixpoint parseStringBody (s : jsstring) (acc : jsstring) : ParseResult jsstring :=
  match s with
  | [] => SyntaxError
  | c :: r =>
      if c =? quote then Parsed (rev acc) r
      else if c =? backslash then
        match r with
        | e :: r1 =>
            if e =? quote then parseStringBody r1 (quote :: acc)
            else if e =? backslash then parseStringBody r1 (backslash :: acc)
            else if e =? 47 then parseStringBody r1 (47 :: acc)
            else if e =? 98 then parseStringBody r1 (8 :: acc)
            else if e =? 102 then parseStringBody r1 (12 :: acc)
            else if e =? 110 then parseStringBody r1 (10 :: acc)
            else if e =? 114 then parseStringBody r1 (13 :: acc)
            else if e =? 116 then parseStringBody r1 (9 :: acc)
            else if e =? 117 then
              match r1 with
              | h1 :: h2 :: h3 :: h4 :: r2 =>
                  match hexValue h1, hexValue h2, hexValue h3, hexValue h4 with
                  | Some a, Some b, Some c', Some d =>
                      parseStringBody r2 (((a * 16 + b) * 16 + c') * 16 + d :: acc)
                  | _, _, _, _ => SyntaxError
                  end
              | _ => SyntaxError
              end
            else SyntaxError
        | [] => SyntaxError
        end
      else if c <? 32 then SyntaxError
      else parseStringBody r (c :: acc)
  end.

Fixpoint spanDigits (s : jsstring) : jsstring * jsstring :=
  match s with
  | c :: r =>
      if isDigit c then let '(ds, rest) := spanDigits r in (c :: ds, rest)
      else ([], s)
  | [] => ([], [])
  end.

(** A number literal: an optional minus sign, an integer part without a
    leading zero (or a lone zero), an optional fraction of at least one
    digit, an optional exponent of at least one digit. *)
Definition parseNumber (s : jsstring) : ParseResult jsstring :=
  let '(sign, s1) :=
    match s with
    | c :: r => if c =? 45 then ([c], r) else ([], s)
    | [] => ([], s)
    end in
  let '(int, s2) := spanDigits s1 in
  match int with
  | [] => SyntaxError
  | d :: ds =>
      if (d =? 48) && negb (bool_decide (ds = [])) then SyntaxError
      else
        let frac :=
          match s2 with
          | c :: r =>
              if c =? 46 then
                let '(fs, s3) := spanDigits r in
                match fs with
                | [] => None
                | _ => Some (c :: fs, s3)
                end
              else Some ([], s2)
          | [] => Some ([], s2)
          end in
        match frac with
        | None => SyntaxError
        | Some (fr, s3) =>
            let exp :=
              match s3 with
              | c :: r =>
                  if (c =? 101) || (c =? 69) then
                    let '(sg, r1) :=
                      match r with
                      | g :: r' =>
                          if (g =? 43) || (g =? 45) then ([g], r') else ([], r)
                      | [] => ([], r)
                      end in
                    let '(es, s4) := spanDigits r1 in
                    match es with
                    | [] => None
                    | _ => Some (c :: sg ++ es, s4)
                    end
                  else Some ([], s3)
              | [] => Some ([], s3)
              end in
            match exp with
            | None => SyntaxError
            | Some (ex, s4) => Parsed (sign ++ int ++ fr ++ ex) s4
            end
        end
  end.

Definition parseLiteral (word : string) (v : json) (s : jsstring) : ParseResult json :=
  match stripPrefix (js word) s with
  | Some rest => Parsed v rest
  | None => SyntaxError
  end.

(** A value at the head of [s] (white space already skipped), the
    elements of an array after [[] and the members of an object after
    [{]. [fuel] bounds the depth of the recursion. *)
Fixpoint parseValue (fuel : nat) (s : jsstring) : ParseResult json :=
  match fuel with
  | O => RangeError
  | S fuel' =>
      match s with
      | [] => SyntaxError
      | c :: r =>
          if c =? lbrace then
            match skipWs r with
            | d :: r1 =>
                if d =? rbrace then Parsed (JObj []) r1
                else parseMembers fuel' (skipWs r) []
            | [] => SyntaxError
            end
          else if c =? lbracket then
            match skipWs r with
            | d :: r1 =>
                if d =? rbracket then Parsed (JArr []) r1
                else parseElements fuel' (skipWs r) []
            | [] => SyntaxError
            end
          else if c =? quote then
            match parseStringBody r [] with
            | Parsed str rest => Parsed (JStr str) rest
            | SyntaxError => SyntaxError
            | RangeError => RangeError
            end
          else if c =? 116 then parseLiteral "true" (JBool true) s
          else if c =? 102 then parseLiteral "false" (JBool false) s
          else if c =? 110 then parseLiteral "null" JNull s
          else
            match parseNumber s with
            | Parsed lit rest => Parsed (JNum lit) rest
            | SyntaxError => SyntaxError
            | RangeError => RangeError
            end
      end
  end

with parseElements (fuel : nat) (s : jsstring) (acc : list json) : ParseResult json :=
  match fuel with
  | O => RangeError
  | S fuel' =>
      match parseValue fuel' s with
      | Parsed v rest =>
          match skipWs rest with
          | d :: r1 =>
              if d =? comma then parseElements fuel' (skipWs r1) (v :: acc)
              else if d =? rbracket then Parsed (JArr (rev (v :: acc))) r1
              else SyntaxError
          | [] => SyntaxError
          end
      | SyntaxError => SyntaxError
      | RangeError => RangeError
      end
  end

with parseMembers (fuel : nat) (s : jsstring) (acc : list (jsstring * json)) : ParseResult json :=
  match fuel with
  | O => RangeError
  | S fuel' =>
      match s with
      | q :: r =>
          if q =? quote then
            match parseStringBody r [] with
            | Parsed key rest =>
                match skipWs rest with
                | d :: r1 =>
                    if d =? colon then
                      match parseValue fuel' (skipWs r1) with
                      | Parsed v rest1 =>
                          match skipWs rest1 with
                          | e :: r2 =>
                              if e =? comma
                              then parseMembers fuel' (skipWs r2) ((key, v) :: acc)
                              else if e =? rbrace
                              then Parsed (JObj (rev ((key, v) :: acc))) r2
                              else SyntaxError
                          | [] => SyntaxError
                          end
                      | SyntaxError => SyntaxError
                      | RangeError => RangeError
                      end
                    else SyntaxError
                | [] => SyntaxError
                end
            | SyntaxError => SyntaxError
            | RangeError => RangeError
            end
          else SyntaxError
      | [] => SyntaxError
      end
  end.

(** [JSON.parse(text)]: one value between optional white space. The
    budget of two levels per character is never exhausted by a text
    that has a value: every level of nesting costs a character. *)
Definition JSON_parse (text : jsstring) : ParseResult json :=
  match parseValue (2 * length text + 2) (skipWs text) with
  | Parsed v rest =>
      match skipWs rest with
      | [] => Parsed v []
      | _ :: _ => SyntaxError
      end
  | SyntaxError => SyntaxError
  | RangeError => RangeError
  end.

(** [o.k] on a parsed object: the value of the last member named [k]
    (a later duplicate replaces an earlier one), if any. *)
Fixpoint getMember (k : jsstring) (members : list (jsstring * json)) : option json :=
  match members with
  | [] => None
  | (k', v) :: rest =>
      match getMember k rest with
      | Some w => Some w
      | None => if JsString.eqb k' k then Some v else None
      end
  end.

(** Is a number literal zero: all digits of its mantissa are [0]. *)
Fixpoint mantissaIsZero (lit : jsstring) : bool :=
  match lit with
  | [] => true
  | c :: r =>
      if (c =? 101) || (c =? 69) then true
      else if isDigit c && negb (c =? 48) then false
      else mantissaIsZero r
  end.

(** [ToBoolean]: [null], [false], zero and the empty string are falsy.
    (A literal is taken as zero when its mantissa is; a nonzero literal
    too small for a double is not tracked.) *)
Definition truthy (v : json) : bool :=
  match v with
  | JNull => false
  | JBool b => b
  | JNum lit => negb (mantissaIsZero lit)
  | JStr s => negb (bool_decide (s = []))
  | JArr _ | JObj _ => true
  end.

End Json.
Import Json.

(** ** Configuration and data types ([src/utils/config.ts], [src/types],
    [src/prompts/classifier.ts]) *)

Module Types.

(** The fields of [Config] the pipeline reads. *)
Record Config : Type := {
  githubToken : jsstring;
  maxCategoriesPerRepo : Z;
  classifyBatchSize : Z;
  batchDelay : Z;
}.

Record Category : Type := {
  name : jsstring;
  description : jsstring;
  keywords : list jsstring;
}.

Record BatchRepoInfo : Type := {
  id : jsstring;
  repoDescription : option jsstring;
  language : option jsstring;
  stars : Z;
  readme : option jsstring;
}.

(** The fields of [Repo] ([src/api/types.ts]) the commands read. *)
Record Repo : Type := {
  ownerLogin : jsstring;
  repoName : jsstring;
  repoDescriptionText : jsstring;
  repoLanguage : option jsstring;
  stargazersCount : Z;
}.

Record CreatedList : Type := {
  listId : jsstring;
  listName : jsstring;
  listDescription : option jsstring;
}.

(** A key of the [Map] the parser fills. Keys are compared by
    SameValueZero: strings by content, and an object or an array only
    equals itself, so a key of that kind carries the position of the
    entry it came from. (Numbers are compared by their literal text.) *)
Inductive MapKey : Type :=
| KeyStr (s : jsstring)
| KeyNum (literal : jsstring)
| KeyTrue
| KeyRef (position : nat).

#[global] Instance MapKey_eq_dec : EqDecision MapKey.
Proof. solve_decision. Defined.

#[global] Instance MapKey_countable : Countable MapKey.
Proof.
  refine (inj_countable'
    (fun k => match k with
              | KeyStr s => inl s
              | KeyNum l => inr (inl l)
              | KeyTrue => inr (inr (inl tt))
              | KeyRef n => inr (inr (inr n))
              end)
    (fun x => match x with
              | inl s => KeyStr s
              | inr (inl l) => KeyNum l
              | inr (inr (inl _)) => KeyTrue
              | inr (inr (inr n)) => KeyRef n
              end) _).
  intros []; reflexivity.
Defined.

(** [Map<string, string[]>]. *)
Abbreviation ResultMap := (gmap MapKey (list jsstring)).

End Types.
Import Types.

(** ** [GeminiService.parseBatchClassifierResponse] ([src/services/gemini.ts]) *)

Module Gemini.

(** [\s*] before a character that is not white space. *)
Definition skipSpace (s : jsstring) : jsstring := trimStart s.

Definition quoted (word : string) : jsstring := quote :: js word ++ [quote].

(** The end of [linePattern]: the word categories in quotes, [\s*], a
    colon, [\s*], an opening bracket, the capture of the characters up
    to the next closing bracket, and that bracket. *)
Definition matchCategories (s : jsstring) : option (jsstring * jsstring) :=
  s1 ← stripPrefix (quoted "categories") s;
  s2 ← stripPrefix [colon] (skipSpace s1);
  s3 ← stripPrefix [lbracket] (skipSpace s2);
  let '(categoriesStr, s4) := spanNot rbracket s3 in
  s5 ← stripPrefix [rbracket] s4;
  Some (categoriesStr, s5).

(** The greedy run of characters other than a closing brace in the
    middle of [linePattern], followed by its end: the longest run that
    lets the end match is taken. *)
Fixpoint matchGap (s : jsstring) : option (jsstring * jsstring) :=
  match s with
  | [] => matchCategories []
  | c :: r =>
      if c =? rbrace then matchCategories s
      else match matchGap r with
           | Some m => Some m
           | None => matchCategories s
           end
  end.

(** [linePattern] matched at the head of [s]: the two captures and the
    text after the match. *)
Definition matchAt (s : jsstring) : option (jsstring * jsstring * jsstring) :=
  s1 ← stripPrefix (quoted "id") s;
  s2 ← stripPrefix [colon] (skipSpace s1);
  s3 ← stripPrefix [quote] (skipSpace s2);
  let '(ident, s4) := spanNot quote s3 in
  match ident with
  | [] => None
  | _ :: _ =>
      s5 ← stripPrefix [quote] s4;
      '(categoriesStr, rest) ← matchGap s5;
      Some (ident, categoriesStr, rest)
  end.

(** The successive results of [linePattern.exec(text)] under the [g]
    flag: the leftmost match from the last index on, then on from its
    end. A match is never empty, so a budget of one step per character
    covers the text. *)
Fixpoint execAll (fuel : nat) (s : jsstring) : list (jsstring * jsstring) :=
  match fuel with
  | O => []
  | S fuel' =>
      match s with
      | [] => []
      | _ :: r =>
          match matchAt s with
          | Some (ident, categoriesStr, rest) =>
              (ident, categoriesStr) :: execAll fuel' rest
          | None => execAll fuel' r
          end
      end
  end.

Definition linePatternMatches (text : jsstring) : list (jsstring * jsstring) :=
  execAll (length text) text.

Section Parser.

Variable config : Config.

(** The result of running the [try] block: it ran to its end, or an
    exception left it; either way with the entries set so far. *)
Inductive Completion : Type :=
| Normal (resultMap : ResultMap)
| Abrupt (resultMap : ResultMap).

Definition validCategoryNames (categories : list Category) : list jsstring :=
  map name categories.

(** [categories[0]?.name || "Lang: ETC"]. *)
Definition defaultCategory (categories : list Category) : jsstring :=
  match categories with
  | c :: _ => match name c with
              | [] => js "Lang: ETC"
              | _ :: _ => name c
              end
  | [] => js "Lang: ETC"
  end.

(** The body of [if (!jsonStr.endsWith("}"))]. *)
Definition repairTruncated (jsonStr : jsstring) : jsstring :=
  let openBraces := countChar lbrace jsonStr in
  let closeBraces := countChar rbrace jsonStr in
  let openBrackets := countChar lbracket jsonStr in
  let closeBrackets := countChar rbracket jsonStr in
  let lastCompleteIdx := lastIndexOfChar jsonStr rbrace in
  let jsonStr1 :=
    if (0 <? lastCompleteIdx)%Z then
      let afterLast := sliceFrom jsonStr (lastCompleteIdx + 1) in
      if includesChar afterLast lbrace && negb (includesChar afterLast rbrace)
      then sliceTo jsonStr (lastCompleteIdx + 1)
      else jsonStr
    else jsonStr in
  let jsonStr2 := jsonStr1 ++ repeatChar rbracket (Z.max 0 (openBrackets - closeBrackets)) in
  jsonStr2 ++ repeatChar rbrace (Z.max 0 (openBraces - closeBraces)).

(** The text handed to [JSON.parse]. *)
Definition jsonText (text : jsstring) : jsstring :=
  let jsonStr := trim text in
  if endsWithChar jsonStr rbrace then jsonStr else repairTruncated jsonStr.

(** [result.categories.filter(c => validCategoryNames.has(c))
      .slice(0, maxCategoriesPerRepo)]: only a string can be in a set of
    strings. *)
Definition validCategories (names : list jsstring) (cs : list json) : list jsstring :=
  sliceTo
    (omap (fun c => match c with
                    | JStr s => if decide (s ∈ names) then Some s else None
                    | _ => None
                    end) cs)
    (maxCategoriesPerRepo config).

(** The key [result.id] gives, when it is truthy. *)
Definition keyOf (position : nat) (v : json) : option MapKey :=
  if truthy v then
    Some (match v with
          | JStr s => KeyStr s
          | JNum lit => KeyNum lit
          | JBool _ => KeyTrue
          | _ => KeyRef position
          end)
  else None.

(** [for (const result of parsed.results)]. Reading a property of [null]
    raises a [TypeError]; a primitive or an array has no [id]. *)
Fixpoint processResults (names : list jsstring) (default : jsstring)
    (results : list json) (position : nat) (resultMap : ResultMap) : Completion :=
  match results with
  | [] => Normal resultMap
  | result :: rest =>
      match result with
      | JNull => Abrupt resultMap
      | JObj members =>
          match getMember (js "id") members ≫= keyOf position,
                getMember (js "categories") members with
          | Some key, Some (JArr cs) =>
              let valid := validCategories names cs in
              processResults names default rest (S position)
                (<[key := match valid with [] => [default] | _ :: _ => valid end]> resultMap)
          | _, _ => processResults names default rest (S position) resultMap
          end
      | _ => processResults names default rest (S position) resultMap
      end
  end.

(** [for (const repo of repos) if (!resultMap.has(repo.id)) ...]. *)
Fixpoint fillDefaults (default : jsstring) (repos : list BatchRepoInfo)
    (resultMap : ResultMap) : ResultMap :=
  match repos with
  | [] => resultMap
  | repo :: rest =>
      fillDefaults default rest
        (match resultMap !! KeyStr (id repo) with
         | Some _ => resultMap
         | None => <[KeyStr (id repo) := [default]]> resultMap
         end)
  end.

(** [parsed.results], when [parsed] has an array there. [null.results]
    raises; any other value without such an array makes the code raise
    its own error. *)
Definition resultsOf (parsed : json) : option (list json) :=
  match parsed with
  | JObj members =>
      match getMember (js "results") members with
      | Some (JArr results) => Some results
      | _ => None
      end
  | _ => None
  end.

(** The [try] block from [JSON.parse(jsonStr)] on. *)
Definition tryBlock (jsonStr : jsstring) (repos : list BatchRepoInfo)
    (categories : list Category) : Completion :=
  match JSON_parse jsonStr with
  | Parsed parsed _ =>
      match resultsOf parsed with
      | Some results =>
          match processResults (validCategoryNames categories)
                  (defaultCategory categories) results 0%nat ∅ with
          | Normal resultMap =>
              Normal (fillDefaults (defaultCategory categories) repos resultMap)
          | Abrupt resultMap => Abrupt resultMap
          end
      | None => Abrupt ∅
      end
  | SyntaxError | RangeError => Abrupt ∅
  end.

(** [categoriesStr.split(",").map(...).filter(...).slice(...)]. *)
Definition fallbackCategories (names : list jsstring) (categoriesStr : jsstring)
    : list jsstring :=
  sliceTo
    (filter (fun c => c ∈ names)
       (map (fun s => removeChar quote (trim s)) (splitChar comma categoriesStr)))
    (maxCategoriesPerRepo config).

(** [while ((match = linePattern.exec(text)) !== null)]. *)
Fixpoint fallbackLoop (names : list jsstring)
    (matches : list (jsstring * jsstring)) (resultMap : ResultMap) : ResultMap :=
  match matches with
  | [] => resultMap
  | (ident, categoriesStr) :: rest =>
      let cats := fallbackCategories names categoriesStr in
      fallbackLoop names rest
        (match cats, resultMap !! KeyStr ident with
         | _ :: _, None => <[KeyStr ident := cats]> resultMap
         | _, _ => resultMap
         end)
  end.

(** The [catch] block; [resultMap] is what the [try] block left. *)
Definition catchBlock (text : jsstring) (repos : list BatchRepoInfo)
    (categories : list Category) (resultMap : ResultMap) : ResultMap :=
  fillDefaults (defaultCategory categories) repos
    (fallbackLoop (validCategoryNames categories) (linePatternMatches text) resultMap).

(** The function from [jsonStr] on: what follows the repair step. *)
Definition parseFrom (jsonStr text : jsstring) (repos : list BatchRepoInfo)
    (categories : list Category) : ResultMap :=
  match tryBlock jsonStr repos categories with
  | Normal resultMap => resultMap
  | Abrupt resultMap => catchBlock text repos categories resultMap
  end.

Definition parseBatchClassifierResponse (text : jsstring)
    (repos : list BatchRepoInfo) (categories : list Category) : ResultMap :=
  parseFrom (jsonText text) text repos categories.

End Parser.

End Gemini.
Import Gemini.

(** ** [src/utils/rate-limiter.ts] *)

Module RateLimiter.

(** A value a promise is rejected with: an instance of [Error] with its
    message, or any other value, with the text [String] gives for it. *)
Inductive Thrown : Type :=
| ErrorInstance (message : jsstring)
| NonError (text : jsstring).

(** How a promise settles. *)
Inductive Outcome (A : Type) : Type :=
| Fulfilled (value : A)
| Rejected (reason : Thrown).
Arguments Fulfilled {A} value.
Arguments Rejected {A} reason.

(** [error instanceof Error ? error : new Error(String(error))]. *)
Definition toError (error : Thrown) : Thrown :=
  match error with
  | ErrorInstance _ => error
  | NonError text => ErrorInstance text
  end.

(** An asynchronous function as the tree of its awaits: it returns, or
    awaits an effect and goes on with the answer. *)
Inductive Prog (E : Type → Type) (R : Type) : Type :=
| Ret (r : R)
| Vis (X : Type) (e : E X) (k : X → Prog E R).
Arguments Ret {E R} r.
Arguments Vis {E R X} e k.

(** Running a program against an environment with a state of its own. *)
Fixpoint run {E R S} (answer : ∀ X, E X → S → X * S) (p : Prog E R) (s : S)
    : R * S :=
  match p with
  | Ret r => (r, s)
  | Vis e k => let '(x, s') := answer _ e s in run answer (k x) s'
  end.

(** What [retryWithBackoff] awaits: [fn()] and [delay(ms)]. *)
Inductive RetryEffect (T : Type) : Type → Type :=
| CallFn : RetryEffect T (Outcome T)
| Delay (ms : Z) : RetryEffect T unit.
Arguments CallFn {T}.
Arguments Delay {T} ms.

(** The [options] argument; every field may be left out. *)
Record RetryOptions : Type := {
  maxRetries : option Z;
  initialDelayMs : option Z;
  maxDelayMs : option Z;
}.

Section Retry.

Context {T : Type}.

(** The [for] loop from [attempt] on, with [remaining] iterations left;
    after the last one, [throw lastError] ([null] if the loop never ran). *)
Fixpoint attempts (maxRetries initialDelayMs maxDelayMs : Z)
    (remaining : nat) (attempt : Z) (lastError : option Thrown)
    : Prog (RetryEffect T) (Outcome T) :=
  match remaining with
  | O =>
      Ret (Rejected (match lastError with
                     | Some e => e
                     | None => NonError (js "null")
                     end))
  | S remaining' =>
      Vis CallFn (fun settled =>
        match settled with
        | Fulfilled value => Ret (Fulfilled value)
        | Rejected error =>
            let lastError := toError error in
            if (attempt <? maxRetries)%Z then
              let delayMs := Z.min (initialDelayMs * 2 ^ attempt) maxDelayMs in
              Vis (Delay delayMs) (fun _ =>
                attempts maxRetries initialDelayMs maxDelayMs remaining'
                  (attempt + 1) (Some lastError))
            else
              attempts maxRetries initialDelayMs maxDelayMs remaining'
                (attempt + 1) (Some lastError)
        end)
  end.

(** [for (let attempt = 0; attempt <= maxRetries; attempt++)] runs
    [maxRetries + 1] times, and not at all when that is negative. *)
Definition retryWithBackoff (options : RetryOptions)
    : Prog (RetryEffect T) (Outcome T) :=
  let maxRetries := default 3%Z (maxRetries options) in
  let initialDelayMs := default 500%Z (initialDelayMs options) in
  let maxDelayMs := default 5000%Z (maxDelayMs options) in
  attempts maxRetries initialDelayMs maxDelayMs
    (Z.to_nat (maxRetries + 1)) 0 None.

(** What an observer of a run sees. *)
Inductive Observed : Type :=
| Invoked
| Waited (ms : Z).

(** An operation given by the way its successive invocations settle:
    [fn k] is the outcome of invocation number [k], counted from 0. The
    state is the number of invocations so far and what was observed. *)
Definition scripted (fn : nat → Outcome T) (X : Type) (e : RetryEffect T X)
    (s : nat * list Observed) : X * (nat * list Observed) :=
  match e in RetryEffect _ X return X * (nat * list Observed) with
  | CallFn => (fn s.1, (S s.1, s.2 ++ [Invoked]))
  | Delay ms => (tt, (s.1, s.2 ++ [Waited ms]))
  end.

(** The run of [retryWithBackoff] on such an operation: how the call
    settles, and what was observed, in order. *)
Definition retryRun (fn : nat → Outcome T) (options : RetryOptions)
    : Outcome T * list Observed :=
  let '(settled, (_, observed)) :=
    run (scripted fn) (retryWithBackoff options) (0%nat, []) in
  (settled, observed).

End Retry.

(** *** [runWithConcurrency]

    A call [processor(item)] is a promise that settles later; which of
    the pending promises settles next is not up to the code. Between two
    awaits a worker runs alone. *)

Section Concurrency.

Context {T R : Type}.
Variable items : list T.
Variable processor : T → Outcome R.

(** A worker awaits the promise of the item it claimed, has left its
    loop, or was rejected with the reason its promise was rejected with. *)
Inductive Worker : Type :=
| Awaiting (index : nat)
| Finished
| Crashed (reason : Thrown).

(** The variables the workers share, with two logs: the indices in the
    order [processor] was called on them, and in the order their promises
    settled. [rejection] is the first rejection of a worker, which is what
    [Promise.all] is rejected with. *)
Record Pool : Type := {
  currentIndex : nat;
  results : list (option R);
  workers : list Worker;
  invoked : list nat;
  settled : list nat;
  rejection : option Thrown;
}.

(** [while (currentIndex < items.length) { const index = currentIndex++;
    ... await processor(items[index])]: a worker at the head of its loop
    claims the next index and calls [processor], or leaves the loop. *)
Definition enterLoop (p : Pool) : Pool * Worker :=
  if (currentIndex p <? length items)%nat then
    ({| currentIndex := S (currentIndex p);
        results := results p;
        workers := workers p;
        invoked := invoked p ++ [currentIndex p];
        settled := settled p;
        rejection := rejection p |},
     Awaiting (currentIndex p))
  else (p, Finished).

(** One more call of [worker()]. *)
Definition spawn (p : Pool) : Pool :=
  let '(p', w) := enterLoop p in
  {| currentIndex := currentIndex p';
     results := results p';
     workers := workers p' ++ [w];
     invoked := invoked p';
     settled := settled p';
     rejection := rejection p' |}.

(** [new Array(items.length)], and
    [Array(Math.min(concurrency, items.length)).fill(null).map(() => worker())]. *)
Definition start (concurrency : nat) : Pool :=
  Nat.iter (Nat.min concurrency (length items)) spawn
    {| currentIndex := 0;
       results := replicate (length items) None;
       workers := [];
       invoked := [];
       settled := [];
       rejection := None |}.

(** The promise worker number [w] awaits settles: fulfilled, the worker
    stores the value and is back at the head of its loop; rejected, the
    worker is rejected with the same reason. *)
Definition settle (w : nat) (p : Pool) : Pool :=
  match workers p !! w with
  | Some (Awaiting index) =>
      match items !! index with
      | Some item =>
          match processor item with
          | Fulfilled value =>
              let '(p', worker) :=
                enterLoop {| currentIndex := currentIndex p;
                             results := <[index := Some value]> (results p);
                             workers := workers p;
                             invoked := invoked p;
                             settled := settled p ++ [index];
                             rejection := rejection p |} in
              {| currentIndex := currentIndex p';
                 results := results p';
                 workers := <[w := worker]> (workers p');
                 invoked := invoked p';
                 settled := settled p';
                 rejection := rejection p' |}
          | Rejected reason =>
              {| currentIndex := currentIndex p;
                 results := results p;
                 workers := <[w := Crashed reason]> (workers p);
                 invoked := invoked p;
                 settled := settled p ++ [index];
                 rejection := match rejection p with
                              | Some first => Some first
                              | None => Some reason
                              end |}
          end
      | None => p
      end
  | _ => p
  end.

Definition isFinished (w : Worker) : bool :=
  match w with
  | Finished => true
  | _ => false
  end.

Definition isAwaiting (w : Worker) : bool :=
  match w with
  | Awaiting _ => true
  | _ => false
  end.

(** [await Promise.all(workers); return results]: rejected as soon as
    one worker is, fulfilled once all have left their loops, pending
    otherwise. *)
Definition returned (p : Pool) : option (Outcome (list (option R))) :=
  match rejection p with
  | Some reason => Some (Rejected reason)
  | None =>
      if forallb isFinished (workers p) then Some (Fulfilled (results p))
      else None
  end.

(** The numbers of the workers that await a promise, in order; [n] is
    the number of the first worker of the list. *)
Fixpoint awaitingFrom (n : nat) (ws : list Worker) : list nat :=
  match ws with
  | [] => []
  | w :: rest =>
      if isAwaiting w then n :: awaitingFrom (S n) rest
      else awaitingFrom (S n) rest
  end.

Definition awaiting (p : Pool) : list nat := awaitingFrom 0 (workers p).

(** The event loop up to the return of the call: while the call is
    pending, one of the awaited promises settles; [order k] picks which,
    among those pending at step [k]. *)
Fixpoint eventLoop (order : nat → nat) (steps step : nat) (p : Pool)
    : option (Outcome (list (option R))) * Pool :=
  match returned p with
  | Some outcome => (Some outcome, p)
  | None =>
      match steps with
      | O => (None, p)
      | S steps' =>
          match awaiting p !! (order step mod length (awaiting p))%nat with
          | Some w => eventLoop order steps' (S step) (settle w p)
          | None => (None, p)
          end
      end
  end.

(** The call, for an order of completion. Every step settles a promise
    and there is one promise per item at most, so [length items] steps
    are all the loop can take. *)
Definition runWithConcurrency (concurrency : nat) (order : nat → nat)
    : option (Outcome (list (option R))) * Pool :=
  eventLoop order (length items) 0 (start concurrency).

End Concurrency.

End RateLimiter.
Import RateLimiter.

(** ** [src/commands/classify.ts]: [classifyAndAddRepos]

    The GitHub and Gemini services answer through an environment. A call
    of the API made for a repository is answered by the repository and by
    the number of the attempt, so an item settles the same way whatever
    the other items of its batch do. *)

Module Classify.

Record Env : Type := {
  (** What [fetchRepositoryReadme] returns once its request is made (it
      catches every failure of the request and returns [null]). *)
  readmeAnswer : Repo → option jsstring;
  (** How [ai.models.generateContent] settles for batch number [n]: the
      text of the response, or a rejection. *)
  oracleAnswer : nat → list BatchRepoInfo → Outcome jsstring;
  (** How [getRepositoryNodeId] settles once its request is made. *)
  nodeIdAnswer : Repo → nat → Outcome jsstring;
  (** How [addRepoToGitHubLists] settles once its request is made. *)
  membershipAnswer : Repo → nat → jsstring → list jsstring → Outcome unit;
  (** The order in which the promises of batch number [n] settle. *)
  completionOrder : nat → nat → nat;
}.

(** A request sent to the GitHub API for one item, or a wait between two
    attempts. *)
Inductive NetEvent : Type :=
| NodeIdRequest (owner name : jsstring)
| MembershipRequest (repositoryId : jsstring) (listIds : list jsstring)
| Slept (ms : Z).

(** The objects the processor returns. *)
Record AddResult : Type := {
  repoId : jsstring;
  success : bool;
  categories : option (list jsstring);
  error : option jsstring;
}.

(** What the command does that can be seen from outside. The requests of
    an item are kept together, in the order of the item's own attempts. *)
Inductive Event : Type :=
| ReadmeRequested (owner name : jsstring)
| ClassifyRequested (batchIdx : nat) (ids : list jsstring)
| SpinnerFailed (text : jsstring)
| ItemRequests (repo : jsstring) (requests : list NetEvent)
| ItemReported (result : AddResult)
| Paused (ms : Z).

Record Tally : Type := {
  succeeded : nat;
  failed : nat;
}.

Section Command.

Variable env : Env.
Variable config : Config.

Definition isEmpty (s : jsstring) : bool := bool_decide (s = []).

(** The owner, a slash, the name. *)
Definition fullName (repo : Repo) : jsstring :=
  ownerLogin repo ++ [47] ++ repoName repo.

(** The checks [fetchRepositoryReadme] and [getRepositoryNodeId] make
    before any request. *)
Definition checkParameters (token owner name : jsstring) : option Thrown :=
  if isEmpty token
  then Some (ErrorInstance (js "Missing GitHub token parameter"))
  else if isEmpty owner || isEmpty name
  then Some (ErrorInstance (js "Missing repository owner or name parameter"))
  else None.

(** [fetchRepositoryReadme(token, owner, name)]. *)
Definition fetchRepositoryReadme (repo : Repo)
    : Outcome (option jsstring) * list Event :=
  match checkParameters (githubToken config) (ownerLogin repo) (repoName repo) with
  | Some e => (Rejected e, [])
  | None => (Fulfilled (readmeAnswer env repo),
             [ReadmeRequested (ownerLogin repo) (repoName repo)])
  end.

(** [await Promise.all(batchRepos.map(async (repo) => ...))]: every
    callback runs up to its request; the first rejection, if any, is the
    one [Promise.all] is rejected with. *)
Fixpoint fetchReadmes (batchRepos : list Repo)
    : Outcome (list BatchRepoInfo) * list Event :=
  match batchRepos with
  | [] => (Fulfilled [], [])
  | repo :: rest =>
      let '(fetched, events) := fetchRepositoryReadme repo in
      let '(others, events') := fetchReadmes rest in
      (match fetched, others with
       | Rejected e, _ => Rejected e
       | Fulfilled _, Rejected e => Rejected e
       | Fulfilled text, Fulfilled infos =>
           Fulfilled ({| id := fullName repo;
                         repoDescription := Some (repoDescriptionText repo);
                         language := repoLanguage repo;
                         stars := stargazersCount repo;
                         readme := text |} :: infos)
       end, events ++ events')
  end.

(** [gemini.classifyRepositoriesBatch(repos, categories)]: the request,
    then [parseBatchClassifierResponse] on the text of the response. *)
Definition classifyRepositoriesBatch (batchIdx : nat)
    (repos : list BatchRepoInfo) (categories : list Category)
    : Outcome ResultMap :=
  match oracleAnswer env batchIdx repos with
  | Fulfilled text =>
      Fulfilled (parseBatchClassifierResponse config text repos categories)
  | Rejected e => Rejected e
  end.

(** [getRepositoryNodeId(token, owner, name)] on attempt [attempt]. *)
Definition getRepositoryNodeId (repo : Repo) (attempt : nat)
    : Outcome jsstring * list NetEvent :=
  match checkParameters (githubToken config) (ownerLogin repo) (repoName repo) with
  | Some e => (Rejected e, [])
  | None => (nodeIdAnswer env repo attempt,
             [NodeIdRequest (ownerLogin repo) (repoName repo)])
  end.

(** [addRepoToGitHubLists(token, repositoryId, listIds)]. *)
Definition addRepoToGitHubLists (repo : Repo) (attempt : nat)
    (repositoryId : jsstring) (listIds : list jsstring)
    : Outcome unit * list NetEvent :=
  if isEmpty (githubToken config)
  then (Rejected (ErrorInstance (js "Missing GitHub token parameter")), [])
  else if isEmpty repositoryId
  then (Rejected (ErrorInstance (js "Missing repository ID parameter")), [])
  else match listIds with
       | [] => (Rejected (ErrorInstance (js "Missing list IDs parameter")), [])
       | _ :: _ => (membershipAnswer env repo attempt repositoryId listIds,
                    [MembershipRequest repositoryId listIds])
       end.

(** The function given to [retryWithBackoff]: the node id, then the
    membership. *)
Definition addOnce (repo : Repo) (listIds : list jsstring) (attempt : nat)
    : Outcome unit * list NetEvent :=
  match getRepositoryNodeId repo attempt with
  | (Fulfilled repoNodeId, events) =>
      let '(added, events') := addRepoToGitHubLists repo attempt repoNodeId listIds in
      (added, events ++ events')
  | (Rejected e, events) => (Rejected e, events)
  end.

(** The environment of [retryWithBackoff] for one item: the number of
    attempts made and the requests sent so far. *)
Definition attempting (repo : Repo) (listIds : list jsstring) (X : Type)
    (e : RetryEffect unit X) (s : nat * list NetEvent)
    : X * (nat * list NetEvent) :=
  match e in RetryEffect _ X return X * (nat * list NetEvent) with
  | CallFn =>
      let '(settled, events) := addOnce repo listIds s.1 in
      (settled, (S s.1, s.2 ++ events))
  | Delay ms => (tt, (s.1, s.2 ++ [Slept ms]))
  end.

(** [categoryNames.map((name) => createdLists.get(name)?.id)
      .filter((id) => !!id)]. *)
Definition listIdsOf (createdLists : gmap jsstring CreatedList)
    (categoryNames : list jsstring) : list jsstring :=
  omap (fun name =>
          match createdLists !! name with
          | Some l => if isEmpty (listId l) then None else Some (listId l)
          | None => None
          end) categoryNames.

(** [error instanceof Error ? error.message : String(error)]. *)
Definition errMsg (e : Thrown) : jsstring :=
  match e with
  | ErrorInstance message => message
  | NonError text => text
  end.

(** The processor given to [runWithConcurrency], with the requests it
    sends. It catches what it awaits and so never rejects. *)
Definition addToLists (createdLists : gmap jsstring CreatedList)
    (results : ResultMap) (repo : Repo) : AddResult * list NetEvent :=
  let repoId := fullName repo in
  let categoryNames := default [] (results !! KeyStr repoId) in
  match listIdsOf createdLists categoryNames with
  | [] =>
      ({| repoId := repoId; success := false; categories := None;
          error := Some (js "No matching category") |}, [])
  | (_ :: _) as listIds =>
      let '(settled, (_, requests)) :=
        run (attempting repo listIds)
            (retryWithBackoff
               {| maxRetries := Some 3%Z; initialDelayMs := Some 500%Z;
                  maxDelayMs := None |})
            (0%nat, []) in
      match settled with
      | Fulfilled _ =>
          ({| repoId := repoId; success := true;
              categories := Some categoryNames; error := None |}, requests)
      | Rejected e =>
          ({| repoId := repoId; success := false; categories := None;
              error := Some (errMsg e) |}, requests)
      end
  end.

(** [for (const result of addResults)]: the two counters. A hole in the
    array would make [result.success] raise. *)
Fixpoint countResults (addResults : list (option AddResult)) (tally : Tally)
    : Outcome Tally :=
  match addResults with
  | [] => Fulfilled tally
  | None :: _ => Rejected (ErrorInstance (js "TypeError"))
  | Some result :: rest =>
      countResults rest
        (if success result
         then {| succeeded := S (succeeded tally); failed := failed tally |}
         else {| succeeded := succeeded tally; failed := S (failed tally) |})
  end.

(** The state of the command between two batches. *)
Record RunState : Type := {
  tally : Tally;
  trace : list Event;
}.

(** How the command ends: it returns, it is rejected, or it is still
    waiting for [runWithConcurrency] (which never happens, see the
    theorems). *)
Inductive Ending : Type :=
| Returned (final : RunState)
| Raised (reason : Thrown) (final : RunState)
| Pending (final : RunState).

(** [repos.slice(batchStart, batchEnd)]. *)
Definition batchOf (repos : list Repo) (batchSize batchIdx : nat) : list Repo :=
  take batchSize (drop (batchIdx * batchSize) repos).

(** One turn of the loop over the batches: what it adds to the state, and
    whether the loop goes on ([continue] or the end of the body). *)
Definition batchStep (repos : list Repo) (categories : list Category)
    (createdLists : gmap jsstring CreatedList) (batchSize totalBatches : nat)
    (batchIdx : nat) (st : RunState) : Ending :=
  let batchRepos := batchOf repos batchSize batchIdx in
  let '(fetched, fetches) := fetchReadmes batchRepos in
  let st1 := {| tally := tally st; trace := trace st ++ fetches |} in
  match fetched with
  | Rejected e => Raised e st1
  | Fulfilled batchRepoInfos =>
      let st2 := {| tally := tally st1;
                    trace := trace st1 ++
                      [ClassifyRequested batchIdx (map id batchRepoInfos)] |} in
      match classifyRepositoriesBatch batchIdx batchRepoInfos categories with
      | Rejected _ =>
          Returned
            {| tally := {| succeeded := succeeded (tally st2);
                           failed := failed (tally st2) + length batchRepos |};
               trace := trace st2 ++ [SpinnerFailed (js "Classification failed")] |}
      | Fulfilled results =>
          let processed := map (addToLists createdLists results) batchRepos in
          let st3 := {| tally := tally st2;
                        trace := trace st2 ++
                          map (fun '(result, requests) =>
                                 ItemRequests (repoId result) requests)
                              processed |} in
          match (runWithConcurrency batchRepos
                   (fun repo => Fulfilled (addToLists createdLists results repo).1)
                   5 (completionOrder env batchIdx)).1 with
          | None => Pending st3
          | Some (Rejected e) => Raised e st3
          | Some (Fulfilled addResults) =>
              match countResults addResults (tally st3) with
              | Rejected e => Raised e st3
              | Fulfilled counted =>
                  Returned
                    {| tally := counted;
                       trace := trace st3
                         ++ omap (fun r => ItemReported <$> r) addResults
                         ++ (if (S batchIdx <? totalBatches)%nat
                             then [Paused (batchDelay config)] else []) |}
              end
          end
      end
  end.

(** [for (let batchIdx = 0; batchIdx < totalBatches; batchIdx++)], from
    [batchIdx] on with [remaining] turns left. *)
Fixpoint batchLoop (repos : list Repo) (categories : list Category)
    (createdLists : gmap jsstring CreatedList) (batchSize totalBatches : nat)
    (remaining batchIdx : nat) (st : RunState) : Ending :=
  match remaining with
  | O => Returned st
  | S remaining' =>
      match batchStep repos categories createdLists batchSize totalBatches
              batchIdx st with
      | Returned st' =>
          batchLoop repos categories createdLists batchSize totalBatches
            remaining' (S batchIdx) st'
      | ending => ending
      end
  end.

(** [Math.ceil(repos.length / batchSize)] for a positive batch size. *)
Definition totalBatchesOf (repos : list Repo) (batchSize : nat) : nat :=
  (length repos + batchSize - 1) / batchSize.

(** [classifyAndAddRepos(config, gemini, repos, categories, createdLists)].
    With a batch size of 0 and repositories to process the number of
    batches is infinite and the loop never ends: there is no result. A
    negative batch size gives no batch at all. *)
Definition classifyAndAddRepos (repos : list Repo) (categories : list Category)
    (createdLists : gmap jsstring CreatedList) : option Ending :=
  let start := {| tally := {| succeeded := 0; failed := 0 |}; trace := [] |} in
  match classifyBatchSize config, repos with
  | Z0, _ :: _ => None
  | Z0, [] => Some (Returned start)
  | Zneg _, _ => Some (Returned start)
  | Zpos size, _ =>
      let batchSize := Pos.to_nat size in
      let totalBatches := totalBatchesOf repos batchSize in
      Some (batchLoop repos categories createdLists batchSize totalBatches
              totalBatches 0 start)
  end.

End Command.

End Classify.
Import Classify.

(** ** [src/services/gemini.ts]: the other two parsers *)

Module GeminiSingle.

(** [ClassificationResult]. *)
Record ClassificationResult : Type := {
  resultCategories : list jsstring;
  reason : jsstring;
}.

Section Single.

Variable config : Config.

(** [parsed.categories], when [parsed] has an array there; [None] stands
    for the two ways of leaving the [try] block at that point: the
    [TypeError] of [null.categories] and the error the code raises
    itself. *)
Definition categoriesOf (parsed : json) : option (list json) :=
  match parsed with
  | JObj members =>
      match getMember (js "categories") members with
      | Some (JArr cs) => Some cs
      | _ => None
      end
  | _ => None
  end.

(** [categories[0].name], a [TypeError] when the set is empty. *)
Definition firstName (categories : list Category) : Outcome jsstring :=
  match categories with
  | c :: _ => Fulfilled (name c)
  | [] => Rejected (ErrorInstance (js "TypeError"))
  end.

(** The [try] block of [parseClassifierResponse]; a rejection is an
    exception raised in it. *)
Definition trySingle (text : jsstring) (categories : list Category)
    : Outcome ClassificationResult :=
  match JSON_parse (trim text) with
  | Parsed parsed _ =>
      match categoriesOf parsed with
      | Some cs =>
          match validCategories config (validCategoryNames categories) cs with
          | [] =>
              match firstName categories with
              | Fulfilled first =>
                  Fulfilled {| resultCategories := [first]; reason := [] |}
              | Rejected e => Rejected e
              end
          | (_ :: _) as validated =>
              Fulfilled {| resultCategories := validated; reason := [] |}
          end
      | None => Rejected (ErrorInstance (js "Invalid response structure"))
      end
  | SyntaxError | RangeError => Rejected (ErrorInstance (js "SyntaxError"))
  end.

(** [parseClassifierResponse(text, categories)]: what the [try] block
    returns, or what the [catch] block makes of its exception. *)
Definition parseClassifierResponse (text : jsstring)
    (categories : list Category) : Outcome ClassificationResult :=
  match trySingle text categories with
  | Fulfilled result => Fulfilled result
  | Rejected _ =>
      match firstName categories with
      | Fulfilled first =>
          Fulfilled {| resultCategories := [first];
                       reason := js "Parsing failed, using default category" |}
      | Rejected e => Rejected e
      end
  end.

End Single.

(** A planned category: [name] and [description] are whatever truthy
    values the response holds there, or the fixed strings. *)
Record PlannedCategory : Type := {
  plannedName : json;
  plannedDescription : json;
}.

(** [v || fallback] for a property that may be missing. *)
Definition orElse (v : option json) (fallback : jsstring) : json :=
  match v with
  | Some x => if truthy x then x else JStr fallback
  | None => JStr fallback
  end.

(** The callback of [parsed.categories.map]: reading a property of
    [null] raises; a primitive or an array has neither property. *)
Definition planned (c : json) : option PlannedCategory :=
  match c with
  | JNull => None
  | JObj members =>
      Some {| plannedName := orElse (getMember (js "name") members) (js "Unnamed");
              plannedDescription :=
                orElse (getMember (js "description") members) [] |}
  | _ => Some {| plannedName := JStr (js "Unnamed");
                 plannedDescription := JStr [] |}
  end.

(** The [try]/[catch] of [planCategories] on the text of the response:
    every exception becomes the one fixed error. *)
Definition parsePlan (text : jsstring) : Outcome (list PlannedCategory) :=
  let failure :=
    Rejected (ErrorInstance (js "Failed to parse Gemini category response")) in
  match JSON_parse text with
  | Parsed parsed _ =>
      match categoriesOf parsed with
      | Some cs =>
          match mapM planned cs with
          | Some categories => Fulfilled categories
          | None => failure
          end
      | None => failure
      end
  | SyntaxError | RangeError => failure
  end.

End GeminiSingle.
Import GeminiSingle.

(** ** [src/utils/rate-limiter.ts]: [processBatch] *)

Module RateLimiterBatch.

(** What an observer sees of a run: [processor(item, index)] is called,
    [onProgress(completed, total)] is called, the loop waits. *)
Inductive BatchObserved : Type :=
| Processed (index : nat)
| Progress (completed total : nat)
| BatchWaited (ms : Z).

Section ProcessBatch.

Context {T R : Type}.
Variable processor : T → nat → Outcome R.
(** Which of the promises rejected in a batch was rejected first: a
    position in the list of their reasons. *)
Variable firstRejected : nat → nat.

(** The values of the fulfilled promises of a batch, and the reasons of
    the rejected ones, in the order of the batch; [index] is the index of
    the first item of the batch. *)
Fixpoint settleBatch (batch : list T) (index : nat) : list R * list Thrown :=
  match batch with
  | [] => ([], [])
  | item :: rest =>
      let '(values, reasons) := settleBatch rest (S index) in
      match processor item index with
      | Fulfilled v => (v :: values, reasons)
      | Rejected e => (values, e :: reasons)
      end
  end.

(** [await Promise.all(batch.map((item, idx) => processor(item, i + idx)))]:
    fulfilled with all the values when no promise is rejected, rejected
    with the first rejection otherwise. [batchNo] is the number of the
    batch. *)
Definition promiseAll (batch : list T) (index batchNo : nat) : Outcome (list R) :=
  match settleBatch batch index with
  | (values, []) => Fulfilled values
  | (_, (e :: _) as reasons) =>
      Rejected (default e (reasons !! (firstRejected batchNo mod length reasons)%nat))
  end.

(** The loop from index [i] on, for a positive [batchSize]; [fuel] turns
    are left. *)
Fixpoint batches (items : list T) (batchSize : nat) (batchDelayMs : Z)
    (onProgress : bool) (fuel : nat) (i batchNo : nat)
    (results : list R) (observed : list BatchObserved)
    : Outcome (list R) * list BatchObserved :=
  if (i <? length items)%nat then
    match fuel with
    | O => (Fulfilled results, observed)
    | S fuel' =>
        let batch := take batchSize (drop i items) in
        let called := map Processed (seq i (length batch)) in
        match promiseAll batch i batchNo with
        | Rejected e => (Rejected e, observed ++ called)
        | Fulfilled batchResults =>
            let progress :=
              if onProgress
              then [Progress (Nat.min (i + batchSize) (length items)) (length items)]
              else [] in
            let wait :=
              if (i + batchSize <? length items)%nat
              then [BatchWaited batchDelayMs] else [] in
            batches items batchSize batchDelayMs onProgress fuel'
              (i + batchSize) (S batchNo) (results ++ batchResults)
              (observed ++ called ++ progress ++ wait)
        end
    end
  else (Fulfilled results, observed).

(** [processBatch(items, processor, options)]. The defaults of the
    options are a batch size of 10 and a delay of 3000 ms. With items to
    process and a batch size that is not positive the index never passes
    the length: the loop does not end and there is no result, unless the
    first batch, which a negative size makes [items.slice(0, batchSize)],
    is rejected (every later batch is empty). *)
Definition processBatch (items : list T) (batchSize : option Z)
    (batchDelayMs : option Z) (onProgress : bool)
    : option (Outcome (list R) * list BatchObserved) :=
  match default 10%Z batchSize, items with
  | Zpos size, _ =>
      Some (batches items (Pos.to_nat size) (default 3000%Z batchDelayMs)
              onProgress (length items) 0 0 [] [])
  | _, [] => Some (Fulfilled [], [])
  | Z0, _ :: _ => None
  | Zneg size, _ :: _ =>
      let batch := sliceTo items (Zneg size) in
      match promiseAll batch 0 0 with
      | Rejected e => Some (Rejected e, map Processed (seq 0 (length batch)))
      | Fulfilled _ => None
      end
  end.

End ProcessBatch.

End RateLimiterBatch.
Import RateLimiterBatch.
(** ** [src/api]: the paginated fetch of the repositories *)

Module Repos.

(** How the request of one page settles: the request or the reading of
    its body is rejected, the response is not ok and carries its status,
    or it is ok and [response.json()] is the array of the repositories
    of the page. *)
Inductive PageResponse : Type :=
| PageFailed (reason : Thrown)
| PageNotOk (status : Z)
| PageOk (newRepos : list Repo).

(** The object the function returns: [repos] may be missing. *)
Record FetchResult : Type := {
  fetchedRepos : option (list Repo);
  fetchedStatus : Z;
}.

Inductive FetchEvent : Type :=
| PageRequested (page : nat)
| ProgressReported (count : nat).

(** [while (true)] from page [page] on, with [fuel] turns left; [None]
    when the turns run out before the loop is left. *)
Fixpoint fetchPages (answer : nat → PageResponse) (onProgress : bool)
    (fuel page : nat) (allRepos : list Repo) (observed : list FetchEvent)
    : option (Outcome FetchResult * list FetchEvent) :=
  match fuel with
  | O => None
  | S fuel' =>
      let requested := observed ++ [PageRequested page] in
      match answer page with
      | PageFailed reason => Some (Rejected reason, requested)
      | PageNotOk status =>
          Some (Fulfilled {| fetchedRepos := None; fetchedStatus := status |},
                requested)
      | PageOk newRepos =>
          let allRepos' := allRepos ++ newRepos in
          let reported :=
            requested
            ++ (if onProgress then [ProgressReported (length allRepos')] else []) in
          if (length newRepos <? 100)%nat
          then Some (Fulfilled {| fetchedRepos := Some allRepos';
                                  fetchedStatus := 200 |}, reported)
          else fetchPages answer onProgress fuel' (S page) allRepos' reported
      end
  end.

(** [fetchAllMyStarredRepos(token, owner, onProgress)], and
    [fetchAllMyRepos], which differs by the address only: the loop from
    page 1 on. *)
Definition fetchAllMyStarredRepos (answer : nat → PageResponse)
    (onProgress : bool) (fuel : nat)
    : option (Outcome FetchResult * list FetchEvent) :=
  fetchPages answer onProgress fuel 1 [] [].

End Repos.
Import Repos.

(** ** [src/commands/classify.ts] and [src/commands/run.ts]: the lists
    that exist, and the reset *)

Module ExistingLists.

(** A repository of a list, and a list, as [fetchGitHubLists] formats
    them. *)
Record ListedRepo : Type := {
  listedOwner : jsstring;
  listedName : jsstring;
}.

Record FormattedList : Type := {
  formattedId : jsstring;
  formattedName : jsstring;
  formattedDescription : option jsstring;
  repositories : list ListedRepo;
}.

(** The owner, a slash, the name. *)
Definition listedKey (repo : ListedRepo) : jsstring :=
  listedOwner repo ++ [47] ++ listedName repo.

(** [existingLists.set(list.name, {id, name, description})] for every
    list, in order: a later list of the same name replaces an earlier
    one. *)
Definition existingListsOf (lists : list FormattedList)
    : gmap jsstring CreatedList :=
  foldl (fun m list =>
           <[formattedName list :=
               {| listId := formattedId list; listName := formattedName list;
                  listDescription := formattedDescription list |}]> m)
        ∅ lists.

(** [{name: list.name, description: list.description || "", keywords: []}]
    for every list. *)
Definition existingCategoriesOf (lists : list FormattedList) : list Category :=
  map (fun list =>
         {| name := formattedName list;
            description := default [] (formattedDescription list);
            keywords := [] |}) lists.

(** [addedRepoNames.add(key)] for every repository of every list. *)
Definition addedRepoNamesOf (lists : list FormattedList) : gset jsstring :=
  foldl (fun names list =>
           foldl (fun names repo => {[listedKey repo]} ∪ names)
                 names (repositories list))
        ∅ lists.

(** [allRepos.filter((repo) => !addedRepoNames.has(key))]. *)
Definition newReposOf (lists : list FormattedList) (allRepos : list Repo)
    : list Repo :=
  filter (fun repo => fullName repo ∉ addedRepoNamesOf lists) allRepos.

(** [filterNewReposOnly(config, allRepos)] once the lists are fetched. *)
Definition filterNewReposOnly (lists : list FormattedList) (allRepos : list Repo)
    : list Repo * gmap jsstring CreatedList * list Category :=
  (newReposOf lists allRepos, existingListsOf lists, existingCategoriesOf lists).

(** [reposInLists]: a [Map] keeps its keys in the order of their first
    insertion, and here a key that is present is not set again. *)
Definition reposInListsOf (lists : list FormattedList)
    : list (jsstring * ListedRepo) :=
  foldl (fun found list =>
           foldl (fun found repo =>
                    if decide (listedKey repo ∈ map fst found) then found
                    else found ++ [(listedKey repo, repo)])
                 found (repositories list))
        [] lists.

(** The network of the reset: how the node id request of a repository
    and the removal of a repository id settle. *)
Record ResetEnv : Type := {
  resetNodeId : ListedRepo → Outcome jsstring;
  resetRemoval : jsstring → Outcome unit;
}.

Inductive ResetEvent : Type :=
| ResetNodeIdRequest (owner name : jsstring)
| ResetRemovalRequest (repositoryId : jsstring)
| ResetSlept (ms : Z).

Section Reset.

Variable env : ResetEnv.
Variable config : Config.
(** [config.githubRequestDelay]. *)
Variable githubRequestDelay : Z.

(** The body of the [try] for one repository: whether it reached
    [removed++], and what it sent. *)
Definition resetOne (repo : ListedRepo) : bool * list ResetEvent :=
  match checkParameters (githubToken config) (listedOwner repo) (listedName repo) with
  | Some _ => (false, [])
  | None =>
      let asked := [ResetNodeIdRequest (listedOwner repo) (listedName repo)] in
      match resetNodeId env repo with
      | Rejected _ => (false, asked)
      | Fulfilled repoNodeId =>
          if isEmpty (githubToken config) || isEmpty repoNodeId
          then (false, asked)
          else match resetRemoval env repoNodeId with
               | Rejected _ => (false, asked ++ [ResetRemovalRequest repoNodeId])
               | Fulfilled _ =>
                   (true, asked ++ [ResetRemovalRequest repoNodeId;
                                    ResetSlept githubRequestDelay])
               end
      end
  end.

(** [for (const [key, repo] of reposInLists)]. *)
Fixpoint resetLoop (repos : list (jsstring * ListedRepo)) (removed failed : nat)
    (events : list ResetEvent) : nat * nat * list ResetEvent :=
  match repos with
  | [] => (removed, failed, events)
  | (_, repo) :: rest =>
      let '(ok, sent) := resetOne repo in
      if ok then resetLoop rest (S removed) failed (events ++ sent)
      else resetLoop rest removed (S failed) (events ++ sent)
  end.

(** How [handleReset] ends once the lists are fetched. *)
Inductive ResetEnding : Type :=
| NoLists
| NothingListed
| Cancelled
| Removed (removed failed : nat).

(** [handleReset(config)] from the answer of [fetchGitHubLists] on;
    [confirmed] is the answer to the confirmation prompt. *)
Definition handleReset (totalLists : Z) (lists : list FormattedList)
    (confirmed : bool) : ResetEnding * list ResetEvent :=
  if (totalLists =? 0)%Z then (NoLists, [])
  else match reposInListsOf lists with
       | [] => (NothingListed, [])
       | (_ :: _) as reposInLists =>
           if confirmed then
             let '(removed, failed, events) := resetLoop reposInLists 0 0 [] in
             (Removed removed failed, events)
           else (Cancelled, [])
       end.

End Reset.

End ExistingLists.
Import ExistingLists.

(** ** Vocabulary of the statements about the rate limiter *)

Module RateLimiterSpec.

(** What is observed of an operation that fails [retries + 1] times in a
    row, from attempt number [attempt] on: a call, the wait before the
    next attempt, a call, ..., and a last call with no wait after it. *)
Fixpoint backoffSchedule (initialDelayMs maxDelayMs attempt : Z) (retries : nat)
    : list Observed :=
  match retries with
  | O => [Invoked]
  | S retries' =>
      Invoked :: Waited (Z.min (initialDelayMs * 2 ^ attempt) maxDelayMs)
      :: backoffSchedule initialDelayMs maxDelayMs (attempt + 1) retries'
  end.

(** The number of calls of the operation in a run. *)
Fixpoint invocations (observed : list Observed) : nat :=
  match observed with
  | [] => 0
  | Invoked :: rest => S (invocations rest)
  | Waited _ :: rest => invocations rest
  end.

(** The waits of a run, in order. *)
Fixpoint delaysOf (observed : list Observed) : list Z :=
  match observed with
  | [] => []
  | Invoked :: rest => delaysOf rest
  | Waited ms :: rest => ms :: delaysOf rest
  end.

(** An operation that fails on every attempt, attempt [k] with the
    reason [errors k]. *)
Definition alwaysFailing {T : Type} (errors : nat → Thrown) : nat → Outcome T :=
  fun k => Rejected (errors k).

(** A [processor] that never rejects: it fulfils with [f item]. *)
Definition fulfilling {T R : Type} (f : T → R) : T → Outcome R :=
  fun item => Fulfilled (f item).

Section PoolInvariant.

Context {T R : Type}.
Variable items : list T.
Variable f : T → R.

(** What holds of the shared variables between two steps of the event
    loop when [processor] never rejects. *)
Record PoolInvariant (p : Pool (R:=R)) : Prop := {
  inv_index : (currentIndex p ≤ length items)%nat;
  inv_invoked : invoked p = seq 0 (currentIndex p);
  inv_results : length (results p) = length items;
  inv_rejection : rejection p = None;
  inv_no_crash : ∀ w reason, workers p !! w ≠ Some (Crashed reason);
  inv_claimed :
    ∀ w i, workers p !! w = Some (Awaiting i) →
           (i < currentIndex p)%nat ∧ results p !! i = Some None;
  inv_distinct :
    ∀ w w' i, workers p !! w = Some (Awaiting i) →
              workers p !! w' = Some (Awaiting i) → w = w';
  inv_done :
    ∀ i item, items !! i = Some item → (i < currentIndex p)%nat →
              (∃ w, workers p !! w = Some (Awaiting i))
              ∨ (i ∈ settled p ∧ results p !! i = Some (Some (f item)));
  inv_settled_NoDup : NoDup (settled p);
  inv_settled :
    ∀ i, i ∈ settled p → ∃ v, results p !! i = Some (Some v);
  inv_fresh :
    ∀ i, (currentIndex p ≤ i < length items)%nat → results p !! i = Some None;
  inv_finished :
    ∀ w, workers p !! w = Some Finished → currentIndex p = length items;
}.

(** The promises still to settle: those not yet made and those pending. *)
Definition outstanding (p : Pool (R:=R)) : nat :=
  (length items - currentIndex p + length (awaiting p))%nat.

End PoolInvariant.

(** The pool after the promises of the workers numbered [ws] have
    settled one after the other (a number whose worker awaits nothing
    changes nothing): every state the event loop can be in. *)
Fixpoint settleEach {T R : Type} (items : list T) (processor : T → Outcome R)
    (ws : list nat) (p : Pool (R:=R)) : Pool (R:=R) :=
  match ws with
  | [] => p
  | w :: rest => settleEach items processor rest (settle items processor w p)
  end.

(** The indices [processor] was called with, and the waits, in a run
    of [processBatch]. *)
Fixpoint processedOf (observed : list BatchObserved) : list nat :=
  match observed with
  | [] => []
  | Processed index :: rest => index :: processedOf rest
  | _ :: rest => processedOf rest
  end.

Fixpoint waitsOf (observed : list BatchObserved) : list Z :=
  match observed with
  | [] => []
  | BatchWaited ms :: rest => ms :: waitsOf rest
  | _ :: rest => waitsOf rest
  end.

End RateLimiterSpec.
Import RateLimiterSpec.

(** ** Vocabulary of the statements about the command *)

Module ClassifySpec.

(** The results that are successes, and those that are failures. *)
Definition successes (rs : list AddResult) : nat :=
  length (List.filter success rs).

Definition failures (rs : list AddResult) : nat :=
  length (List.filter (fun r => negb (success r)) rs).

(** The parameter checks of the API functions pass: the token is not
    empty and every repository has an owner and a name. *)
Definition Addressable (config : Config) (repos : list Repo) : Prop :=
  githubToken config ≠ []
  ∧ Forall (fun repo => ownerLogin repo ≠ [] ∧ repoName repo ≠ []) repos.

(** The result of an item none of whose categories has a list. *)
Definition noMatchingCategory (repo : Repo) : AddResult :=
  {| repoId := fullName repo; success := false; categories := None;
     error := Some (js "No matching category") |}.

(** The results of the processor on a batch, in the order of the batch. *)
Definition batchResults (env : Env) (config : Config)
    (createdLists : gmap jsstring CreatedList) (results : ResultMap)
    (batchRepos : list Repo) : list AddResult :=
  map (fun repo => (addToLists env config createdLists results repo).1) batchRepos.

Definition isPause (e : Event) : bool :=
  match e with
  | Paused _ => true
  | _ => false
  end.

Definition isNodeIdRequest (e : NetEvent) : bool :=
  match e with
  | NodeIdRequest _ _ => true
  | _ => false
  end.

Definition isMembershipRequest (e : NetEvent) : bool :=
  match e with
  | MembershipRequest _ _ => true
  | _ => false
  end.

(** What a request or a wait made for an item may be: a node id request
    for the repository of the item, a membership request for a
    repository id that is not empty and exactly the list ids of the
    item, or one of the first three waits of the backoff. *)
Definition Disciplined (repo : Repo) (listIds : list jsstring) (e : NetEvent)
    : Prop :=
  match e with
  | NodeIdRequest owner name => owner = ownerLogin repo ∧ name = repoName repo
  | MembershipRequest repositoryId ids =>
      repositoryId ≠ [] ∧ ids = listIds ∧ ids ≠ []
  | Slept ms => ms = 500%Z ∨ ms = 1000%Z ∨ ms = 2000%Z
  end.

(** The README requests of a trace, and its classification requests. *)
Definition readmesOf (events : list Event) : list (jsstring * jsstring) :=
  omap (fun e => match e with
                 | ReadmeRequested owner name => Some (owner, name)
                 | _ => None
                 end) events.

Definition classifiedOf (events : list Event) : list (nat * list jsstring) :=
  omap (fun e => match e with
                 | ClassifyRequested batchIdx ids => Some (batchIdx, ids)
                 | _ => None
                 end) events.

(** The events of a trace that stand for work on the items of a batch
    whose classification returned. *)
Definition isItemWork (e : Event) : bool :=
  match e with
  | ItemRequests _ _ | ItemReported _ | Paused _ => true
  | _ => false
  end.

(** The pages a paginated fetch asked for, in order. *)
Definition pagesRequested (observed : list FetchEvent) : list nat :=
  omap (fun e => match e with
                 | PageRequested page => Some page
                 | _ => None
                 end) observed.

(** A repository of some list has this key. *)
Definition Listed (lists : list FormattedList) (key : jsstring) : Prop :=
  ∃ list repo, list ∈ lists ∧ repo ∈ repositories list ∧ listedKey repo = key.

Definition isResetSlept (e : ResetEvent) : bool :=
  match e with
  | ResetSlept _ => true
  | _ => false
  end.

Definition isResetNodeIdRequest (e : ResetEvent) : bool :=
  match e with
  | ResetNodeIdRequest _ _ => true
  | _ => false
  end.

End ClassifySpec.
Import ClassifySpec.

(** ** Vocabulary of the statements about the parser *)

Module ParserSpec.

(** The map a [try] block leaves, however it ends. *)
Definition completionMap (c : Completion) : ResultMap :=
  match c with
  | Normal m => m
  | Abrupt m => m
  end.

(** The [categories] array of an entry of a results array. *)
Definition categoriesArrayOf (result : json) : option (list json) :=
  match result with
  | JObj members =>
      match getMember (js "categories") members with
      | Some (JArr cs) => Some cs
      | _ => None
      end
  | _ => None
  end.

(** The [categories] arrays of the entries of [parsed.results], in the
    text given to [JSON.parse]. *)
Definition categoryArrays (jsonStr : jsstring) : list (list json) :=
  match JSON_parse jsonStr with
  | Parsed parsed _ =>
      match resultsOf parsed with
      | Some results => omap categoriesArrayOf results
      | None => []
      end
  | SyntaxError | RangeError => []
  end.

(** The strings of a parsed array, in the order of the array. *)
Definition stringsOf (cs : list json) : list jsstring :=
  omap (fun c => match c with JStr s => Some s | _ => None end) cs.

(** The second captures of the matches of [linePattern] in the text. *)
Definition captures (text : jsstring) : list jsstring :=
  map snd (linePatternMatches text).

(** The names written in a capture, in the order of the capture. *)
Definition pieces (categoriesStr : jsstring) : list jsstring :=
  map (fun s => removeChar quote (trim s)) (splitChar comma categoriesStr).

(** A category list is read off the response when it is the first
    [limit] valid names, in their order, of a categories array or of a
    capture of the response. *)
Definition ReadOffResponse (names : list jsstring) (limit : Z)
    (text : jsstring) (v : list jsstring) : Prop :=
  (∃ cs, cs ∈ categoryArrays (jsonText text)
         ∧ v = take (Z.to_nat limit) (filter (fun c => c ∈ names) (stringsOf cs)))
  ∨ (∃ str, str ∈ captures text
            ∧ v = take (Z.to_nat limit) (filter (fun c => c ∈ names) (pieces str))).



(** The bounds of the validator on one category list: between one and
    [maxCategoriesPerRepo] names, all of the supplied set, and either the
    default alone or names read off the response in their order. *)
Definition Validated (config : Config) (categories : list Category)
    (text : jsstring) (v : list jsstring) : Prop :=
  (1 ≤ Z.of_nat (length v) ≤ maxCategoriesPerRepo config)%Z
  ∧ Forall (fun c => c ∈ validCategoryNames categories) v
  ∧ (v = [defaultCategory categories]
     ∨ ReadOffResponse (validCategoryNames categories)
         (maxCategoriesPerRepo config) text v).

Definition isObject (v : json) : bool :=
  match v with
  | JObj _ => true
  | _ => false
  end.

(** The direct parse path: the trimmed text goes to [JSON.parse] as it
    is. *)
Definition parseDirect (config : Config) (text : jsstring)
    (repos : list BatchRepoInfo) (categories : list Category) : ResultMap :=
  parseFrom config (trim text) text repos categories.

(** The repair path forced: the trimmed text goes through
    [repairTruncated] whether or not it ends with a closing brace. *)
Definition parseForcedRepair (config : Config) (text : jsstring)
    (repos : list BatchRepoInfo) (categories : list Category) : ResultMap :=
  parseFrom config (repairTruncated (trim text)) text repos categories.

(** A well-formed response: the trimmed text parses to an object that
    holds an array of results. *)
Definition WellFormedResponse (text : jsstring) : Prop :=
  ∃ parsed rest results,
    JSON_parse (trim text) = Parsed parsed rest
    ∧ resultsOf parsed = Some results.

(** No opening delimiter outnumbers its closing one, counted as the
    repair step counts them: character by character, string literals
    included. *)
Definition NoExcessOpening (jsonStr : jsstring) : Prop :=
  (countChar lbrace jsonStr ≤ countChar rbrace jsonStr)%Z
  ∧ (countChar lbracket jsonStr ≤ countChar rbracket jsonStr)%Z.

(** What the fallback reads for an id: the valid names of the first
    match of [linePattern] that carries the id and has a valid name. *)
Definition extracted (config : Config) (names : list jsstring)
    (matches : list (jsstring * jsstring)) (ident : jsstring)
    : option (list jsstring) :=
  head (filter (fun cats => cats ≠ [])
          (map (fun m => fallbackCategories config names m.2)
             (filter (fun m => m.1 = ident) matches))).

(** The repair step drops what follows the last closing brace. *)
Definition dropsFragment (jsonStr : jsstring) : Prop :=
  (0 < lastIndexOfChar jsonStr rbrace)%Z
  ∧ includesChar (sliceFrom jsonStr (lastIndexOfChar jsonStr rbrace + 1)) lbrace
    = true
  ∧ includesChar (sliceFrom jsonStr (lastIndexOfChar jsonStr rbrace + 1)) rbrace
    = false.

End ParserSpec.
Import ParserSpec.

(** ** A batch of three targets and a complete response for it *)

Module Scenario.

Definition config : Config :=
  {| githubToken := js "token"; maxCategoriesPerRepo := 3;
     classifyBatchSize := 20; batchDelay := 2000 |}.

Definition category (n : string) : Category :=
  {| name := js n; description := []; keywords := [] |}.

Definition target (n : string) : BatchRepoInfo :=
  {| id := js n; repoDescription := None; language := None; stars := 0;
     readme := None |}.

(** What the README fetch makes of the first two repositories. *)
Definition fetched : list BatchRepoInfo :=
  [{| id := js "octo/alpha"; repoDescription := Some []; language := None;
      stars := 0; readme := None |};
   {| id := js "octo/beta"; repoDescription := Some []; language := None;
      stars := 0; readme := None |}].

Definition categories : list Category :=
  [category "AI: LLM"; category "Web: Frontend"; category "Dev: Tools"].

Definition batch : list BatchRepoInfo :=
  [target "octo/alpha"; target "octo/beta"; target "octo/gamma"].

(** Apostrophes stand for double quotes, see [jsq]. *)
Definition response : jsstring :=
  jsq "{'results':[{'id':'octo/alpha','categories':['Web: Frontend','Dev: Tools']},{'id':'octo/beta','categories':['Dev: Tools']},{'id':'octo/gamma','categories':['Web: Frontend','AI: LLM']}]}".

(** The third categories array opens at index 155 and closes at index
    181 of [response]. *)
Definition thirdArrayOpens : nat := 155.
Definition thirdArrayCloses : nat := 181.

(** The response cut after its first [n] characters. *)
Definition truncated (n : nat) : jsstring := take n response.

(** The cuts inside the third categories array: the opening bracket is
    kept, the closing one is not. *)
Definition cutsInThirdArray : list nat :=
  seq (S thirdArrayOpens) (thirdArrayCloses - thirdArrayOpens).


(** A complete response in which the oracle names, for the first target,
    a category of its own making that holds brackets and a brace. *)
Definition oddResponse : jsstring :=
  jsq "{'results':[{'id':'octo/alpha','categories':['[x]{','Dev: Tools']}]}".


(** Three starred repositories, a list for each category, and a network
    in which the oracle is out of reach for the first batch. *)
Definition starred (owner name : string) : Repo :=
  {| ownerLogin := js owner; repoName := js name; repoDescriptionText := [];
     repoLanguage := None; stargazersCount := 0 |}.

Definition stars : list Repo :=
  [starred "octo" "alpha"; starred "octo" "beta"; starred "octo" "gamma"].

Definition createdList (ident name : string) : CreatedList :=
  {| listId := js ident; listName := js name; listDescription := None |}.

Definition lists : gmap jsstring CreatedList :=
  <[js "AI: LLM" := createdList "UL_1" "AI: LLM"]>
  (<[js "Web: Frontend" := createdList "UL_2" "Web: Frontend"]>
  (<[js "Dev: Tools" := createdList "UL_3" "Dev: Tools"]> ∅)).

Definition firstOracleCallFails : Env :=
  {| readmeAnswer := fun _ => None;
     oracleAnswer := fun batchIdx _ =>
       match batchIdx with
       | O => Rejected (ErrorInstance (js "fetch failed"))
       | S _ => Fulfilled response
       end;
     nodeIdAnswer := fun repo _ => Fulfilled (js "R_" ++ repoName repo);
     membershipAnswer := fun _ _ _ _ => Fulfilled tt;
     completionOrder := fun _ k => k |}.

(** A network in which every call succeeds, and lists for two of the
    three categories only. *)
Definition reliable : Env :=
  {| readmeAnswer := fun _ => None;
     oracleAnswer := fun _ _ => Fulfilled response;
     nodeIdAnswer := fun repo _ => Fulfilled (js "R_" ++ repoName repo);
     membershipAnswer := fun _ _ _ _ => Fulfilled tt;
     completionOrder := fun _ k => k |}.

Definition fewLists : gmap jsstring CreatedList :=
  <[js "AI: LLM" := createdList "UL_1" "AI: LLM"]>
  (<[js "Web: Frontend" := createdList "UL_2" "Web: Frontend"]> ∅).

(** Batches of two repositories. *)
Definition smallBatches : Config :=
  {| githubToken := js "token"; maxCategoriesPerRepo := 3;
     classifyBatchSize := 2; batchDelay := 2000 |}.

(** A network in which no node id is ever resolved. *)
Definition unresolved : Env :=
  {| readmeAnswer := fun _ => None;
     oracleAnswer := fun _ _ => Fulfilled response;
     nodeIdAnswer := fun _ attempt =>
       Rejected (ErrorInstance (js "attempt " ++ [48 + N.of_nat attempt]));
     membershipAnswer := fun _ _ _ _ => Fulfilled tt;
     completionOrder := fun _ k => k |}.

(** A network in which the oracle is always out of reach. *)
Definition noOracle : Env :=
  {| readmeAnswer := fun _ => None;
     oracleAnswer := fun _ _ => Rejected (ErrorInstance (js "fetch failed"));
     nodeIdAnswer := fun repo _ => Fulfilled (js "R_" ++ repoName repo);
     membershipAnswer := fun _ _ _ _ => Fulfilled tt;
     completionOrder := fun _ k => k |}.

(** A configuration without a token. *)
Definition noToken : Config :=
  {| githubToken := []; maxCategoriesPerRepo := 3;
     classifyBatchSize := 2; batchDelay := 2000 |}.

End Scenario.

(** * Properties *)

(** ** [slice] and the maps the parser fills *)

Section SliceFacts.

Context {A : Type}.

Lemma sliceTo_take (l : list A) (e : Z) : ∃ n, sliceTo l e = take n l.
Proof. unfold sliceTo. destruct (e <? 0)%Z; eauto. Qed.

Lemma sliceTo_nonneg (l : list A) (e : Z) :
  (0 ≤ e)%Z → sliceTo l e = take (Z.to_nat e) l.
Proof. intros He. unfold sliceTo. destruct (Z.ltb_spec e 0); [lia | done]. Qed.

Lemma sliceTo_Forall (P : A → Prop) (l : list A) (e : Z) :
  Forall P l → Forall P (sliceTo l e).
Proof. destruct (sliceTo_take l e) as [n ->]. apply Forall_take. Qed.

Lemma sliceTo_length (l : list A) (e : Z) :
  (0 ≤ e)%Z → (Z.of_nat (length (sliceTo l e)) ≤ e)%Z.
Proof. intros He. rewrite sliceTo_nonneg, length_take by done. lia. Qed.

End SliceFacts.

Section ParserFacts.

Variable config : Config.

(** Every stage only adds values of the three shapes the code writes:
    the default, a validated array among [arrays], a validated capture
    among [strs]. *)
Section Values.

Variable P : list jsstring → Prop.
Variable names : list jsstring.
Variable default : jsstring.
Hypothesis P_default : P [default].

Lemma processResults_values results position (m : ResultMap) :
  (∀ cs, cs ∈ omap categoriesArrayOf results →
         validCategories config names cs ≠ [] →
         P (validCategories config names cs)) →
  map_Forall (λ _, P) m →
  map_Forall (λ _, P)
    (completionMap (processResults config names default results position m)).
Proof.
  revert position m.
  induction results as [|result rest IH]; intros position m Hv Hm; [done|].
  assert (Hrest : ∀ cs, cs ∈ omap categoriesArrayOf rest →
            validCategories config names cs ≠ [] →
            P (validCategories config names cs)).
  { intros cs Hcs. apply Hv. simpl.
    destruct (categoriesArrayOf result); [by right|done]. }
  destruct result as [| | | | |members]; simpl; auto.
  destruct (getMember (js "id") members ≫= keyOf position) as [key|]; auto.
  destruct (getMember (js "categories") members) as [[| | | |cs|]|] eqn:Hc; auto.
  apply IH, map_Forall_insert_2; [done| |done].
  destruct (validCategories config names cs) eqn:E; [done|].
  rewrite <- E. apply Hv; [|by rewrite E].
  simpl. rewrite Hc. by left.
Qed.

Lemma fillDefaults_values repos (m : ResultMap) :
  map_Forall (λ _, P) m → map_Forall (λ _, P) (fillDefaults default repos m).
Proof.
  revert m. induction repos as [|repo rest IH]; intros m Hm; [done|].
  simpl. apply IH. destruct (m !! KeyStr (id repo)); [done|].
  by apply map_Forall_insert_2.
Qed.

Lemma fallbackLoop_values matches (m : ResultMap) :
  (∀ str, str ∈ map snd matches →
          fallbackCategories config names str ≠ [] →
          P (fallbackCategories config names str)) →
  map_Forall (λ _, P) m →
  map_Forall (λ _, P) (fallbackLoop config names matches m).
Proof.
  revert m. induction matches as [|[ident str] rest IH]; intros m Hf Hm; [done|].
  simpl. apply IH.
  { intros s Hs. apply Hf. by right. }
  destruct (fallbackCategories config names str) eqn:E; [done|].
  destruct (m !! KeyStr ident); [done|].
  apply map_Forall_insert_2; [|done].
  rewrite <- E. apply Hf; [by left|by rewrite E].
Qed.

End Values.

Lemma fillDefaults_covers default repos (m : ResultMap) :
  Forall (λ repo, is_Some (fillDefaults default repos m !! KeyStr (id repo))) repos.
Proof.
  assert (Hkeep : ∀ repos (m : ResultMap) k,
             is_Some (m !! k) → is_Some (fillDefaults default repos m !! k)).
  { clear. induction repos as [|repo rest IH]; intros m k Hk; [done|].
    simpl. apply IH. destruct (m !! KeyStr (id repo)); [done|].
    destruct (decide (KeyStr (id repo) = k)) as [->|Hne].
    - rewrite lookup_insert_eq. eauto.
    - by rewrite lookup_insert_ne. }
  revert m. induction repos as [|repo rest IH]; intros m; [constructor|].
  constructor; [|apply IH].
  simpl. apply Hkeep. destruct (m !! KeyStr (id repo)) eqn:E.
  - rewrite E. eauto.
  - rewrite lookup_insert_eq. eauto.
Qed.

Lemma tryBlock_values (P : list jsstring → Prop) jsonStr repos categories :
  P [defaultCategory categories] →
  (∀ cs, cs ∈ categoryArrays jsonStr →
         validCategories config (validCategoryNames categories) cs ≠ [] →
         P (validCategories config (validCategoryNames categories) cs)) →
  map_Forall (λ _, P) (completionMap (tryBlock config jsonStr repos categories)).
Proof.
  intros Hd Hv. unfold tryBlock. unfold categoryArrays in Hv.
  destruct (JSON_parse jsonStr) as [parsed ?| |]; try apply map_Forall_empty.
  destruct (resultsOf parsed) as [results|]; [|apply map_Forall_empty].
  pose proof (processResults_values P _ _ Hd results 0%nat ∅ Hv
                (map_Forall_empty _)) as H.
  destruct (processResults _ _ _ _ _ _); simpl in *; [|done].
  by apply fillDefaults_values.
Qed.

Lemma parseFrom_values (P : list jsstring → Prop) jsonStr text repos categories :
  P [defaultCategory categories] →
  (∀ cs, cs ∈ categoryArrays jsonStr →
         validCategories config (validCategoryNames categories) cs ≠ [] →
         P (validCategories config (validCategoryNames categories) cs)) →
  (∀ str, str ∈ captures text →
          fallbackCategories config (validCategoryNames categories) str ≠ [] →
          P (fallbackCategories config (validCategoryNames categories) str)) →
  map_Forall (λ _, P) (parseFrom config jsonStr text repos categories).
Proof.
  intros Hd Hv Hf. unfold parseFrom.
  pose proof (tryBlock_values P jsonStr repos categories Hd Hv) as H.
  destruct (tryBlock config jsonStr repos categories); simpl in H; [done|].
  unfold catchBlock. apply fillDefaults_values; [done|].
  by apply fallbackLoop_values.
Qed.

Lemma parseFrom_covers jsonStr text repos categories :
  Forall (λ repo, is_Some (parseFrom config jsonStr text repos categories
                             !! KeyStr (id repo))) repos.
Proof.
  unfold parseFrom, tryBlock.
  destruct (JSON_parse jsonStr) as [parsed ?| |];
    try apply fillDefaults_covers.
  destruct (resultsOf parsed) as [results|]; [|apply fillDefaults_covers].
  destruct (processResults _ _ _ _ _ _); apply fillDefaults_covers.
Qed.

End ParserFacts.

(** C1. Whatever the response text (empty, malformed, truncated), the map
    returned by [parseBatchClassifierResponse] has an entry for the id of
    every target of the batch, and the category list of that entry is not
    empty; being a map, it holds one list per id. *)
Theorem parseBatchClassifierResponse_total_coverage
    (config : Config) (text : jsstring) (repos : list BatchRepoInfo)
    (categories : list Category) :
  Forall (λ repo,
            ∃ cats, parseBatchClassifierResponse config text repos categories
                      !! KeyStr (id repo) = Some cats
                    ∧ cats ≠ [])
         repos.
Proof.
  unfold parseBatchClassifierResponse.
  pose proof (parseFrom_covers config (jsonText text) text repos categories)
    as Hcov.
  pose proof (parseFrom_values config (λ v, v ≠ []) (jsonText text) text
                repos categories) as Hval.
  eapply Forall_impl; [exact Hcov|].
  intros repo [cats Hcats]. exists cats. split; [done|].
  eapply (Hval ltac:(done) ltac:(done) ltac:(done)), Hcats.
Qed.

(** ** The validated lists *)

Section Validation.

Variable config : Config.
Variable names : list jsstring.

Lemma validCategories_filter (cs : list json) :
  validCategories config names cs =
  sliceTo (filter (λ c, c ∈ names) (stringsOf cs)) (maxCategoriesPerRepo config).
Proof.
  unfold validCategories, stringsOf. f_equal. unfold omap.
  induction cs as [|c cs IH]; [done|].
  destruct c as [| | |s| |]; simpl; try exact IH.
  rewrite filter_cons. destruct (decide (s ∈ names)); simpl; by rewrite IH.
Qed.

Lemma validCategories_valid (cs : list json) :
  Forall (λ c, c ∈ names) (validCategories config names cs).
Proof.
  rewrite validCategories_filter. apply sliceTo_Forall.
  apply Forall_forall. intros c Hc. by apply list_elem_of_filter in Hc as [? _].
Qed.

Lemma fallbackCategories_valid (str : jsstring) :
  Forall (λ c, c ∈ names) (fallbackCategories config names str).
Proof.
  unfold fallbackCategories. apply sliceTo_Forall.
  apply Forall_forall. intros c Hc. by apply list_elem_of_filter in Hc as [? _].
Qed.

End Validation.

(** C9. With an empty category set the parser raises nothing: it returns
    a map in which the id of every target of the batch is bound to the one
    name Lang: ETC, which is not a name of the (empty) supplied set. *)
Theorem parseBatchClassifierResponse_empty_category_set
    (config : Config) (text : jsstring) (repos : list BatchRepoInfo) :
  Forall (λ repo,
            parseBatchClassifierResponse config text repos []
              !! KeyStr (id repo) = Some [js "Lang: ETC"])
         repos
  ∧ js "Lang: ETC" ∉ validCategoryNames [].
Proof.
  split; [|apply not_elem_of_nil].
  unfold parseBatchClassifierResponse.
  pose proof (parseFrom_covers config (jsonText text) text repos []) as Hcov.
  pose proof (parseFrom_values config (λ v, v = [js "Lang: ETC"])
                (jsonText text) text repos []) as Hval.
  eapply Forall_impl; [exact Hcov|].
  intros repo [cats Hcats]. rewrite Hcats. f_equal.
  eapply Hval, Hcats; [done| |].
  - intros cs _ Hne. exfalso. apply Hne. change (validCategoryNames []) with (@nil jsstring).
    pose proof (validCategories_valid config [] cs) as H.
    destruct (validCategories config [] cs) as [|c ?]; [done|].
    apply Forall_cons in H as [H _]. by apply elem_of_nil in H.
  - intros str _ Hne. exfalso. apply Hne. change (validCategoryNames []) with (@nil jsstring).
    pose proof (fallbackCategories_valid config [] str) as H. destruct (fallbackCategories config [] str) as [|c ?]; [done|].
    apply Forall_cons in H as [H _]. by apply elem_of_nil in H.
Qed.

(** ** The bounds of the validator *)

Section Bounds.

Variable config : Config.
Variable categories : list Category.
Variable text : jsstring.
Hypothesis limit_positive : (1 ≤ maxCategoriesPerRepo config)%Z.

Let names := validCategoryNames categories.
Let limit := maxCategoriesPerRepo config.

Lemma taken_within_limit (l : list jsstring) :
  sliceTo l limit ≠ [] →
  (1 ≤ Z.of_nat (length (sliceTo l limit)) ≤ limit)%Z.
Proof.
  intros Hne. split; [|apply sliceTo_length; subst limit; lia].
  destruct (sliceTo l limit); [done|]. simpl. lia.
Qed.

Lemma validCategories_Validated (cs : list json) :
  cs ∈ categoryArrays (jsonText text) →
  validCategories config names cs ≠ [] →
  Validated config categories text (validCategories config names cs).
Proof.
  intros Hcs Hne. split; [|split].
  - rewrite validCategories_filter in *. by apply taken_within_limit.
  - apply validCategories_valid.
  - right. left. exists cs. split; [done|].
    rewrite validCategories_filter. apply sliceTo_nonneg. subst limit. lia.
Qed.

Lemma fallbackCategories_Validated (str : jsstring) :
  str ∈ captures text →
  fallbackCategories config names str ≠ [] →
  Validated config categories text (fallbackCategories config names str).
Proof.
  intros Hstr Hne. split; [|split].
  - by apply taken_within_limit.
  - apply fallbackCategories_valid.
  - right. right. exists str. split; [done|].
    apply sliceTo_nonneg. subst limit. lia.
Qed.

End Bounds.

(** C2, as the code has it. For a category set whose first category has a
    name that is not the empty string, and [maxCategoriesPerRepo] at least
    1, every category list of the returned map has between 1 and
    [maxCategoriesPerRepo] entries, every entry is the name of a category
    of the set, and the list is either the default alone or the first
    valid names of an array (or of a capture) of the response, in the
    order of the response. *)
Theorem parseBatchClassifierResponse_validated
    (config : Config) (text : jsstring) (repos : list BatchRepoInfo)
    (first : Category) (others : list Category) :
  name first ≠ [] →
  (1 ≤ maxCategoriesPerRepo config)%Z →
  map_Forall (λ _, Validated config (first :: others) text)
    (parseBatchClassifierResponse config text repos (first :: others)).
Proof.
  intros Hname Hlimit. unfold parseBatchClassifierResponse.
  assert (Hdefault : defaultCategory (first :: others) = name first).
  { simpl. by destruct (name first). }
  apply parseFrom_values.
  - split; [simpl; lia|]. split; [|by left].
    rewrite Hdefault. repeat constructor.
  - intros cs. by apply validCategories_Validated.
  - intros str. by apply fallbackCategories_Validated.
Qed.

Lemma parseBatchClassifierResponse_validated_witness :
  map_Forall (λ _, Validated Scenario.config Scenario.categories (Scenario.truncated 170))
    (parseBatchClassifierResponse Scenario.config (Scenario.truncated 170)
       Scenario.batch Scenario.categories).
Proof.
  apply (parseBatchClassifierResponse_validated Scenario.config
           (Scenario.truncated 170) Scenario.batch
           (Scenario.category "AI: LLM")
           [Scenario.category "Web: Frontend"; Scenario.category "Dev: Tools"]).
  - discriminate.
  - simpl. lia.
Defined.

(** C2 as it is written fails: a set whose first category is named by the
    empty string is not empty, yet the default is then the fixed name
    Lang: ETC, which the set does not hold. *)
Lemma closed_set_membership_counterexample :
  ¬ (∀ (config : Config) (text : jsstring) (repos : list BatchRepoInfo)
       (categories : list Category),
       categories ≠ [] →
       (1 ≤ maxCategoriesPerRepo config)%Z →
       map_Forall (λ _, Validated config categories text)
         (parseBatchClassifierResponse config text repos categories)).
Proof.
  intros H.
  specialize (H Scenario.config [] [Scenario.target "octo/alpha"]
                [Scenario.category ""] ltac:(discriminate) ltac:(simpl; lia)).
  specialize (H (KeyStr (js "octo/alpha")) [js "Lang: ETC"] ltac:(by vm_compute)).
  destruct H as (_ & Hmem & _).
  apply Forall_cons in Hmem as [Hmem _].
  vm_compute in Hmem. apply list_elem_of_In in Hmem. simpl in Hmem.
  destruct Hmem as [Hmem|[]]. discriminate Hmem.
Qed.


(** On each of these cuts the repaired text is not valid JSON: the missing
    delimiters are counted before the open fragment is removed, so one
    bracket and one brace too many are appended, and the entries come from
    the matches of [linePattern]. *)
Lemma truncated_third_entry_repair_rejected :
  Forall (λ n, JSON_parse (jsonText (Scenario.truncated n)) = SyntaxError)
         Scenario.cutsInThirdArray.
Proof.
  apply Forall_forall. intros n Hn.
  apply list_elem_of_In in Hn.
  repeat (destruct Hn as [<-|Hn]; [vm_compute; reflexivity|]).
  destruct Hn.
Qed.

(** ** The well-formed path *)

Section WellFormedPath.

Variable config : Config.
Variable categories : list Category.

Let names := validCategoryNames categories.
Let default := defaultCategory categories.






End WellFormedPath.



(** ** What [JSON.parse] consumes *)

Lemma skipWs_suffix s : skipWs s `suffix_of` s.
Proof.
  induction s as [|c r IH]; simpl; [done|].
  destruct (isJsonWs c); [by apply suffix_cons_r|done].
Qed.

Lemma spanDigits_suffix s ds rest : spanDigits s = (ds, rest) → rest `suffix_of` s.
Proof.
  revert ds rest. induction s as [|c r IH]; intros ds rest H; simpl in H.
  - by injection H as <- <-.
  - destruct (isDigit c).
    + destruct (spanDigits r) as [ds' rest'] eqn:E. injection H as <- <-.
      apply suffix_cons_r. by eapply IH.
    + by injection H as <- <-.
Qed.

Lemma stripPrefix_suffix p s rest : stripPrefix p s = Some rest → rest `suffix_of` s.
Proof.
  revert s. induction p as [|c p IH]; intros s H; simpl in H.
  - by injection H as <-.
  - destruct s as [|d s]; [done|]. destruct (c =? d); [|done].
    apply suffix_cons_r. by apply IH.
Qed.

Lemma parseStringBody_suffix s acc v rest :
  parseStringBody s acc = Parsed v rest → rest `suffix_of` s.
Proof.
  remember (length s) as n eqn:Hn. revert s acc Hn.
  induction (lt_wf n) as [n _ IH]. intros s acc -> H.
  destruct s as [|c r]; [done|]. simpl in H.
  repeat (case_match; try done; simplify_eq);
    try (by apply suffix_cons_r);
    match goal with
    | H : parseStringBody ?l _ = Parsed _ _ |- _ =>
        assert (rest `suffix_of` l)
          by (eapply (IH (length l)); [simpl; lia|reflexivity|exact H])
    end;
    by repeat apply suffix_cons_r.
Qed.

Lemma spanDigits_app s ds rest : spanDigits s = (ds, rest) → s = ds ++ rest.
Proof.
  revert ds rest. induction s as [|c r IH]; intros ds rest H; simpl in H.
  - by injection H as <- <-.
  - destruct (isDigit c).
    + destruct (spanDigits r) as [ds' rest'] eqn:E. injection H as <- <-.
      simpl. f_equal. by apply IH.
    + by injection H as <- <-.
Qed.

Ltac solve_suffix :=
  repeat first [ done | apply suffix_nil | apply suffix_cons_r | apply suffix_app_r ].

Lemma parseNumber_suffix s v rest :
  parseNumber s = Parsed v rest → rest `suffix_of` s.
Proof.
  unfold parseNumber. intros H.
  repeat (case_match; try done; simplify_eq);
  repeat match goal with
         | E : spanDigits _ = _ |- _ => apply spanDigits_app in E
         end; simpl in *; simplify_eq; simpl.
  all: solve_suffix.
Qed.

Lemma parseLiteral_suffix w v0 s v rest :
  parseLiteral w v0 s = Parsed v rest → rest `suffix_of` s ∧ v = v0.
Proof.
  unfold parseLiteral. destruct (stripPrefix (js w) s) eqn:E; [|done].
  intros [= <- <-]. split; [by eapply stripPrefix_suffix|done].
Qed.

Lemma parse_suffix fuel :
  (∀ s v rest, parseValue fuel s = Parsed v rest →
     rest `suffix_of` s ∧ (isObject v = true → (rbrace :: rest) `suffix_of` s))
  ∧ (∀ s acc v rest, parseElements fuel s acc = Parsed v rest →
       rest `suffix_of` s ∧ isObject v = false)
  ∧ (∀ s acc v rest, parseMembers fuel s acc = Parsed v rest →
       (rbrace :: rest) `suffix_of` s).
Proof.
  induction fuel as [|fuel (IHv & IHe & IHm)]; [by repeat split|].
  assert (Hws : ∀ s c r, skipWs s = c :: r → (c :: r) `suffix_of` s).
  { intros s c r <-. apply skipWs_suffix. }
  split; [|split].
  - intros s v rest H. simpl in H.
    destruct s as [|c r]; [done|].
    destruct (c =? lbrace) eqn:Ec.
    { destruct (skipWs r) as [|d r1] eqn:Er; [done|].
      apply Hws in Er.
      destruct (d =? rbrace) eqn:Ed.
      - apply N.eqb_eq in Ed as ->. injection H as <- <-.
        split; [|intros _; by apply suffix_cons_r].
        apply suffix_cons_r. etrans; [|exact Er]. by apply suffix_cons_r.
      - apply IHm in H.
        assert ((rbrace :: rest) `suffix_of` (c :: r)).
        { apply suffix_cons_r. by etrans. }
        split; [|done]. etrans; [|done]. by apply suffix_cons_r. }
    destruct (c =? lbracket) eqn:Eb.
    { destruct (skipWs r) as [|d r1] eqn:Er; [done|].
      apply Hws in Er.
      destruct (d =? rbracket) eqn:Ed.
      - injection H as <- <-. split; [|done].
        apply suffix_cons_r. etrans; [|exact Er]. by apply suffix_cons_r.
      - apply IHe in H as [H Hv]. split; [|by rewrite Hv].
        apply suffix_cons_r. by etrans. }
    destruct (c =? quote).
    { destruct (parseStringBody r []) eqn:Es; try done.
      injection H as <- <-. apply parseStringBody_suffix in Es.
      split; [by apply suffix_cons_r|done]. }
    destruct (c =? 116).
    { apply parseLiteral_suffix in H as [H ->]. by split. }
    destruct (c =? 102).
    { apply parseLiteral_suffix in H as [H ->]. by split. }
    destruct (c =? 110).
    { apply parseLiteral_suffix in H as [H ->]. by split. }
    destruct (parseNumber (c :: r)) eqn:En; try done.
    injection H as <- <-. apply parseNumber_suffix in En. by split.
  - intros s acc v rest H. simpl in H.
    destruct (parseValue fuel s) as [v0 rest0| |] eqn:Ev; try done.
    apply IHv in Ev as [Ev _].
    destruct (skipWs rest0) as [|d r1] eqn:Er; [done|]. apply Hws in Er.
    assert (r1 `suffix_of` s).
    { etrans; [|exact Ev]. etrans; [|exact Er]. by apply suffix_cons_r. }
    destruct (d =? comma).
    + apply IHe in H as [H Hv]. split; [|done].
      etrans; [exact H|]. etrans; [apply skipWs_suffix|done].
    + destruct (d =? rbracket); [|done]. by injection H as <- <-.
  - intros s acc v rest H. simpl in H.
    destruct s as [|q r]; [done|].
    destruct (q =? quote); [|done].
    destruct (parseStringBody r []) as [k rest0| |] eqn:Es; try done.
    apply parseStringBody_suffix in Es.
    destruct (skipWs rest0) as [|d r1] eqn:Er; [done|]. apply Hws in Er.
    destruct (d =? colon); [|done].
    destruct (parseValue fuel (skipWs r1)) as [v0 rest1| |] eqn:Ev; try done.
    apply IHv in Ev as [Ev _].
    destruct (skipWs rest1) as [|e r2] eqn:Er2; [done|]. apply Hws in Er2.
    assert (Hchain : (e :: r2) `suffix_of` (q :: r)).
    { apply suffix_cons_r. etrans; [exact Er2|]. etrans; [exact Ev|].
      etrans; [apply skipWs_suffix|]. etrans; [|exact Es].
      etrans; [|exact Er]. by apply suffix_cons_r. }
    destruct (e =? comma).
    + apply IHm in H. etrans; [exact H|]. etrans; [apply skipWs_suffix|].
      etrans; [|exact Hchain]. by apply suffix_cons_r.
    + destruct (e =? rbrace) eqn:Ee; [|done].
      apply N.eqb_eq in Ee as ->. by injection H as <- <-.
Qed.


(** ** The repair step on a text that needs none *)

Lemma isJsonWs_isWhiteSpace c : isJsonWs c = true → isWhiteSpace c = true.
Proof.
  unfold isJsonWs, isWhiteSpace.
  destruct (c =? 9), (c =? 10), (c =? 11), (c =? 12), (c =? 13), (c =? 32);
    simpl; done.
Qed.

Lemma trimStart_head s c r : trimStart s = c :: r → isWhiteSpace c = false.
Proof.
  induction s as [|d s IH]; simpl; [done|].
  destruct (isWhiteSpace d) eqn:E; [done|]. by intros [= <- _].
Qed.

Lemma trim_last text pre c : trim text = pre ++ [c] → isWhiteSpace c = false.
Proof.
  unfold trim, trimEnd. intros H.
  apply (f_equal (@rev N)) in H. rewrite rev_involutive, rev_app_distr in H.
  simpl in H. by eapply trimStart_head.
Qed.

Lemma skipWs_nil s : skipWs s = [] → Forall (λ c, isJsonWs c = true) s.
Proof.
  induction s as [|c r IH]; simpl; [constructor|].
  destruct (isJsonWs c) eqn:E; [|done]. intros H. constructor; auto.
Qed.

Lemma JSON_parse_object_end t v rest :
  JSON_parse t = Parsed v rest → isObject v = true →
  ∃ pre ws, t = pre ++ rbrace :: ws ∧ Forall (λ c, isJsonWs c = true) ws.
Proof.
  unfold JSON_parse. intros H Hobj.
  destruct (parseValue _ _) as [v0 rest0| |] eqn:Ev; try done.
  destruct (skipWs rest0) eqn:Er; [|done]. injection H as <- <-.
  apply skipWs_nil in Er.
  apply parse_suffix in Ev as [_ Ev]. specialize (Ev Hobj).
  assert (Hs : (rbrace :: rest0) `suffix_of` t)
    by (etrans; [exact Ev|apply skipWs_suffix]).
  destruct Hs as [pre ->]. by exists pre, rest0.
Qed.

Lemma endsWithChar_snoc pre c : endsWithChar (pre ++ [c]) c = true.
Proof. unfold endsWithChar. rewrite rev_app_distr. simpl. apply N.eqb_refl. Qed.

Lemma endsWithChar_inv s c :
  endsWithChar s c = true → ∃ pre, s = pre ++ [c].
Proof.
  unfold endsWithChar. destruct (rev s) as [|d r] eqn:E; [done|].
  intros ->%N.eqb_eq. exists (rev r).
  apply (f_equal (@rev N)) in E. rewrite rev_involutive in E. by rewrite E.
Qed.

(** The trimmed text of a well-formed response ends with the closing
    brace of its object. *)
Lemma WellFormedResponse_ends_with_brace text :
  WellFormedResponse text → endsWithChar (trim text) rbrace = true.
Proof.
  intros (parsed & rest & results & Hparse & Hresults).
  assert (Hobj : isObject parsed = true) by (by destruct parsed).
  destruct (JSON_parse_object_end _ _ _ Hparse Hobj) as (pre & ws & Ht & Hws).
  destruct (rev ws) as [|c sw] eqn:E.
  - apply (f_equal (@rev N)) in E. rewrite rev_involutive in E. simpl in E.
    subst ws. rewrite Ht. apply endsWithChar_snoc.
  - apply (f_equal (@rev N)) in E. rewrite rev_involutive in E. simpl in E.
    subst ws. apply Forall_app in Hws as [_ Hc].
    apply Forall_cons in Hc as [Hc _]. apply isJsonWs_isWhiteSpace in Hc.
    rewrite (trim_last text (pre ++ rbrace :: rev sw) c) in Hc; [done|].
    rewrite Ht. by rewrite <- app_assoc.
Qed.

Lemma lastIndexOfFrom_snoc c pre i found :
  lastIndexOfFrom c (pre ++ [c]) i found = (i + Z.of_nat (length pre))%Z.
Proof.
  revert i found. induction pre as [|d pre IH]; intros i found; simpl.
  - rewrite N.eqb_refl. lia.
  - rewrite IH. lia.
Qed.

Lemma sliceFrom_past_end (pre : list char16) (c : char16) :
  sliceFrom (pre ++ [c]) (0 + Z.of_nat (length pre) + 1) = [].
Proof. unfold sliceFrom. apply drop_ge. rewrite length_app. simpl. lia. Qed.

Lemma repairTruncated_identity t :
  endsWithChar t rbrace = true → NoExcessOpening t → repairTruncated t = t.
Proof.
  intros [pre ->]%endsWithChar_inv [Hbraces Hbrackets].
  unfold repairTruncated, lastIndexOfChar. cbv zeta.
  rewrite lastIndexOfFrom_snoc, sliceFrom_past_end. simpl.
  rewrite 2!Z.max_l by lia. unfold repeatChar. simpl.
  rewrite !app_nil_r. by destruct (_ <? _)%Z.
Qed.

(** C7, as the code has it. For a well-formed response in which neither
    opening braces outnumber closing braces nor opening brackets closing
    brackets, the repair step returns the trimmed text as it is, so forcing
    the text through it gives the outcome map of the direct parse, which is
    the map the function returns. *)
Theorem forced_repair_is_identity_without_excess_opening
    (config : Config) (text : jsstring) (repos : list BatchRepoInfo)
    (categories : list Category) :
  WellFormedResponse text →
  NoExcessOpening (trim text) →
  repairTruncated (trim text) = trim text
  ∧ parseForcedRepair config text repos categories
    = parseDirect config text repos categories
  ∧ parseBatchClassifierResponse config text repos categories
    = parseDirect config text repos categories.
Proof.
  intros Hwf Hbal.
  pose proof (WellFormedResponse_ends_with_brace text Hwf) as Hend.
  pose proof (repairTruncated_identity (trim text) Hend Hbal) as Hid.
  unfold parseForcedRepair, parseDirect, parseBatchClassifierResponse, jsonText.
  rewrite Hid, Hend. done.
Qed.

Lemma forced_repair_is_identity_witness :
  repairTruncated (trim Scenario.response) = trim Scenario.response
  ∧ parseForcedRepair Scenario.config Scenario.response Scenario.batch
      Scenario.categories
    = parseDirect Scenario.config Scenario.response Scenario.batch
        Scenario.categories
  ∧ parseBatchClassifierResponse Scenario.config Scenario.response
      Scenario.batch Scenario.categories
    = parseDirect Scenario.config Scenario.response Scenario.batch
        Scenario.categories.
Proof.
  apply (forced_repair_is_identity_without_excess_opening Scenario.config
           Scenario.response Scenario.batch Scenario.categories).
  - unfold WellFormedResponse.
    destruct (JSON_parse (trim Scenario.response)) as [parsed rest| |] eqn:E;
      [|vm_compute in E; discriminate E..].
    destruct (resultsOf parsed) as [results|] eqn:R.
    + by exists parsed, rest, results.
    + vm_compute in E. injection E as <- <-. vm_compute in R. discriminate R.
  - split; vm_compute; discriminate.
Defined.

(** C7 as it is written fails: the repair step counts delimiters inside
    string literals too. The well-formed response [Scenario.oddResponse]
    holds one opening brace more than closing ones, the forced repair
    appends a brace, the text no longer parses, and the first target falls
    from its category to the default. *)
Lemma forced_repair_counterexample :
  ¬ (∀ (config : Config) (text : jsstring) (repos : list BatchRepoInfo)
       (categories : list Category),
       WellFormedResponse text →
       parseForcedRepair config text repos categories
       = parseDirect config text repos categories).
Proof.
  intros H.
  specialize (H Scenario.config Scenario.oddResponse Scenario.batch
                Scenario.categories).
  assert (Hwf : WellFormedResponse Scenario.oddResponse).
  { unfold WellFormedResponse.
    destruct (JSON_parse (trim Scenario.oddResponse)) as [parsed rest| |] eqn:E;
      [|vm_compute in E; discriminate E..].
    destruct (resultsOf parsed) as [results|] eqn:R.
    + by exists parsed, rest, results.
    + vm_compute in E. injection E as <- <-. vm_compute in R. discriminate R. }
  apply H in Hwf.
  apply (f_equal (λ m : ResultMap, m !! KeyStr (js "octo/alpha"))) in Hwf.
  vm_compute in Hwf. discriminate Hwf.
Qed.

(** ** [retryWithBackoff] *)

Section RetryFacts.

Context {T : Type}.
Variable errors : nat → Thrown.
Variables maxRetries initialDelayMs maxDelayMs : Z.

Lemma attempts_step (fn : nat → Outcome T) (remaining : nat) (attempt : Z)
    (lastError : option Thrown) (calls : nat) (observed : list Observed)
    (error : Thrown) :
  fn calls = Rejected error →
  run (scripted fn)
      (attempts maxRetries initialDelayMs maxDelayMs (S remaining) attempt lastError)
      (calls, observed)
  = run (scripted fn)
      (attempts maxRetries initialDelayMs maxDelayMs remaining (attempt + 1)
         (Some (toError error)))
      (S calls,
       observed ++ Invoked ::
         (if (attempt <? maxRetries)%Z
          then [Waited (Z.min (initialDelayMs * 2 ^ attempt) maxDelayMs)]
          else [])).
Proof.
  intros Hfn. cbn [attempts run scripted fst snd]. rewrite Hfn.
  destruct (attempt <? maxRetries)%Z; cbn [run scripted fst snd];
    by rewrite <- ?app_assoc.
Qed.

Lemma attempts_alwaysFailing (retries : nat) (attempt : Z) (lastError : option Thrown)
    (calls : nat) (observed : list Observed) :
  (attempt + Z.of_nat retries = maxRetries)%Z →
  run (scripted (alwaysFailing (T:=T) errors))
      (attempts maxRetries initialDelayMs maxDelayMs (S retries) attempt lastError)
      (calls, observed)
  = (Rejected (toError (errors (calls + retries)%nat)),
     (S (calls + retries),
      observed ++ backoffSchedule initialDelayMs maxDelayMs attempt retries)).
Proof.
  revert attempt lastError calls observed.
  induction retries as [|retries IH]; intros attempt lastError calls observed Hsum;
    rewrite (attempts_step _ _ _ _ _ _ (errors calls)) by done.
  - destruct (Z.ltb_spec attempt maxRetries); [lia|].
    simpl. by rewrite Nat.add_0_r.
  - destruct (Z.ltb_spec attempt maxRetries); [|lia].
    rewrite IH by lia. cbn [backoffSchedule].
    rewrite <- !app_assoc.
    by replace (S calls + retries)%nat with (calls + S retries)%nat by lia.
Qed.

Lemma invocations_backoffSchedule attempt retries :
  invocations (backoffSchedule initialDelayMs maxDelayMs attempt retries)
  = S retries.
Proof.
  revert attempt. induction retries as [|r IH]; intros attempt; [done|].
  simpl. by rewrite IH.
Qed.

Lemma delaysOf_backoffSchedule attempt retries :
  delaysOf (backoffSchedule initialDelayMs maxDelayMs attempt retries)
  = map (λ k, Z.min (initialDelayMs * 2 ^ (attempt + Z.of_nat k)) maxDelayMs)
        (seq 0 retries).
Proof.
  revert attempt. induction retries as [|r IH]; intros attempt; [done|].
  cbn [backoffSchedule delaysOf seq map]. rewrite Z.add_0_r. f_equal.
  rewrite IH, <- seq_shift, map_map. apply map_ext. intros k.
  do 3 f_equal. lia.
Qed.

End RetryFacts.

(** C3, as the code has it. For [maxRetries] at least 0 and an operation
    that fails on every attempt, [retryWithBackoff] calls the operation
    exactly [maxRetries + 1] times, waits
    [min(initialDelayMs * 2^attempt, maxDelayMs)] after failed attempt
    number [attempt] = 0, 1, ..., [maxRetries - 1] and not after the last,
    and is then rejected with the reason of the last attempt if that is an
    instance of [Error], and otherwise with a new [Error] whose message is
    the text of that reason. *)
Theorem retryWithBackoff_always_failing {T : Type} (errors : nat → Thrown)
    (options : RetryOptions) :
  let retries := default 3%Z (maxRetries options) in
  let initial := default 500%Z (initialDelayMs options) in
  let cap := default 5000%Z (maxDelayMs options) in
  (0 ≤ retries)%Z →
  retryRun (alwaysFailing (T:=T) errors) options
  = (Rejected (toError (errors (Z.to_nat retries))),
     backoffSchedule initial cap 0 (Z.to_nat retries))
  ∧ Z.of_nat (invocations (retryRun (alwaysFailing (T:=T) errors) options).2)
    = (retries + 1)%Z
  ∧ delaysOf (retryRun (alwaysFailing (T:=T) errors) options).2
    = map (λ attempt, Z.min (initial * 2 ^ Z.of_nat attempt) cap)
          (seq 0 (Z.to_nat retries)).
Proof.
  intros retries initial cap Hretries.
  assert (Hrun : retryRun (alwaysFailing (T:=T) errors) options
                 = (Rejected (toError (errors (Z.to_nat retries))),
                    backoffSchedule initial cap 0 (Z.to_nat retries))).
  { unfold retryRun, retryWithBackoff. fold retries initial cap.
    replace (Z.to_nat (retries + 1)) with (S (Z.to_nat retries)) by lia.
    by rewrite attempts_alwaysFailing by lia. }
  rewrite Hrun. split; [done|]. split; simpl.
  - rewrite invocations_backoffSchedule. lia.
  - by rewrite delaysOf_backoffSchedule.
Qed.

Lemma retryWithBackoff_always_failing_witness :
  retryRun (alwaysFailing (T:=unit) (λ k, ErrorInstance (js "rate limited")))
    {| maxRetries := Some 3%Z; initialDelayMs := Some 500%Z; maxDelayMs := None |}
  = (Rejected (ErrorInstance (js "rate limited")),
     [Invoked; Waited 500; Invoked; Waited 1000; Invoked; Waited 2000; Invoked]).
Proof.
  pose proof (retryWithBackoff_always_failing (T:=unit)
                (λ k, ErrorInstance (js "rate limited"))
                {| maxRetries := Some 3%Z; initialDelayMs := Some 500%Z;
                   maxDelayMs := None |}) as H.
  cbv zeta in H. specialize (H ltac:(simpl; lia)).
  destruct H as [H _]. exact H.
Defined.

(** C3 as it is written fails: an operation may reject with a value that
    is not an [Error]; what [retryWithBackoff] is rejected with is then
    not that value but a new [Error] made from it. *)
Lemma retryWithBackoff_last_error_counterexample :
  ¬ (∀ (errors : nat → Thrown) (options : RetryOptions),
       (0 ≤ default 3%Z (maxRetries options))%Z →
       (retryRun (alwaysFailing (T:=unit) errors) options).1
       = Rejected (errors (Z.to_nat (default 3%Z (maxRetries options))))).
Proof.
  intros H.
  specialize (H (λ _, NonError (js "boom"))
                {| maxRetries := Some 0%Z; initialDelayMs := None;
                   maxDelayMs := None |} ltac:(simpl; lia)).
  vm_compute in H. discriminate H.
Qed.

(** ** [runWithConcurrency] *)

Section AwaitingFacts.

Lemma awaitingFrom_lookup (ws : list Worker) n k w :
  awaitingFrom n ws !! k = Some w →
  (n ≤ w)%nat ∧ ∃ i, ws !! (w - n)%nat = Some (Awaiting i).
Proof.
  revert n k. induction ws as [|x ws IH]; intros n k Hk; [done|].
  simpl in Hk.
  assert (Htail : ∀ k', awaitingFrom (S n) ws !! k' = Some w →
            (n ≤ w)%nat ∧ ∃ i, (x :: ws) !! (w - n)%nat = Some (Awaiting i)).
  { intros k' Hk'. apply IH in Hk' as [Hle [i Hi]]. split; [lia|].
    exists i. replace (w - n)%nat with (S (w - S n)) by lia. done. }
  destruct x as [i| |]; simpl in Hk; eauto.
  destruct k as [|k]; simpl in Hk; eauto.
  injection Hk as <-. split; [lia|]. exists i. by rewrite Nat.sub_diag.
Qed.

Lemma awaitingFrom_nil (ws : list Worker) n :
  awaitingFrom n ws = [] → ∀ w i, ws !! w ≠ Some (Awaiting i).
Proof.
  revert n. induction ws as [|x ws IH]; intros n Hnil w i; [done|].
  simpl in Hnil. destruct x as [j| |]; simpl in Hnil; try done;
    (destruct w as [|w]; simpl; [done|by eapply IH]).
Qed.

Lemma awaitingFrom_insert (ws : list Worker) n w i x :
  ws !! w = Some (Awaiting i) →
  (length (awaitingFrom n (<[w := x]> ws)) + 1
   = length (awaitingFrom n ws) + (if isAwaiting x then 1 else 0))%nat.
Proof.
  revert n w. induction ws as [|y ws IH]; intros n w Hw; [done|].
  destruct w as [|w]; simpl in Hw.
  - injection Hw as ->. simpl. destruct (isAwaiting x); simpl; lia.
  - simpl. specialize (IH (S n) w Hw).
    destruct (isAwaiting y); simpl; lia.
Qed.

Lemma awaitingFrom_snoc (ws : list Worker) n x :
  length (awaitingFrom n (ws ++ [x]))
  = (length (awaitingFrom n ws) + (if isAwaiting x then 1 else 0))%nat.
Proof.
  revert n. induction ws as [|y ws IH]; intros n; simpl.
  - by destruct (isAwaiting x).
  - destruct (isAwaiting y); simpl; by rewrite IH.
Qed.

End AwaitingFacts.

Section TotalProcessor.

Context {T R : Type}.
Variable items : list T.
Variable f : T → R.

Lemma settle_claims (p : Pool) w i item :
  workers p !! w = Some (Awaiting i) →
  items !! i = Some item →
  (currentIndex p < length items)%nat →
  settle items (fulfilling f) w p
  = {| currentIndex := S (currentIndex p);
       results := <[i := Some (f item)]> (results p);
       workers := <[w := Awaiting (currentIndex p)]> (workers p);
       invoked := invoked p ++ [currentIndex p];
       settled := settled p ++ [i];
       rejection := rejection p |}.
Proof.
  intros Hw Hitem Hlt. unfold settle, enterLoop, fulfilling.
  rewrite Hw, Hitem. simpl.
  by destruct (Nat.ltb_spec (currentIndex p) (length items)); [|lia].
Qed.

Lemma settle_leaves (p : Pool) w i item :
  workers p !! w = Some (Awaiting i) →
  items !! i = Some item →
  ¬ (currentIndex p < length items)%nat →
  settle items (fulfilling f) w p
  = {| currentIndex := currentIndex p;
       results := <[i := Some (f item)]> (results p);
       workers := <[w := Finished]> (workers p);
       invoked := invoked p;
       settled := settled p ++ [i];
       rejection := rejection p |}.
Proof.
  intros Hw Hitem Hlt. unfold settle, enterLoop, fulfilling.
  rewrite Hw, Hitem. simpl.
  by destruct (Nat.ltb_spec (currentIndex p) (length items)); [lia|].
Qed.

(** What the stored value and the new log keep of the invariant,
    whichever way the worker goes on. *)
Lemma stored_settled (p : Pool) w i item :
  PoolInvariant items f p →
  workers p !! w = Some (Awaiting i) →
  items !! i = Some item →
  NoDup (settled p ++ [i])
  ∧ (∀ j, j ∈ settled p ++ [i] →
          ∃ v, <[i := Some (f item)]> (results p) !! j = Some (Some v))
  ∧ (∀ j item', items !! j = Some item' → (j < currentIndex p)%nat →
       (∃ w', w' ≠ w ∧ workers p !! w' = Some (Awaiting j))
       ∨ (j ∈ settled p ++ [i]
          ∧ <[i := Some (f item)]> (results p) !! j = Some (Some (f item')))).
Proof.
  intros Hinv Hw Hitem.
  destruct (inv_claimed _ _ _ Hinv w i Hw) as [Hlt Hempty].
  assert (Hi : (i < length (results p))%nat)
    by (by apply lookup_lt_is_Some; eauto).
  assert (Hnew : i ∉ settled p).
  { intros Hin. apply (inv_settled _ _ _ Hinv) in Hin as [v Hv]. congruence. }
  split; [|split].
  - apply NoDup_app. split; [apply (inv_settled_NoDup _ _ _ Hinv)|].
    split; [|apply NoDup_singleton].
    intros j Hj ->%list_elem_of_singleton. done.
  - intros j [Hj| ->%list_elem_of_singleton]%elem_of_app.
    + rewrite list_lookup_insert_ne by (by intros ->).
      by apply (inv_settled _ _ _ Hinv).
    + rewrite list_lookup_insert_eq by done. eauto.
  - intros j item' Hj Hjlt.
    destruct (decide (j = i)) as [->|Hne].
    + right. split; [apply elem_of_app; right; by apply list_elem_of_singleton|].
      rewrite list_lookup_insert_eq by done. congruence.
    + destruct (inv_done _ _ _ Hinv j item' Hj Hjlt) as [[w' Hw']|[Hin Hres]].
      * left. exists w'. split; [|done]. intros ->. congruence.
      * right. split; [apply elem_of_app; by left|].
        by rewrite list_lookup_insert_ne.
Qed.

Lemma settle_invariant (p : Pool) w i :
  PoolInvariant items f p →
  workers p !! w = Some (Awaiting i) →
  PoolInvariant items f (settle items (fulfilling f) w p)
  ∧ (outstanding items (settle items (fulfilling f) w p) + 1
     = outstanding items p)%nat.
Proof.
  intros Hinv Hw.
  destruct (inv_claimed _ _ _ Hinv w i Hw) as [Hlt Hempty].
  pose proof (inv_index _ _ _ Hinv) as Hindex.
  destruct (lookup_lt_is_Some_2 items i ltac:(lia)) as [item Hitem].
  destruct (stored_settled p w i item Hinv Hw Hitem) as (Hnodup & Hfilled & Hdone).
  assert (Hwlen : (w < length (workers p))%nat)
    by (by apply lookup_lt_is_Some; eauto).
  destruct (decide (currentIndex p < length items)%nat) as [Hmore|Hlast].
  - rewrite (settle_claims p w i item) by done. split.
    + constructor; cbn [currentIndex results workers invoked settled rejection].
      * lia.
      * rewrite seq_S. by rewrite (inv_invoked _ _ _ Hinv).
      * rewrite length_insert. apply (inv_results _ _ _ Hinv).
      * apply (inv_rejection _ _ _ Hinv).
      * intros w' reason. destruct (decide (w' = w)) as [->|Hne].
        -- by rewrite list_lookup_insert_eq.
        -- rewrite list_lookup_insert_ne by done. apply (inv_no_crash _ _ _ Hinv).
      * intros w' j. destruct (decide (w' = w)) as [->|Hne].
        -- rewrite list_lookup_insert_eq by done. intros [= <-]. split; [lia|].
           rewrite list_lookup_insert_ne by lia.
           apply (inv_fresh _ _ _ Hinv). lia.
        -- rewrite list_lookup_insert_ne by done. intros Hw'.
           destruct (inv_claimed _ _ _ Hinv w' j Hw') as [Hj Hjres].
           split; [lia|]. rewrite list_lookup_insert_ne; [done|].
           intros <-. apply Hne. by eapply (inv_distinct _ _ _ Hinv).
      * intros w1 w2 j.
        destruct (decide (w1 = w)) as [->|Hne1];
          destruct (decide (w2 = w)) as [->|Hne2]; try done.
        -- rewrite list_lookup_insert_eq, list_lookup_insert_ne by done.
           intros [= <-] Hw2.
           apply (inv_claimed _ _ _ Hinv) in Hw2 as [Hw2 _]. lia.
        -- rewrite list_lookup_insert_ne, list_lookup_insert_eq by done.
           intros Hw1 [= <-].
           apply (inv_claimed _ _ _ Hinv) in Hw1 as [Hw1 _]. lia.
        -- rewrite !list_lookup_insert_ne by done.
           apply (inv_distinct _ _ _ Hinv).
      * intros j item' Hj Hjlt.
        destruct (decide (j = currentIndex p)) as [->|Hne].
        -- left. exists w. by rewrite list_lookup_insert_eq.
        -- destruct (Hdone j item' Hj ltac:(lia)) as [(w' & Hne' & Hw')|Hright];
             [|by right].
           left. exists w'. by rewrite list_lookup_insert_ne.
      * done.
      * done.
      * intros j Hj. rewrite list_lookup_insert_ne by lia.
        apply (inv_fresh _ _ _ Hinv). lia.
      * intros w'. destruct (decide (w' = w)) as [->|Hne].
        -- by rewrite list_lookup_insert_eq.
        -- rewrite list_lookup_insert_ne by done. intros Hfin.
           apply (inv_finished _ _ _ Hinv) in Hfin. lia.
    + unfold outstanding, awaiting. simpl.
      pose proof (awaitingFrom_insert (workers p) 0 w i
                    (Awaiting (currentIndex p)) Hw) as Hcount.
      simpl in Hcount. lia.
  - rewrite (settle_leaves p w i item) by done. split.
    + constructor; cbn [currentIndex results workers invoked settled rejection].
      * lia.
      * apply (inv_invoked _ _ _ Hinv).
      * rewrite length_insert. apply (inv_results _ _ _ Hinv).
      * apply (inv_rejection _ _ _ Hinv).
      * intros w' reason. destruct (decide (w' = w)) as [->|Hne].
        -- by rewrite list_lookup_insert_eq.
        -- rewrite list_lookup_insert_ne by done. apply (inv_no_crash _ _ _ Hinv).
      * intros w' j. destruct (decide (w' = w)) as [->|Hne].
        -- by rewrite list_lookup_insert_eq.
        -- rewrite list_lookup_insert_ne by done. intros Hw'.
           destruct (inv_claimed _ _ _ Hinv w' j Hw') as [Hj Hjres].
           split; [lia|]. rewrite list_lookup_insert_ne; [done|].
           intros <-. apply Hne. by eapply (inv_distinct _ _ _ Hinv).
      * intros w1 w2 j.
        destruct (decide (w1 = w)) as [->|Hne1];
          destruct (decide (w2 = w)) as [->|Hne2]; try done.
        -- by rewrite list_lookup_insert_eq.
        -- by rewrite list_lookup_insert_ne, list_lookup_insert_eq.
        -- rewrite !list_lookup_insert_ne by done.
           apply (inv_distinct _ _ _ Hinv).
      * intros j item' Hj Hjlt.
        destruct (Hdone j item' Hj Hjlt) as [(w' & Hne' & Hw')|Hright];
          [|by right].
        left. exists w'. by rewrite list_lookup_insert_ne.
      * done.
      * done.
      * intros j Hj. lia.
      * intros w' _. lia.
    + unfold outstanding, awaiting. simpl.
      pose proof (awaitingFrom_insert (workers p) 0 w i Finished Hw) as Hcount.
      simpl in Hcount. lia.
Qed.

Lemma awaitingFrom_all (n k : nat) :
  length (awaitingFrom n (Awaiting <$> seq 0 k)) = k.
Proof.
  induction k as [|k IH]; [done|].
  rewrite seq_S, fmap_app.
  change (Awaiting <$> [(0 + k)%nat]) with [Awaiting (0 + k)].
  rewrite awaitingFrom_snoc. simpl. lia.
Qed.

Lemma start_spawned (k : nat) :
  (k ≤ length items)%nat →
  Nat.iter k (spawn items)
    {| currentIndex := 0; results := replicate (length items) None;
       workers := []; invoked := []; settled := []; rejection := None |}
  = {| currentIndex := k; results := replicate (length items) (@None R);
       workers := Awaiting <$> seq 0 k; invoked := seq 0 k; settled := [];
       rejection := None |}.
Proof.
  induction k as [|k IH]; intros Hk; [done|].
  rewrite Nat.iter_succ, IH by lia.
  unfold spawn, enterLoop. cbn [currentIndex].
  destruct (Nat.ltb_spec k (length items)); [|lia].
  cbn [currentIndex results workers invoked settled rejection].
  by rewrite !seq_S, fmap_app.
Qed.

Lemma start_invariant (concurrency : nat) :
  PoolInvariant items f (start items concurrency)
  ∧ outstanding items (start (R:=R) items concurrency) = length items
  ∧ workers (start (R:=R) items concurrency)
    = Awaiting <$> seq 0 (Nat.min concurrency (length items)).
Proof.
  unfold start. rewrite start_spawned by lia.
  set (k := Nat.min concurrency (length items)).
  assert (Hk : (k ≤ length items)%nat) by lia.
  assert (Hlook : ∀ w i, (Awaiting <$> seq 0 k) !! w = Some (Awaiting i) →
                         i = w ∧ (w < k)%nat).
  { intros w i Hw. rewrite list_lookup_fmap in Hw.
    destruct (seq 0 k !! w) as [j|] eqn:E; [|done].
    apply lookup_seq in E as [-> ?]. by injection Hw as <-. }
  split; [|split]; [|unfold outstanding, awaiting; simpl;
                     rewrite awaitingFrom_all; lia|done].
  constructor; cbn [currentIndex results workers invoked settled rejection].
  - done.
  - done.
  - apply length_replicate.
  - done.
  - intros w reason Hw. rewrite list_lookup_fmap in Hw.
    by destruct (seq 0 k !! w).
  - intros w i [-> Hw]%Hlook. split; [done|].
    apply lookup_replicate_2. lia.
  - intros w w' i [-> _]%Hlook [-> _]%Hlook. done.
  - intros i item _ Hi. left. exists i.
    by rewrite list_lookup_fmap, lookup_seq_lt.
  - constructor.
  - intros i Hi. by apply elem_of_nil in Hi.
  - intros i Hi. apply lookup_replicate_2. lia.
  - intros w Hw. rewrite list_lookup_fmap in Hw.
    by destruct (seq 0 k !! w).
Qed.

Lemma unfinished_awaiting (ws : list Worker) n :
  (∀ w reason, ws !! w ≠ Some (Crashed reason)) →
  forallb isFinished ws = false →
  awaitingFrom n ws ≠ [].
Proof.
  revert n. induction ws as [|x ws IH]; intros n Hcrash Hsome; [done|].
  simpl in *. destruct x as [i| |reason]; simpl in *; [done| |].
  - apply IH; [|done]. intros w reason. apply (Hcrash (S w)).
  - by destruct (Hcrash 0%nat reason).
Qed.

Lemma eventLoop_completes (order : nat → nat) (steps step : nat) (p : Pool) :
  PoolInvariant items f p →
  (outstanding items p ≤ steps)%nat →
  ∃ p', eventLoop items (fulfilling f) order steps step p
        = (Some (Fulfilled (results p')), p')
        ∧ PoolInvariant items f p'
        ∧ forallb isFinished (workers p') = true
        ∧ length (workers p') = length (workers p).
Proof.
  revert step p. induction steps as [|steps IH]; intros step p Hinv Hout.
  - assert (Hnone : awaiting p = []).
    { unfold outstanding in Hout. apply length_zero_iff_nil. lia. }
    exists p. cbn [eventLoop]. unfold returned.
    rewrite (inv_rejection _ _ _ Hinv).
    destruct (forallb isFinished (workers p)) eqn:Efin; [done|].
    by destruct (unfinished_awaiting (workers p) 0 (inv_no_crash _ _ _ Hinv) Efin).
  - cbn [eventLoop]. unfold returned.
    rewrite (inv_rejection _ _ _ Hinv).
    destruct (forallb isFinished (workers p)) eqn:Efin; [by exists p|].
    pose proof (unfinished_awaiting (workers p) 0 (inv_no_crash _ _ _ Hinv) Efin)
      as Hsome.
    assert (Hpos : (0 < length (awaiting p))%nat).
    { destruct (awaiting p) eqn:E; [done|simpl; lia]. }
    destruct (lookup_lt_is_Some_2 (awaiting p)
                (order step mod length (awaiting p))%nat) as [w Hw].
    { apply Nat.mod_upper_bound. lia. }
    rewrite Hw. apply awaitingFrom_lookup in Hw as [_ [i Hi]].
    rewrite Nat.sub_0_r in Hi.
    destruct (settle_invariant p w i Hinv Hi) as [Hinv' Hout'].
    destruct (IH (S step) _ Hinv' ltac:(lia)) as (p' & Hrun & Hp' & Hfin & Hlen).
    exists p'. split; [done|]. split; [done|]. split; [done|].
    rewrite Hlen.
    destruct (inv_claimed _ _ _ Hinv w i Hi) as [Hlt _].
    pose proof (inv_index _ _ _ Hinv) as Hindex.
    destruct (lookup_lt_is_Some_2 items i ltac:(lia)) as [item Hitem].
    destruct (decide (currentIndex p < length items)%nat).
    + rewrite (settle_claims p w i item) by done. apply length_insert.
    + rewrite (settle_leaves p w i item) by done. apply length_insert.
Qed.

Lemma finished_pool (p : Pool) :
  PoolInvariant items f p →
  forallb isFinished (workers p) = true →
  (workers p ≠ [] ∨ items = []) →
  results p = map (λ item, Some (f item)) items
  ∧ invoked p = seq 0 (length items)
  ∧ settled p ≡ₚ seq 0 (length items)
  ∧ Forall (λ w, w = Finished) (workers p).
Proof.
  intros Hinv Hfin Hsome.
  assert (Hall : Forall (λ w, w = Finished) (workers p)).
  { apply Forall_forall. intros w Hw%list_elem_of_In.
    rewrite forallb_forall in Hfin. apply Hfin in Hw. by destruct w. }
  assert (Hindex : currentIndex p = length items).
  { destruct Hsome as [Hne| ->].
    - destruct (workers p) as [|w ws] eqn:E; [done|].
      apply Forall_cons in Hall as [-> _].
      apply (inv_finished _ _ _ Hinv 0%nat). by rewrite E.
    - pose proof (inv_index _ _ _ Hinv). simpl in *. lia. }
  assert (Hdone : ∀ i item, items !! i = Some item →
            i ∈ settled p ∧ results p !! i = Some (Some (f item))).
  { intros i item Hi.
    destruct (inv_done _ _ _ Hinv i item Hi) as [[w Hw]|]; [|exfalso|done].
    - rewrite Hindex. by apply lookup_lt_is_Some; eauto.
    - apply list_elem_of_lookup_2 in Hw.
      by apply (proj1 (Forall_forall _ _) Hall) in Hw. }
  split; [|split; [|split]]; [| |
    |done].
  - apply list_eq. intros i. rewrite list_lookup_fmap.
    destruct (items !! i) as [item|] eqn:Hi; simpl.
    + by apply Hdone.
    + apply lookup_ge_None. rewrite (inv_results _ _ _ Hinv).
      by apply lookup_ge_None.
  - by rewrite (inv_invoked _ _ _ Hinv), Hindex.
  - apply NoDup_Permutation; [apply (inv_settled_NoDup _ _ _ Hinv)|apply NoDup_seq|].
    intros i. rewrite elem_of_seq. split.
    + intros [v Hv]%(inv_settled _ _ _ Hinv).
      apply lookup_lt_Some in Hv. rewrite (inv_results _ _ _ Hinv) in Hv. lia.
    + intros [_ Hi]. destruct (lookup_lt_is_Some_2 items i ltac:(lia)) as [item Hitem].
      by apply Hdone in Hitem as [? _].
Qed.

End TotalProcessor.

(** The run of a [processor] that never rejects, for any order of
    completion. *)
Lemma runWithConcurrency_fulfilling {T R : Type} (items : list T)
    (f : T → R) (concurrency : nat) (order : nat → nat) :
  (1 ≤ concurrency)%nat →
  ∃ pool,
    runWithConcurrency items (fulfilling f) concurrency order
    = (Some (Fulfilled (map (λ item, Some (f item)) items)), pool)
    ∧ length (workers pool) = Nat.min concurrency (length items)
    ∧ invoked pool = seq 0 (length items)
    ∧ settled pool ≡ₚ seq 0 (length items)
    ∧ Forall (λ w, w = Finished) (workers pool).
Proof.
  intros Hc. unfold runWithConcurrency.
  destruct (start_invariant items f concurrency) as (Hinv & Hout & Hworkers).
  destruct (eventLoop_completes items f order (length items) 0
              (start items concurrency) Hinv ltac:(lia))
    as (pool & Hrun & Hpool & Hfin & Hlen).
  assert (Hcount : length (workers pool) = Nat.min concurrency (length items)).
  { rewrite Hlen, Hworkers, length_fmap. apply length_seq. }
  destruct (finished_pool items f pool Hpool Hfin) as (Hres & Hinvoked & Hsettled & Hall).
  { destruct items as [|item rest]; [by right|left].
    intros Hnil. rewrite Hnil in Hcount. simpl in Hcount. lia. }
  exists pool. rewrite Hrun, Hres. done.
Qed.

(** C4, as the code has it. For a [processor] that never rejects and a
    concurrency of at least 1, whatever the order in which the promises
    settle, [runWithConcurrency] starts [min(concurrency, N)] workers,
    calls [processor] exactly once per item (on items 0, 1, ..., N-1 in
    that order), and returns, once all N promises have settled and every
    worker has left its loop, the array of length N whose entry [i] is the
    value [processor] gave for [items[i]]. *)
Theorem runWithConcurrency_never_rejecting {T R : Type} (items : list T)
    (f : T → R) (concurrency : nat) (order : nat → nat) :
  (1 ≤ concurrency)%nat →
  ∃ pool,
    runWithConcurrency items (fulfilling f) concurrency order
    = (Some (Fulfilled (map (λ item, Some (f item)) items)), pool)
    ∧ length (workers pool) = Nat.min concurrency (length items)
    ∧ invoked pool = seq 0 (length items)
    ∧ settled pool ≡ₚ seq 0 (length items)
    ∧ Forall (λ w, w = Finished) (workers pool).
Proof. apply runWithConcurrency_fulfilling. Qed.

Lemma runWithConcurrency_never_rejecting_witness :
  ∃ pool,
    runWithConcurrency [10; 20; 30; 40; 50]%nat (fulfilling S) 2 (λ k, S k)
    = (Some (Fulfilled [Some 11; Some 21; Some 31; Some 41; Some 51]%nat), pool)
    ∧ length (workers pool) = 2%nat
    ∧ invoked pool = [0; 1; 2; 3; 4]%nat
    ∧ settled pool ≡ₚ [0; 1; 2; 3; 4]%nat
    ∧ Forall (λ w, w = Finished) (workers pool).
Proof.
  apply (runWithConcurrency_never_rejecting [10; 20; 30; 40; 50]%nat S 2 (λ k, S k)).
  lia.
Defined.

(** C4 as it is written fails: a worker whose promise is rejected leaves
    its loop for good and [Promise.all] is rejected at once. With one
    worker and a [processor] that rejects the first of two items, the
    second item is never passed to [processor]. *)
Lemma runWithConcurrency_rejection_counterexample :
  ¬ (∀ (items : list nat) (processor : nat → Outcome nat)
       (concurrency : nat) (order : nat → nat),
       (1 ≤ concurrency ≤ length items)%nat →
       ∃ outcome pool,
         runWithConcurrency items processor concurrency order
         = (Some outcome, pool)
         ∧ invoked pool = seq 0 (length items)
         ∧ settled pool ≡ₚ seq 0 (length items)).
Proof.
  intros H.
  destruct (H [10; 20]%nat
              (λ item, if (item =? 10)%nat
                       then Rejected (ErrorInstance (js "not found"))
                       else Fulfilled item)
              1%nat (λ _, 0%nat) ltac:(simpl; lia))
    as (outcome & pool & Hrun & Hinvoked & _).
  vm_compute in Hrun. injection Hrun as _ <-. discriminate Hinvoked.
Qed.

(** ** [classifyAndAddRepos] *)

Section CommandFacts.

Variable env : Env.
Variable config : Config.

Lemma checkParameters_pass (repo : Repo) :
  githubToken config ≠ [] → ownerLogin repo ≠ [] → repoName repo ≠ [] →
  checkParameters (githubToken config) (ownerLogin repo) (repoName repo) = None.
Proof.
  intros Ht Ho Hn. unfold checkParameters, isEmpty.
  by rewrite !bool_decide_eq_false_2.
Qed.

(** With parameters that pass the checks every README fetch is made and
    none rejects. *)
Lemma fetchReadmes_fulfilled (batchRepos : list Repo) :
  Addressable config batchRepos →
  ∃ infos,
    fetchReadmes env config batchRepos
    = (Fulfilled infos,
       map (λ repo, ReadmeRequested (ownerLogin repo) (repoName repo)) batchRepos)
    ∧ map id infos = map fullName batchRepos.
Proof.
  intros [Htoken Hrepos].
  induction batchRepos as [|repo rest IH]; [by exists []|].
  apply Forall_cons in Hrepos as [[Ho Hn] Hrest].
  destruct (IH Hrest) as (infos & Hfetch & Hids).
  cbn [fetchReadmes]. unfold fetchRepositoryReadme.
  rewrite checkParameters_pass, Hfetch by done.
  eexists. split; [reflexivity|]. simpl. by rewrite Hids.
Qed.

Lemma countResults_all (rs : list AddResult) (t : Tally) :
  countResults (map Some rs) t
  = Fulfilled {| succeeded := succeeded t + successes rs;
                 failed := failed t + failures rs |}.
Proof.
  revert t. induction rs as [|r rs IH]; intros t.
  - simpl. unfold successes, failures. simpl. rewrite !Nat.add_0_r. by destruct t.
  - cbn [map countResults]. rewrite IH. unfold successes, failures. simpl.
    destruct (success r); simpl; do 2 f_equal; lia.
Qed.


Lemma batchOf_Addressable repos batchSize batchIdx :
  Addressable config repos → Addressable config (batchOf repos batchSize batchIdx).
Proof.
  intros [Ht Hr]. split; [done|]. unfold batchOf.
  by apply Forall_take, Forall_drop.
Qed.

Section Step.

Variable repos : list Repo.
Variable categories : list Category.
Variable createdLists : gmap jsstring CreatedList.
Variables batchSize totalBatches : nat.

(** A batch whose classification call raises. *)
Lemma batchStep_classification_failed batchIdx st infos fetches reason :
  fetchReadmes env config (batchOf repos batchSize batchIdx)
  = (Fulfilled infos, fetches) →
  oracleAnswer env batchIdx infos = Rejected reason →
  batchStep env config repos categories createdLists batchSize totalBatches
    batchIdx st
  = Returned
      {| tally := {| succeeded := succeeded (tally st);
                     failed := failed (tally st)
                               + length (batchOf repos batchSize batchIdx) |};
         trace := trace st ++ fetches
                  ++ [ClassifyRequested batchIdx (map id infos);
                      SpinnerFailed (js "Classification failed")] |}.
Proof.
  intros Hfetch Horacle. unfold batchStep, classifyRepositoriesBatch.
  rewrite Hfetch, Horacle. cbn [tally trace].
  by rewrite <- !app_assoc.
Qed.

Lemma addToLists_repoId results repo :
  repoId (addToLists env config createdLists results repo).1 = fullName repo.
Proof.
  unfold addToLists. destruct (listIdsOf _ _); [done|].
  by repeat case_match.
Qed.

Lemma item_requests_map results (batchRepos : list Repo) :
  map (λ repo, let '(result, requests) :=
                 addToLists env config createdLists results repo in
               ItemRequests (repoId result) requests) batchRepos
  = map (λ repo, ItemRequests (fullName repo)
                   (addToLists env config createdLists results repo).2)
        batchRepos.
Proof.
  apply map_ext. intros repo.
  pose proof (addToLists_repoId results repo) as Hid.
  destruct (addToLists env config createdLists results repo) as [result requests].
  simpl in *. by rewrite Hid.
Qed.

Lemma reported_map (added : list AddResult) :
  omap (λ r : option AddResult, ItemReported <$> r) (map Some added)
  = map ItemReported added.
Proof.
  unfold omap. induction added as [|r rs IH]; [done|]. simpl. by rewrite IH.
Qed.

(** A batch whose classification call returns. *)
Lemma batchStep_classified batchIdx st infos fetches text :
  fetchReadmes env config (batchOf repos batchSize batchIdx)
  = (Fulfilled infos, fetches) →
  oracleAnswer env batchIdx infos = Fulfilled text →
  let batchRepos := batchOf repos batchSize batchIdx in
  let results := parseBatchClassifierResponse config text infos categories in
  let added := batchResults env config createdLists results batchRepos in
  batchStep env config repos categories createdLists batchSize totalBatches
    batchIdx st
  = Returned
      {| tally := {| succeeded := succeeded (tally st) + successes added;
                     failed := failed (tally st) + failures added |};
         trace := trace st ++ fetches
                  ++ [ClassifyRequested batchIdx (map id infos)]
                  ++ map (λ repo,
                            ItemRequests (fullName repo)
                              (addToLists env config createdLists results repo).2)
                         batchRepos
                  ++ map ItemReported added
                  ++ (if (S batchIdx <? totalBatches)%nat
                      then [Paused (batchDelay config)] else []) |}.
Proof.
  intros Hfetch Horacle batchRepos results added.
  unfold batchStep, classifyRepositoriesBatch.
  rewrite Hfetch, Horacle. fold batchRepos results.
  destruct (runWithConcurrency_fulfilling batchRepos
              (λ repo, (addToLists env config createdLists results repo).1)
              5 (completionOrder env batchIdx) ltac:(lia))
    as (pool & Hrun & _).
  unfold fulfilling in Hrun. rewrite Hrun. cbn [fst].
  rewrite <- (map_map (λ repo, (addToLists env config createdLists results repo).1) Some).
  fold (batchResults env config createdLists results batchRepos). fold added.
  rewrite countResults_all. cbn [tally trace].
  rewrite map_map, (item_requests_map results batchRepos), reported_map.
  by rewrite <- !app_assoc.
Qed.

End Step.

End CommandFacts.

Section RunFacts.

Variable env : Env.
Variable config : Config.
Variable repos : list Repo.
Variable categories : list Category.
Variable createdLists : gmap jsstring CreatedList.
Variables batchSize totalBatches : nat.
Hypothesis addressable : Addressable config repos.



End RunFacts.




(** C8. In a batch whose classification returned, an item none of whose
    category names has a list with an identifier gets the failure
    No matching category without any request: neither the node id of the
    repository is asked for nor a membership set. The result is reported
    and counted among the failures of the batch. *)
Theorem unmatched_item_fails_without_request
    (env : Env) (config : Config) (repos : list Repo)
    (categories : list Category) (createdLists : gmap jsstring CreatedList)
    (batchSize totalBatches batchIdx : nat) (st : RunState)
    (infos : list BatchRepoInfo) (fetches : list Event) (text : jsstring)
    (repo : Repo) :
  let batchRepos := batchOf repos batchSize batchIdx in
  let results := parseBatchClassifierResponse config text infos categories in
  let added := batchResults env config createdLists results batchRepos in
  fetchReadmes env config batchRepos = (Fulfilled infos, fetches) →
  oracleAnswer env batchIdx infos = Fulfilled text →
  repo ∈ batchRepos →
  listIdsOf createdLists (default [] (results !! KeyStr (fullName repo))) = [] →
  addToLists env config createdLists results repo = (noMatchingCategory repo, [])
  ∧ noMatchingCategory repo ∈ added
  ∧ ∃ st',
      batchStep env config repos categories createdLists batchSize totalBatches
        batchIdx st = Returned st'
      ∧ ItemRequests (fullName repo) [] ∈ trace st'
      ∧ ItemReported (noMatchingCategory repo) ∈ trace st'
      ∧ failed (tally st') = (failed (tally st) + failures added)%nat.
Proof.
  intros batchRepos results added Hfetch Horacle Hrepo Hnone.
  assert (Hitem : addToLists env config createdLists results repo
                  = (noMatchingCategory repo, [])).
  { unfold addToLists. by rewrite Hnone. }
  assert (Hadded : noMatchingCategory repo ∈ added).
  { unfold added, batchResults. apply list_elem_of_fmap.
    exists repo. by rewrite Hitem. }
  split; [done|]. split; [done|].
  eexists. split.
  { apply (batchStep_classified env config repos categories createdLists
             batchSize totalBatches batchIdx st infos fetches text Hfetch Horacle). }
  cbn [tally trace failed]. fold batchRepos results added.
  split; [|split; [|done]].
  - apply elem_of_app. right. apply elem_of_app. right.
    apply elem_of_app. right. apply elem_of_app. left.
    apply list_elem_of_fmap. exists repo. by rewrite Hitem.
  - apply elem_of_app. right. apply elem_of_app. right.
    apply elem_of_app. right. apply elem_of_app. right.
    apply elem_of_app. left. by apply list_elem_of_fmap_2.
Qed.

Lemma unmatched_item_fails_without_request_witness :
  addToLists Scenario.reliable Scenario.smallBatches Scenario.fewLists
    (parseBatchClassifierResponse Scenario.smallBatches Scenario.response
       Scenario.fetched Scenario.categories)
    (Scenario.starred "octo" "beta")
  = (noMatchingCategory (Scenario.starred "octo" "beta"), []).
Proof.
  refine (proj1 (unmatched_item_fails_without_request Scenario.reliable
                   Scenario.smallBatches Scenario.stars Scenario.categories
                   Scenario.fewLists 2 2 0
                   {| tally := {| succeeded := 0; failed := 0 |}; trace := [] |}
                   Scenario.fetched
                   [ReadmeRequested (js "octo") (js "alpha");
                    ReadmeRequested (js "octo") (js "beta")]
                   Scenario.response (Scenario.starred "octo" "beta") _ _ _ _)).
  - reflexivity.
  - reflexivity.
  - apply list_elem_of_In. simpl. auto.
  - vm_compute. reflexivity.
Defined.

(** * Further properties of the code *)

(** ** [retryWithBackoff], whatever the operation does *)

Section RetryMore.

Context {T : Type}.
Variable fn : nat → Outcome T.
Variables maxRetries initialDelayMs maxDelayMs : Z.

Lemma attempts_success (k : nat) (remaining : nat) (attempt : Z)
    (lastError : option Thrown) (calls : nat) (observed : list Observed)
    (value : T) :
  (∀ j, (j < k)%nat → ∃ e, fn (calls + j)%nat = Rejected e) →
  fn (calls + k)%nat = Fulfilled value →
  (attempt + Z.of_nat k ≤ maxRetries)%Z →
  (k ≤ remaining)%nat →
  run (scripted fn)
      (attempts maxRetries initialDelayMs maxDelayMs (S remaining) attempt lastError)
      (calls, observed)
  = (Fulfilled value,
     (S (calls + k),
      observed ++ backoffSchedule initialDelayMs maxDelayMs attempt k)).
Proof.
  revert remaining attempt lastError calls observed.
  induction k as [|k IH]; intros remaining attempt lastError calls observed
    Hfail Hok Hle Hrem.
  - rewrite Nat.add_0_r in *. cbn [attempts run scripted fst snd].
    by rewrite Hok.
  - destruct (Hfail 0%nat ltac:(lia)) as [e He]. rewrite Nat.add_0_r in He.
    rewrite (attempts_step maxRetries initialDelayMs maxDelayMs fn _ _ _ _ _ e He).
    destruct (Z.ltb_spec attempt maxRetries); [|lia].
    destruct remaining as [|remaining]; [lia|].
    rewrite IH; try lia.
    + cbn [backoffSchedule]. rewrite <- !app_assoc.
      by replace (S calls + k)%nat with (calls + S k)%nat by lia.
    + intros j Hj. replace (S calls + j)%nat with (calls + S j)%nat by lia.
      apply Hfail. lia.
    + by replace (S calls + k)%nat with (calls + S k)%nat by lia.
Qed.

(** Whatever the operation does, a run of the loop adds at most
    [remaining] calls and waits, each wait at most [maxDelayMs]. *)
Lemma attempts_bounded (remaining : nat) (attempt : Z)
    (lastError : option Thrown) (calls : nat) (observed : list Observed) :
  ∃ added,
    (run (scripted fn)
       (attempts maxRetries initialDelayMs maxDelayMs remaining attempt lastError)
       (calls, observed)).2.2 = observed ++ added
    ∧ (invocations added ≤ remaining)%nat
    ∧ (Z.of_nat (length (delaysOf added)) ≤ Z.max 0 (maxRetries - attempt))%Z
    ∧ Forall (λ ms, (ms ≤ maxDelayMs)%Z) (delaysOf added).
Proof.
  revert attempt lastError calls observed.
  induction remaining as [|remaining IH]; intros attempt lastError calls observed.
  - exists []. simpl. rewrite app_nil_r. repeat split; [lia|lia|constructor].
  - cbn [attempts run scripted fst snd].
    destruct (fn calls) as [value|error].
    + exists [Invoked]. cbn [run snd]. repeat split; simpl; [lia|lia|constructor].
    + destruct (Z.ltb_spec attempt maxRetries).
      * cbn [run scripted fst snd].
        destruct (IH (attempt + 1)%Z (Some (toError error)) (S calls)
                    ((observed ++ [Invoked])
                     ++ [Waited (Z.min (initialDelayMs * 2 ^ attempt) maxDelayMs)]))
          as (added & -> & Hinv & Hlen & Hall).
        exists (Invoked :: Waited (Z.min (initialDelayMs * 2 ^ attempt) maxDelayMs)
                :: added).
        rewrite <- !app_assoc. split; [done|]. simpl.
        split; [lia|]. split; [lia|]. constructor; [lia|done].
      * destruct (IH (attempt + 1)%Z (Some (toError error)) (S calls)
                    (observed ++ [Invoked]))
          as (added & -> & Hinv & Hlen & Hall).
        exists (Invoked :: added). rewrite <- !app_assoc.
        split; [done|]. simpl. split; [lia|]. split; [lia|done].
Qed.

End RetryMore.

(** X1. An operation that fails [k] times and then succeeds, with [k] at
    most [maxRetries]: [retryWithBackoff] returns the value of the
    successful call after exactly [k + 1] calls, having waited
    [min(initialDelayMs * 2^attempt, maxDelayMs)] after each of the [k]
    failed attempts. *)
Theorem retryWithBackoff_succeeds_after_failures {T : Type}
    (fn : nat → Outcome T) (options : RetryOptions) (k : nat) (value : T) :
  let retries := default 3%Z (maxRetries options) in
  let initial := default 500%Z (initialDelayMs options) in
  let cap := default 5000%Z (maxDelayMs options) in
  (Z.of_nat k ≤ retries)%Z →
  (∀ j, (j < k)%nat → ∃ e, fn j = Rejected e) →
  fn k = Fulfilled value →
  retryRun fn options = (Fulfilled value, backoffSchedule initial cap 0 k)
  ∧ invocations (retryRun fn options).2 = S k
  ∧ delaysOf (retryRun fn options).2
    = map (λ attempt, Z.min (initial * 2 ^ Z.of_nat attempt) cap) (seq 0 k).
Proof.
  intros retries initial cap Hk Hfail Hok.
  assert (Hrun : retryRun fn options
                 = (Fulfilled value, backoffSchedule initial cap 0 k)).
  { unfold retryRun, retryWithBackoff. fold retries initial cap.
    replace (Z.to_nat (retries + 1)) with (S (Z.to_nat retries)) by lia.
    rewrite (attempts_success fn retries initial cap k (Z.to_nat retries) 0 None
               0%nat [] value); [done|done|done|lia|lia]. }
  rewrite Hrun. split; [done|]. split; simpl.
  - apply invocations_backoffSchedule.
  - by rewrite delaysOf_backoffSchedule.
Qed.

Lemma retryWithBackoff_succeeds_after_failures_witness :
  retryRun (λ j, if (j <? 2)%nat then Rejected (NonError (js "busy"))
                 else Fulfilled 7%nat)
    {| maxRetries := Some 3%Z; initialDelayMs := Some 500%Z; maxDelayMs := None |}
  = (Fulfilled 7%nat, [Invoked; Waited 500; Invoked; Waited 1000; Invoked]).
Proof.
  refine (proj1 (retryWithBackoff_succeeds_after_failures
                   (λ j, if (j <? 2)%nat then Rejected (NonError (js "busy"))
                         else Fulfilled 7%nat)
                   {| maxRetries := Some 3%Z; initialDelayMs := Some 500%Z;
                      maxDelayMs := None |} 2 7%nat _ _ _)).
  - simpl. lia.
  - intros j Hj. destruct j as [|[|j]]; [by eexists..|lia].
  - reflexivity.
Defined.

(** X2. Whatever the operation does, [retryWithBackoff] calls it at most
    [maxRetries + 1] times, waits at most [maxRetries] times, and never
    waits longer than [maxDelayMs] at a time. *)
Theorem retryWithBackoff_bounded {T : Type} (fn : nat → Outcome T)
    (options : RetryOptions) :
  let retries := default 3%Z (maxRetries options) in
  let cap := default 5000%Z (maxDelayMs options) in
  let observed := (retryRun fn options).2 in
  (Z.of_nat (invocations observed) ≤ Z.max 0 (retries + 1))%Z
  ∧ (Z.of_nat (length (delaysOf observed)) ≤ Z.max 0 retries)%Z
  ∧ Forall (λ ms, (ms ≤ cap)%Z) (delaysOf observed).
Proof.
  intros retries cap observed. subst observed.
  unfold retryRun, retryWithBackoff. fold retries cap.
  destruct (attempts_bounded fn retries (default 500%Z (initialDelayMs options))
              cap (Z.to_nat (retries + 1)) 0 None 0%nat [])
    as (added & Hadded & Hinv & Hlen & Hall).
  destruct (run _ _ _) as [settled [calls obs]]. simpl in *. subst obs.
  split; [lia|]. split; [|done].
  replace (retries - 0)%Z with retries in Hlen by lia. done.
Qed.

(** X3. With a negative [maxRetries] the loop never runs: the operation
    is not called at all and the call is rejected with [null]. *)
Theorem retryWithBackoff_negative_retries {T : Type} (fn : nat → Outcome T)
    (options : RetryOptions) :
  (default 3%Z (maxRetries options) < 0)%Z →
  retryRun fn options = (Rejected (NonError (js "null")), []).
Proof.
  intros Hneg. unfold retryRun, retryWithBackoff.
  by replace (Z.to_nat (default 3%Z (maxRetries options) + 1)) with 0%nat by lia.
Qed.

Lemma retryWithBackoff_negative_retries_witness :
  retryRun (λ _, Fulfilled 1%nat)
    {| maxRetries := Some (-1)%Z; initialDelayMs := None; maxDelayMs := None |}
  = (Rejected (NonError (js "null")), []).
Proof.
  apply (retryWithBackoff_negative_retries (λ _, Fulfilled 1%nat)
           {| maxRetries := Some (-1)%Z; initialDelayMs := None;
              maxDelayMs := None |}).
  simpl. lia.
Defined.

(** ** [runWithConcurrency], whatever the processor does *)

Section AnyProcessor.

Context {T R : Type}.
Variable items : list T.
Variable processor : T → Outcome R.

Lemma awaitingFrom_length (ws : list Worker) n :
  (length (awaitingFrom n ws) ≤ length ws)%nat.
Proof.
  revert n. induction ws as [|w ws IH]; intros n; simpl; [lia|].
  specialize (IH (S n)). destruct (isAwaiting w); simpl; lia.
Qed.

(** What every step keeps, rejections or not. *)
Lemma settle_keeps (w : nat) (p : Pool) :
  invoked p = seq 0 (currentIndex p) →
  (currentIndex p ≤ length items)%nat →
  length (workers (settle items processor w p)) = length (workers p)
  ∧ invoked (settle items processor w p)
    = seq 0 (currentIndex (settle items processor w p))
  ∧ (currentIndex (settle items processor w p) ≤ length items)%nat.
Proof.
  intros Hinvoked Hindex. unfold settle.
  destruct (workers p !! w) as [[index| |reason]|]; [|done..].
  destruct (items !! index) as [item|]; [|done].
  destruct (processor item) as [value|reason].
  - unfold enterLoop. cbn [currentIndex].
    destruct (Nat.ltb_spec (currentIndex p) (length items));
      cbn [currentIndex results workers invoked settled rejection];
      rewrite length_insert.
    + split; [done|]. split; [|lia]. by rewrite seq_S, Hinvoked.
    + done.
  - cbn [currentIndex results workers invoked settled rejection].
    by rewrite length_insert.
Qed.

Lemma settleEach_keeps (ws : list nat) (p : Pool) :
  invoked p = seq 0 (currentIndex p) →
  (currentIndex p ≤ length items)%nat →
  length (workers (settleEach items processor ws p)) = length (workers p)
  ∧ invoked (settleEach items processor ws p)
    = seq 0 (currentIndex (settleEach items processor ws p))
  ∧ (currentIndex (settleEach items processor ws p) ≤ length items)%nat.
Proof.
  revert p. induction ws as [|w ws IH]; intros p Hinvoked Hindex; [done|].
  destruct (settle_keeps w p Hinvoked Hindex) as (Hlen & Hinv & Hidx).
  destruct (IH _ Hinv Hidx) as (Hlen' & Hinv' & Hidx').
  cbn [settleEach]. by rewrite Hlen', Hlen.
Qed.

End AnyProcessor.

(** X4. Whatever the processor does (it may reject) and in whatever order
    the promises settle, at no point of a run of [runWithConcurrency] are
    more than [min(concurrency, N)] promises pending, and the calls of the
    processor made so far are on the items 0, 1, 2, ... in that order,
    each once. *)
Theorem runWithConcurrency_ceiling {T R : Type} (items : list T)
    (processor : T → Outcome R) (concurrency : nat) (ws : list nat) :
  let pool := settleEach items processor ws (start items concurrency) in
  (length (awaiting pool) ≤ Nat.min concurrency (length items))%nat
  ∧ invoked pool = seq 0 (currentIndex pool)
  ∧ (currentIndex pool ≤ length items)%nat
  ∧ NoDup (invoked pool).
Proof.
  intros pool. subst pool.
  assert (Hstart : start (R:=R) items concurrency
                   = {| currentIndex := Nat.min concurrency (length items);
                        results := replicate (length items) None;
                        workers := Awaiting <$> seq 0 (Nat.min concurrency (length items));
                        invoked := seq 0 (Nat.min concurrency (length items));
                        settled := []; rejection := None |}).
  { unfold start. apply start_spawned. lia. }
  destruct (settleEach_keeps items processor ws (start items concurrency))
    as (Hlen & Hinv & Hidx).
  { by rewrite Hstart. }
  { rewrite Hstart. simpl. lia. }
  split; [|split; [done|split; [done|]]].
  - unfold awaiting. etrans; [apply awaitingFrom_length|].
    rewrite Hlen, Hstart. simpl. by rewrite length_fmap, length_seq.
  - rewrite Hinv. apply NoDup_seq.
Qed.

(** X5. With a concurrency of 0 no worker is started: the call returns at
    once an array of [N] empty slots and the processor is never called. *)
Theorem runWithConcurrency_no_worker {T R : Type} (items : list T)
    (processor : T → Outcome R) (order : nat → nat) :
  ∃ pool,
    runWithConcurrency items processor 0 order
    = (Some (Fulfilled (replicate (length items) None)), pool)
    ∧ invoked pool = []
    ∧ workers pool = [].
Proof.
  exists {| currentIndex := 0; results := replicate (length items) None;
            workers := []; invoked := []; settled := []; rejection := None |}.
  unfold runWithConcurrency, start. simpl.
  split; [|done]. by destruct (length items).
Qed.

(** ** [processBatch] *)

Section ProcessBatchFacts.

Context {T R : Type}.
Variable firstRejected : nat → nat.

Lemma processedOf_app (a b : list BatchObserved) :
  processedOf (a ++ b) = processedOf a ++ processedOf b.
Proof.
  induction a as [|[index|completed total|ms] a IH]; simpl; by rewrite ?IH.
Qed.

Lemma waitsOf_app (a b : list BatchObserved) :
  waitsOf (a ++ b) = waitsOf a ++ waitsOf b.
Proof.
  induction a as [|[index|completed total|ms] a IH]; simpl; by rewrite ?IH.
Qed.

Lemma processedOf_called (l : list nat) :
  processedOf (map Processed l) = l
  ∧ waitsOf (map Processed l) = [].
Proof. induction l as [|x l [IH1 IH2]]; simpl; [done|]. by rewrite IH1, IH2. Qed.

Lemma settleBatch_length (processor : T → nat → Outcome R) batch index :
  (length (settleBatch processor batch index).1
   + length (settleBatch processor batch index).2 = length batch)%nat.
Proof.
  revert index. induction batch as [|item rest IH]; intros index; [done|].
  simpl. specialize (IH (S index)).
  destruct (settleBatch processor rest (S index)) as [values reasons].
  destruct (processor item index); simpl in *; lia.
Qed.

Lemma settleBatch_fulfilling (f : T → nat → R) batch index :
  settleBatch (λ item i, Fulfilled (f item i)) batch index
  = (imap (λ j item, f item (index + j)%nat) batch, []).
Proof.
  revert index. induction batch as [|item rest IH]; intros index; [done|].
  simpl. rewrite IH. rewrite Nat.add_0_r. do 2 f_equal.
  apply imap_ext. intros j x _. simpl. f_equal. lia.
Qed.

(** Whatever the processor does: the calls are on consecutive indices,
    every wait is the configured one, and a fulfilled run has called the
    processor on every item and holds one result per item. *)
Lemma batches_any (processor : T → nat → Outcome R) (items : list T)
    (batchSize : nat) (batchDelayMs : Z) (onProgress : bool)
    (fuel i batchNo : nat) (results : list R) (observed : list BatchObserved) :
  (0 < batchSize)%nat →
  (length items - i ≤ fuel)%nat →
  ∃ added m,
    (batches processor firstRejected items batchSize batchDelayMs onProgress
       fuel i batchNo results observed).2 = observed ++ added
    ∧ processedOf added = seq i m
    ∧ (i + m ≤ Nat.max i (length items))%nat
    ∧ Forall (λ ms, ms = batchDelayMs) (waitsOf added)
    ∧ ∀ final,
        (batches processor firstRejected items batchSize batchDelayMs
           onProgress fuel i batchNo results observed).1 = Fulfilled final →
        (length items ≤ i + m)%nat
        ∧ (length final + i = length results + Nat.max i (length items))%nat.
Proof.
  intros Hpos. revert i batchNo results observed.
  induction fuel as [|fuel IH]; intros i batchNo results observed Hfuel.
  - exists [], 0%nat. cbn [batches].
    destruct (Nat.ltb_spec i (length items)); [lia|]. simpl.
    rewrite app_nil_r. split; [done|]. split; [done|]. split; [lia|].
    split; [constructor|]. intros final [= <-]. lia.
  - cbn [batches]. destruct (Nat.ltb_spec i (length items)) as [Hlt|Hge].
    2:{ exists [], 0%nat. simpl. rewrite app_nil_r.
        split; [done|]. split; [done|]. split; [lia|].
        split; [constructor|]. intros final [= <-]. lia. }
    set (batch := take batchSize (drop i items)).
    assert (Hbatch : length batch = Nat.min batchSize (length items - i)).
    { subst batch. by rewrite length_take, length_drop. }
    unfold promiseAll.
    pose proof (settleBatch_length processor batch i) as Hsettled.
    destruct (settleBatch processor batch i) as [values reasons].
    destruct reasons as [|e reasons]; cbn [fst snd length] in Hsettled.
    + destruct (IH (i + batchSize)%nat (S batchNo) (results ++ values)
                  (observed ++ map Processed (seq i (length batch))
                   ++ (if onProgress
                       then [Progress (Nat.min (i + batchSize) (length items))
                               (length items)]
                       else [])
                   ++ (if (i + batchSize <? length items)%nat
                       then [BatchWaited batchDelayMs] else []))
                  ltac:(lia))
        as (added & m & Hobs & Hproc & Hm & Hwaits & Hfinal).
      destruct (Nat.ltb_spec (i + batchSize) (length items)) as [Hmore|Hlast].
      * exists (map Processed (seq i (length batch))
                ++ (if onProgress
                    then [Progress (Nat.min (i + batchSize) (length items))
                            (length items)]
                    else [])
                ++ [BatchWaited batchDelayMs] ++ added), (batchSize + m)%nat.
        rewrite Hobs, <- !app_assoc. split; [done|].
        rewrite !processedOf_app, !waitsOf_app.
        destruct (processedOf_called (seq i (length batch))) as [-> ->].
        rewrite Hproc.
        assert (Hlen : length batch = batchSize) by lia.
        rewrite Hlen in Hfinal |- *.
        split; [destruct onProgress; simpl; by rewrite seq_app|].
        split; [lia|]. split.
        { destruct onProgress; simpl; by constructor. }
        intros final Hf. apply Hfinal in Hf as [Hf1 Hf2].
        rewrite length_app in Hf2. lia.
      * exists (map Processed (seq i (length batch))
                ++ (if onProgress
                    then [Progress (Nat.min (i + batchSize) (length items))
                            (length items)]
                    else [])
                ++ added), (length items - i + m)%nat.
        rewrite Hobs, <- !app_assoc. simpl. split; [done|].
        rewrite !processedOf_app, !waitsOf_app.
        destruct (processedOf_called (seq i (length batch))) as [-> ->].
        assert (Hm0 : m = 0%nat) by lia. subst m.
        assert (Hlen : length batch = (length items - i)%nat) by lia.
        rewrite Hlen in Hfinal |- *. rewrite Hproc. simpl seq.
        split.
        { destruct onProgress; simpl; by rewrite ?app_nil_r, Nat.add_0_r. }
        split; [lia|]. split.
        { destruct onProgress; simpl; done. }
        intros final Hf. apply Hfinal in Hf as [Hf1 Hf2].
        rewrite length_app in Hf2. lia.
    + exists (map Processed (seq i (length batch))), (length batch).
      cbn [fst snd]. split; [done|].
      destruct (processedOf_called (seq i (length batch))) as [-> ->].
      split; [done|]. split; [lia|]. split; [constructor|].
      intros final Hf. discriminate Hf.
Qed.

End ProcessBatchFacts.

(** X6. Whatever the processor does and for a positive batch size,
    [processBatch] calls the processor on items 0, 1, 2, ... in that
    order, each at most once, and waits only the configured delay; when
    it returns an array, the processor has been called on every item and
    the array has one result per item. *)
Theorem processBatch_in_order {T R : Type} (processor : T → nat → Outcome R)
    (firstRejected : nat → nat) (items : list T) (size : positive)
    (batchDelayMs : option Z) (onProgress : bool) :
  ∃ outcome observed m,
    processBatch processor firstRejected items (Some (Zpos size)) batchDelayMs
      onProgress = Some (outcome, observed)
    ∧ processedOf observed = seq 0 m
    ∧ (m ≤ length items)%nat
    ∧ Forall (λ ms, ms = default 3000%Z batchDelayMs) (waitsOf observed)
    ∧ ∀ final, outcome = Fulfilled final →
               m = length items ∧ length final = length items.
Proof.
  unfold processBatch.
  change (default 10%Z (Some (Z.pos size))) with (Z.pos size). cbv iota.
  destruct (batches_any firstRejected processor items (Pos.to_nat size)
              (default 3000%Z batchDelayMs) onProgress (length items) 0 0 [] []
              ltac:(lia) ltac:(lia))
    as (added & m & Hobs & Hproc & Hm & Hwaits & Hfinal).
  destruct (batches _ _ _ _ _ _ _ _ _ _ _) as [outcome observed] eqn:Erun.
  simpl in Hobs. subst observed.
  exists outcome, added, m. split; [done|]. split; [done|]. split; [lia|].
  split; [done|]. intros final ->.
  destruct (Hfinal final eq_refl) as [H1 H2]. simpl in *. lia.
Qed.

Section ProcessBatchFulfilling.

Context {T R : Type}.
Variable firstRejected : nat → nat.
Variable f : T → nat → R.

Lemma imap_batch (items : list T) (batchSize i : nat) :
  imap (λ j item, f item (i + j)%nat) (drop i items)
  = imap (λ j item, f item (i + j)%nat) (take batchSize (drop i items))
    ++ imap (λ j item, f item (i + batchSize + j)%nat)
         (drop (i + batchSize) items).
Proof.
  rewrite <- (take_drop batchSize (drop i items)) at 1.
  rewrite imap_app, drop_drop. f_equal.
  destruct (Nat.le_gt_cases batchSize (length (drop i items))) as [Hle|Hgt].
  - rewrite length_take, Nat.min_l by done.
    apply imap_ext. intros j x _. simpl. f_equal. lia.
  - rewrite length_drop in Hgt.
    rewrite (drop_ge items (i + batchSize)) by lia. done.
Qed.

Lemma batches_fulfilling (items : list T) (batchSize : nat) (batchDelayMs : Z)
    (onProgress : bool) (fuel i batchNo : nat) (results : list R)
    (observed : list BatchObserved) :
  (0 < batchSize)%nat →
  (length items - i ≤ fuel)%nat →
  ∃ added,
    batches (λ item index, Fulfilled (f item index)) firstRejected items
      batchSize batchDelayMs onProgress fuel i batchNo results observed
    = (Fulfilled (results ++ imap (λ j item, f item (i + j)%nat) (drop i items)),
       observed ++ added)
    ∧ waitsOf added
      = replicate ((length items - i + batchSize - 1) / batchSize - 1)
          batchDelayMs.
Proof.
  intros Hpos. revert i batchNo results observed.
  induction fuel as [|fuel IH]; intros i batchNo results observed Hfuel.
  - exists []. cbn [batches].
    destruct (Nat.ltb_spec i (length items)); [lia|].
    rewrite drop_ge, !app_nil_r by lia. split; [done|].
    replace (length items - i + batchSize - 1)%nat with (batchSize - 1)%nat by lia.
    rewrite Nat.div_small by lia. done.
  - cbn [batches]. destruct (Nat.ltb_spec i (length items)) as [Hlt|Hge].
    2:{ exists []. rewrite drop_ge, !app_nil_r by lia. split; [done|].
        replace (length items - i + batchSize - 1)%nat with (batchSize - 1)%nat
          by lia.
        rewrite Nat.div_small by lia. done. }
    unfold promiseAll. rewrite settleBatch_fulfilling.
    destruct (IH (i + batchSize)%nat (S batchNo)
                (results ++ imap (λ j item, f item (i + j)%nat)
                              (take batchSize (drop i items)))
                (observed
                 ++ map Processed
                      (seq i (length (take batchSize (drop i items))))
                 ++ (if onProgress
                     then [Progress (Nat.min (i + batchSize) (length items))
                             (length items)]
                     else [])
                 ++ (if (i + batchSize <? length items)%nat
                     then [BatchWaited batchDelayMs] else []))
                ltac:(lia)) as (added & -> & Hwaits).
    exists (map Processed (seq i (length (take batchSize (drop i items))))
            ++ (if onProgress
                then [Progress (Nat.min (i + batchSize) (length items))
                        (length items)]
                else [])
            ++ (if (i + batchSize <? length items)%nat
                then [BatchWaited batchDelayMs] else [])
            ++ added).
    rewrite <- !app_assoc. split.
    { by rewrite (imap_batch items batchSize i). }
    rewrite !waitsOf_app.
    destruct (processedOf_called
                (seq i (length (take batchSize (drop i items))))) as [_ ->].
    rewrite Hwaits.
    assert (Hprogress : ∀ c t, waitsOf (if onProgress then [Progress c t] else [])
                               = []) by (by destruct onProgress).
    rewrite Hprogress. simpl.
    destruct (Nat.ltb_spec (i + batchSize) (length items)) as [Hmore|Hlast].
    + replace (length items - i + batchSize - 1)%nat
        with (length items - (i + batchSize) + batchSize - 1 + 1 * batchSize)%nat
        by lia.
      rewrite Nat.div_add by lia.
      assert (1 ≤ (length items - (i + batchSize) + batchSize - 1) / batchSize)%nat.
      { apply Nat.div_le_lower_bound; lia. }
      simpl.
      replace ((length items - (i + batchSize) + batchSize - 1) / batchSize
               + 1 - 1)%nat
        with (S ((length items - (i + batchSize) + batchSize - 1) / batchSize
                 - 1))%nat by lia.
      done.
    + replace (length items - (i + batchSize) + batchSize - 1)%nat
        with (batchSize - 1)%nat by lia.
      rewrite (Nat.div_small (batchSize - 1)) by lia. simpl.
      assert (Hone : ((length items - i + batchSize - 1) / batchSize = 1)%nat).
      { replace (length items - i + batchSize - 1)%nat
          with (length items - i - 1 + 1 * batchSize)%nat by lia.
        rewrite Nat.div_add by lia. rewrite Nat.div_small by lia. done. }
      rewrite Hone. done.
Qed.

End ProcessBatchFulfilling.

(** X7. With a processor that never rejects and a positive batch size,
    [processBatch] returns one result per item, in the order of the items,
    each computed from the item and its index in the whole array (not in
    its batch), and it waits once after every batch but the last:
    [ceil(n / batchSize) - 1] waits for [n] items, none for no item. *)
Theorem processBatch_fulfilling {T R : Type} (f : T → nat → R)
    (firstRejected : nat → nat) (items : list T) (size : positive)
    (batchDelayMs : option Z) (onProgress : bool) :
  ∃ observed,
    processBatch (λ item index, Fulfilled (f item index)) firstRejected items
      (Some (Zpos size)) batchDelayMs onProgress
    = Some (Fulfilled (imap (λ index item, f item index) items), observed)
    ∧ waitsOf observed
      = replicate ((length items + Pos.to_nat size - 1) / Pos.to_nat size - 1)
          (default 3000%Z batchDelayMs).
Proof.
  unfold processBatch.
  change (default 10%Z (Some (Z.pos size))) with (Z.pos size). cbv iota.
  destruct (batches_fulfilling firstRejected f items (Pos.to_nat size)
              (default 3000%Z batchDelayMs) onProgress (length items) 0 0 [] []
              ltac:(lia) ltac:(lia)) as (added & -> & Hwaits).
  exists added. rewrite Nat.sub_0_r in Hwaits. done.
Qed.

Section ProcessBatchRejecting.

Context {T R : Type}.
Variable processor : T → nat → Outcome R.
Variable firstRejected : nat → nat.

Lemma settleBatch_reasons (batch : list T) (index : nat) (e : Thrown) :
  e ∈ (settleBatch processor batch index).2 →
  ∃ j item, batch !! j = Some item ∧ processor item (index + j)%nat = Rejected e.
Proof.
  revert index. induction batch as [|x rest IH]; intros index; simpl.
  { intros H. by apply elem_of_nil in H. }
  specialize (IH (S index)).
  destruct (settleBatch processor rest (S index)) as [values reasons].
  destruct (processor x index) as [v|e'] eqn:Ex; simpl in *.
  - intros (j & item & Hj & Hr)%IH. exists (S j), item. split; [done|].
    by replace (index + S j)%nat with (S index + j)%nat by lia.
  - intros [->|(j & item & Hj & Hr)%IH]%elem_of_cons.
    + exists 0%nat, x. by rewrite Nat.add_0_r.
    + exists (S j), item. split; [done|].
      by replace (index + S j)%nat with (S index + j)%nat by lia.
Qed.

Lemma settleBatch_rejected (batch : list T) (index j : nat) (item : T)
    (e : Thrown) :
  batch !! j = Some item →
  processor item (index + j)%nat = Rejected e →
  (settleBatch processor batch index).2 ≠ [].
Proof.
  revert index j. induction batch as [|x rest IH]; intros index j; [done|].
  simpl. specialize (IH (S index)).
  destruct (settleBatch processor rest (S index)) as [values reasons].
  destruct j as [|j]; simpl.
  - intros [= ->]. rewrite Nat.add_0_r. by intros ->.
  - intros Hj Hr. replace (index + S j)%nat with (S index + j)%nat in Hr by lia.
    specialize (IH j Hj Hr). by destruct (processor x index).
Qed.

Lemma promiseAll_rejected (batch : list T) (index batchNo : nat) :
  (settleBatch processor batch index).2 ≠ [] →
  ∃ e, promiseAll processor firstRejected batch index batchNo = Rejected e
       ∧ e ∈ (settleBatch processor batch index).2.
Proof.
  unfold promiseAll.
  destruct (settleBatch processor batch index) as [values [|e reasons]];
    [done|]. intros _. simpl.
  eexists. split; [done|].
  destruct ((e :: reasons) !! _) as [e'|] eqn:E; simpl.
  - by eapply list_elem_of_lookup_2.
  - by left.
Qed.

Lemma promiseAll_fulfilled (batch : list T) (index batchNo : nat) :
  (∀ j item, batch !! j = Some item →
             ∃ v, processor item (index + j)%nat = Fulfilled v) →
  ∃ values, promiseAll processor firstRejected batch index batchNo
            = Fulfilled values.
Proof.
  intros Hall. unfold promiseAll.
  destruct (settleBatch processor batch index) as [values [|e reasons]] eqn:E;
    [by eexists|].
  destruct (settleBatch_reasons batch index e) as (j & item & Hj & Hr).
  { rewrite E. by left. }
  destruct (Hall j item Hj) as [v Hv]. congruence.
Qed.

(** From index [i] on: when the item at index [k] is the first to be
    rejected, the batches before its own are processed, its own batch is
    started in full, and nothing is called after it. *)
Lemma batches_rejecting (items : list T) (batchSize : nat) (batchDelayMs : Z)
    (onProgress : bool) (k : nat) (item : T) (reason : Thrown)
    (fuel i batchNo : nat) (results : list R) (observed : list BatchObserved) :
  (0 < batchSize)%nat →
  (length items - i ≤ fuel)%nat →
  (i ≤ k)%nat →
  items !! k = Some item →
  processor item k = Rejected reason →
  (∀ j x, (i ≤ j < k)%nat → items !! j = Some x →
          ∃ v, processor x j = Fulfilled v) →
  ∃ e added j x,
    batches processor firstRejected items batchSize batchDelayMs onProgress
      fuel i batchNo results observed = (Rejected e, observed ++ added)
    ∧ processedOf added
      = seq i (Nat.min (length items - i) (((k - i) / batchSize + 1) * batchSize))
    ∧ items !! j = Some x ∧ processor x j = Rejected e
    ∧ (i + (k - i) / batchSize * batchSize ≤ j
       < i + (k - i) / batchSize * batchSize + batchSize)%nat.
Proof.
  intros Hpos. revert i batchNo results observed.
  induction fuel as [|fuel IH];
    intros i batchNo results observed Hfuel Hik Hk Hr Hbefore.
  { apply lookup_lt_Some in Hk. lia. }
  pose proof (lookup_lt_Some _ _ _ Hk) as HkN.
  cbn [batches]. destruct (Nat.ltb_spec i (length items)) as [_|?]; [|lia].
  set (batch := take batchSize (drop i items)).
  assert (Hbatch : length batch = Nat.min batchSize (length items - i)).
  { subst batch. by rewrite length_take, length_drop. }
  destruct (Nat.lt_ge_cases k (i + batchSize)) as [Hin|Hout].
  - assert (Hq : ((k - i) / batchSize = 0)%nat) by (apply Nat.div_small; lia).
    rewrite Hq. simpl Nat.mul. rewrite !Nat.add_0_r.
    destruct (promiseAll_rejected batch i batchNo) as (e & -> & He).
    { apply (settleBatch_rejected batch i (k - i) item reason).
      - subst batch. rewrite lookup_take_lt, lookup_drop by lia.
        by replace (i + (k - i))%nat with k by lia.
      - by replace (i + (k - i))%nat with k by lia. }
    apply settleBatch_reasons in He as (j & x & Hj & Hx).
    assert (j < batchSize)%nat.
    { apply lookup_lt_Some in Hj. lia. }
    subst batch. rewrite lookup_take_lt, lookup_drop in Hj by lia.
    exists e, (map Processed (seq i (length (take batchSize (drop i items))))),
      (i + j)%nat, x.
    destruct (processedOf_called
                (seq i (length (take batchSize (drop i items))))) as [-> _].
    rewrite Hbatch. split; [done|]. split; [f_equal; lia|].
    split; [done|]. split; [done|]. lia.
  - destruct (promiseAll_fulfilled batch i batchNo) as [values ->].
    { intros j x Hj. assert (j < batchSize)%nat.
      { apply lookup_lt_Some in Hj. lia. }
      subst batch. rewrite lookup_take_lt, lookup_drop in Hj by lia.
      apply Hbefore; [lia|done]. }
    destruct (IH (i + batchSize)%nat (S batchNo) (results ++ values)
                (observed ++ map Processed (seq i (length batch))
                 ++ (if onProgress
                     then [Progress (Nat.min (i + batchSize) (length items))
                             (length items)]
                     else [])
                 ++ (if (i + batchSize <? length items)%nat
                     then [BatchWaited batchDelayMs] else []))
                ltac:(lia) Hout Hk Hr)
      as (e & added & j & x & -> & Hproc & Hj & Hx & Hrange).
    { intros j x Hj. apply Hbefore. lia. }
    assert (Hq : ((k - i) / batchSize
                  = (k - (i + batchSize)) / batchSize + 1)%nat).
    { replace (k - i)%nat with (k - (i + batchSize) + 1 * batchSize)%nat by lia.
      by rewrite Nat.div_add by lia. }
    exists e, (map Processed (seq i (length batch))
               ++ (if onProgress
                   then [Progress (Nat.min (i + batchSize) (length items))
                           (length items)]
                   else [])
               ++ (if (i + batchSize <? length items)%nat
                   then [BatchWaited batchDelayMs] else [])
               ++ added), j, x.
    rewrite <- !app_assoc. split; [done|].
    rewrite !processedOf_app.
    destruct (processedOf_called (seq i (length batch))) as [-> _].
    rewrite Hproc, Hq.
    set (q := ((k - (i + batchSize)) / batchSize)%nat) in *.
    assert (Hprogress : ∀ c t,
               processedOf (if onProgress then [Progress c t] else []) = [])
      by (by destruct onProgress).
    assert (Hwait : processedOf (if (i + batchSize <? length items)%nat
                                 then [BatchWaited batchDelayMs] else []) = [])
      by (by destruct (i + batchSize <? length items)%nat).
    rewrite Hprogress, Hwait. simpl app.
    assert (Hlen : length batch = batchSize) by lia. rewrite Hlen.
    split.
    { rewrite <- seq_app. f_equal. nia. }
    split; [done|]. split; [done|]. nia.
Qed.

End ProcessBatchRejecting.

(** X8. When the item at index [k] is the first one whose processing is
    rejected, [processBatch] is rejected with the reason of an item of
    the batch of [k]; the processor has then been called on every item
    of that batch and of the batches before it, and on no item of a
    later batch. *)
Theorem processBatch_rejecting {T R : Type} (processor : T → nat → Outcome R)
    (firstRejected : nat → nat) (items : list T) (size : positive)
    (batchDelayMs : option Z) (onProgress : bool)
    (k : nat) (item : T) (reason : Thrown) :
  items !! k = Some item →
  processor item k = Rejected reason →
  (∀ j x, (j < k)%nat → items !! j = Some x →
          ∃ v, processor x j = Fulfilled v) →
  ∃ e observed j x,
    processBatch processor firstRejected items (Some (Zpos size)) batchDelayMs
      onProgress = Some (Rejected e, observed)
    ∧ processedOf observed
      = seq 0 (Nat.min (length items)
                 ((k / Pos.to_nat size + 1) * Pos.to_nat size))
    ∧ items !! j = Some x ∧ processor x j = Rejected e
    ∧ (j / Pos.to_nat size = k / Pos.to_nat size)%nat.
Proof.
  intros Hk Hr Hbefore. unfold processBatch.
  change (default 10%Z (Some (Z.pos size))) with (Z.pos size). cbv iota.
  destruct (batches_rejecting processor firstRejected items (Pos.to_nat size)
              (default 3000%Z batchDelayMs) onProgress k item reason
              (length items) 0 0 [] [] ltac:(lia) ltac:(lia) ltac:(lia) Hk Hr)
    as (e & added & j & x & -> & Hproc & Hj & Hx & Hrange).
  { intros j x Hj. apply Hbefore. lia. }
  rewrite !Nat.sub_0_r in *. simpl in Hrange.
  exists e, added, j, x. split; [done|]. split; [done|].
  split; [done|]. split; [done|].
  set (b := Pos.to_nat size) in *. assert (0 < b)%nat by (subst b; lia).
  symmetry. apply (Nat.div_unique j b (k / b) (j - k / b * b)); lia.
Qed.

Lemma processBatch_rejecting_witness :
  ∃ e observed j x,
    processBatch
      (λ (item : nat) index, if (index =? 2)%nat
                             then Rejected (ErrorInstance (js "boom"))
                             else Fulfilled item)
      (λ _, 0%nat) [10; 11; 12; 13; 14]%nat (Some 2%Z) None false
    = Some (Rejected e, observed)
    ∧ processedOf observed
      = seq 0 (Nat.min 5 ((2 / Pos.to_nat 2 + 1) * Pos.to_nat 2))
    ∧ [10; 11; 12; 13; 14]%nat !! j = Some x
    ∧ (if (j =? 2)%nat then Rejected (ErrorInstance (js "boom"))
       else Fulfilled x) = Rejected e
    ∧ (j / Pos.to_nat 2 = 2 / Pos.to_nat 2)%nat.
Proof.
  apply (processBatch_rejecting
           (λ (item : nat) index, if (index =? 2)%nat
                                  then Rejected (ErrorInstance (js "boom"))
                                  else Fulfilled item)
           (λ _, 0%nat) [10; 11; 12; 13; 14]%nat 2%positive None false
           2%nat 12%nat (ErrorInstance (js "boom"))).
  - reflexivity.
  - reflexivity.
  - intros j x Hj _. exists x.
    destruct j as [|[|j]]; [reflexivity|reflexivity|lia].
Defined.

(** ** The parser of the single classification and the parser of the plan *)

(** X9. For a category set that is not empty and a limit of at least 1,
    [parseClassifierResponse] raises nothing, whatever the text: it
    returns between 1 and [maxCategoriesPerRepo] names, every one the
    name of a category of the set, and either with an empty reason or as
    the name of the first category alone with the reason of a failed
    parse. *)
Theorem parseClassifierResponse_validated (config : Config) (text : jsstring)
    (first : Category) (others : list Category) :
  (1 ≤ maxCategoriesPerRepo config)%Z →
  ∃ result,
    parseClassifierResponse config text (first :: others) = Fulfilled result
    ∧ (1 ≤ Z.of_nat (length (resultCategories result))
       ≤ maxCategoriesPerRepo config)%Z
    ∧ Forall (λ c, c ∈ validCategoryNames (first :: others))
        (resultCategories result)
    ∧ (reason result = []
       ∨ result = {| resultCategories := [name first];
                     reason := js "Parsing failed, using default category" |}).
Proof.
  intros Hlimit.
  assert (Hfirst : Forall (λ c, c ∈ validCategoryNames (first :: others))
                     [name first]).
  { repeat constructor. }
  unfold parseClassifierResponse, trySingle.
  destruct (JSON_parse (trim text)) as [parsed rest| |]; cbn [firstName].
  2,3: eexists; split; [reflexivity|]; cbn [resultCategories reason length];
       split; [lia|]; split; [done|]; by right.
  destruct (categoriesOf parsed) as [cs|]; cbn [firstName].
  2: eexists; split; [reflexivity|]; cbn [resultCategories reason length];
     split; [lia|]; split; [done|]; by right.
  destruct (validCategories config (validCategoryNames (first :: others)) cs)
    as [|c validated] eqn:Evalid.
  - eexists. split; [reflexivity|]. cbn [resultCategories reason length].
    split; [lia|]. split; [done|]. by left.
  - eexists. split; [reflexivity|]. cbn [resultCategories reason].
    rewrite <- Evalid. split; [|split; [apply validCategories_valid|by left]].
    rewrite validCategories_filter in *.
    apply taken_within_limit; [done|]. by rewrite Evalid.
Qed.

Lemma parseClassifierResponse_validated_witness :
  ∃ result,
    parseClassifierResponse Scenario.config
      (jsq "{'categories': ['Dev: Tools', 'Other', 'AI: LLM']}")
      (Scenario.category "AI: LLM"
       :: [Scenario.category "Web: Frontend"; Scenario.category "Dev: Tools"])
    = Fulfilled result
    ∧ (1 ≤ Z.of_nat (length (resultCategories result))
       ≤ maxCategoriesPerRepo Scenario.config)%Z
    ∧ Forall (λ c, c ∈ validCategoryNames
                         (Scenario.category "AI: LLM"
                          :: [Scenario.category "Web: Frontend";
                              Scenario.category "Dev: Tools"]))
        (resultCategories result)
    ∧ (reason result = []
       ∨ result = {| resultCategories := [name (Scenario.category "AI: LLM")];
                     reason := js "Parsing failed, using default category" |}).
Proof.
  apply (parseClassifierResponse_validated Scenario.config
           (jsq "{'categories': ['Dev: Tools', 'Other', 'AI: LLM']}")
           (Scenario.category "AI: LLM")
           [Scenario.category "Web: Frontend"; Scenario.category "Dev: Tools"]).
  simpl. lia.
Defined.

(** X10. With an empty category set [parseClassifierResponse] returns
    nothing: whatever the text, the [try] block raises (no name is valid,
    and the first category does not exist) and the [catch] block raises
    again on the first category, so the call is rejected with a
    [TypeError]. *)
Theorem parseClassifierResponse_empty_category_set (config : Config)
    (text : jsstring) :
  parseClassifierResponse config text []
  = Rejected (ErrorInstance (js "TypeError")).
Proof.
  unfold parseClassifierResponse, trySingle.
  destruct (JSON_parse (trim text)) as [parsed rest| |]; [|done|done].
  destruct (categoriesOf parsed) as [cs|]; [|done].
  assert (Hnone : validCategories config (validCategoryNames []) cs = []).
  { pose proof (validCategories_valid config (validCategoryNames []) cs) as H.
    destruct (validCategories config (validCategoryNames []) cs) as [|c l];
      [done|].
    apply Forall_cons in H as [H _]. by apply elem_of_nil in H. }
  by rewrite Hnone.
Qed.

Lemma mapM_planned_named (cs : list json) (categories : list PlannedCategory) :
  mapM planned cs = Some categories →
  length categories = length cs
  ∧ Forall (λ c, truthy (plannedName c) = true) categories.
Proof.
  intros H. split; [symmetry; by eapply length_mapM|].
  apply mapM_Some in H. induction H as [|c p cs ps Hp _ IH]; [done|].
  constructor; [|done].
  assert (Horelse : ∀ v fallback, fallback ≠ [] →
                                  truthy (orElse v fallback) = true).
  { intros [x|] fallback Hne; simpl.
    - destruct (truthy x) eqn:E; [done|]. simpl.
      by rewrite bool_decide_eq_false_2.
    - by rewrite bool_decide_eq_false_2. }
  destruct c as [|b|lit|s|l|members]; simpl in Hp; simplify_eq; try done.
  simpl. by apply Horelse.
Qed.

(** X11. On the text of a planning response the only error
    [planCategories] raises is its own fixed one; otherwise it returns
    one category per element of the [categories] array of the response,
    and the name of each is truthy: a missing, empty or otherwise falsy
    name has become Unnamed. *)
Theorem parsePlan_named (text : jsstring) :
  parsePlan text
  = Rejected (ErrorInstance (js "Failed to parse Gemini category response"))
  ∨ ∃ parsed rest cs categories,
      JSON_parse text = Parsed parsed rest
      ∧ categoriesOf parsed = Some cs
      ∧ parsePlan text = Fulfilled categories
      ∧ length categories = length cs
      ∧ Forall (λ c, truthy (plannedName c) = true) categories.
Proof.
  unfold parsePlan.
  destruct (JSON_parse text) as [parsed rest| |] eqn:Eparse; [|by left|by left].
  destruct (categoriesOf parsed) as [cs|] eqn:Ecs; [|by left].
  destruct (mapM planned cs) as [categories|] eqn:E; [|by left].
  right. exists parsed, rest, cs, categories.
  destruct (mapM_planned_named cs categories E). done.
Qed.

(** ** The fallback of the batch parser *)

Section FallbackFacts.

Variable config : Config.
Variable categories : list Category.

Let names := validCategoryNames categories.
Let default := defaultCategory categories.

Lemma fallbackLoop_lookup matches (m : ResultMap) ident :
  fallbackLoop config names matches m !! KeyStr ident
  = match m !! KeyStr ident with
    | Some v => Some v
    | None => extracted config names matches ident
    end.
Proof.
  revert m. induction matches as [|[i str] rest IH]; intros m.
  { simpl. by destruct (m !! KeyStr ident). }
  cbn [fallbackLoop]. rewrite IH. unfold extracted.
  rewrite filter_cons. cbn [fst snd].
  destruct (decide (i = ident)) as [->|Hne].
  - cbn [map fst snd].
    destruct (fallbackCategories config names str) as [|c cats] eqn:Ecats.
    + by rewrite filter_cons_False by (intros H; by apply H).
    + rewrite filter_cons_True by done.
      destruct (m !! KeyStr ident) eqn:Em; [by rewrite Em|].
      by rewrite lookup_insert_eq.
  - destruct (fallbackCategories config names str) as [|c cats]; [done|].
    destruct (m !! KeyStr i) eqn:Ei; [done|].
    rewrite lookup_insert_ne; [done|]. congruence.
Qed.

Lemma fallbackLoop_other matches (m : ResultMap) key :
  (∀ ident, key ≠ KeyStr ident) →
  fallbackLoop config names matches m !! key = m !! key.
Proof.
  intros Hkey. revert m. induction matches as [|[i str] rest IH]; intros m;
    [done|].
  cbn [fallbackLoop]. rewrite IH.
  destruct (fallbackCategories config names str) as [|c cats]; [done|].
  destruct (m !! KeyStr i); [done|]. by rewrite lookup_insert_ne.
Qed.


Lemma fillDefaults_lookup repos (m : ResultMap) key :
  fillDefaults default repos m !! key
  = match m !! key with
    | Some v => Some v
    | None => if decide (key ∈ map (λ repo, KeyStr (id repo)) repos)
              then Some [default] else None
    end.
Proof.
  revert m. induction repos as [|repo rest IH]; intros m.
  { simpl. by destruct (m !! key). }
  cbn [fillDefaults map]. rewrite IH.
  destruct (m !! KeyStr (id repo)) eqn:Erepo.
  - destruct (m !! key) eqn:Ek; [done|].
    assert (key ≠ KeyStr (id repo)) by congruence.
    destruct (decide (key ∈ map (λ repo, KeyStr (id repo)) rest)) as [Hin|Hout];
      destruct (decide (key ∈ KeyStr (id repo)
                              :: map (λ repo, KeyStr (id repo)) rest))
      as [Hin'|Hout']; try done.
    + exfalso. apply Hout'. by right.
    + apply elem_of_cons in Hin' as [?|?]; done.
  - destruct (decide (key = KeyStr (id repo))) as [->|Hne].
    + rewrite lookup_insert_eq, Erepo.
      destruct (decide (_ ∈ _ :: _)) as [|Hout]; [done|].
      exfalso. apply Hout. by left.
    + rewrite lookup_insert_ne by done.
      destruct (m !! key); [done|].
      destruct (decide (key ∈ map (λ repo, KeyStr (id repo)) rest)) as [Hin|Hout];
        destruct (decide (key ∈ KeyStr (id repo)
                                :: map (λ repo, KeyStr (id repo)) rest))
        as [Hin'|Hout']; try done.
      * exfalso. apply Hout'. by right.
      * apply elem_of_cons in Hin' as [?|?]; done.
Qed.


End FallbackFacts.

(** X12. When [JSON.parse] raises on the text it is given, the returned
    map is read off the matches of the regular expression alone: an id
    is bound to the valid names of the first match that carries it and
    has a valid name (later matches of the same id are ignored); an id of
    the batch without such a match is bound to the default alone; no
    other key is in the map. *)
Theorem parseBatchClassifierResponse_fallback (config : Config)
    (text : jsstring) (repos : list BatchRepoInfo) (categories : list Category)
    (key : MapKey) :
  (∀ parsed rest, JSON_parse (jsonText text) ≠ Parsed parsed rest) →
  parseBatchClassifierResponse config text repos categories !! key
  = match key with
    | KeyStr ident =>
        match extracted config (validCategoryNames categories)
                (linePatternMatches text) ident with
        | Some cats => Some cats
        | None => if decide (ident ∈ map id repos)
                  then Some [defaultCategory categories] else None
        end
    | _ => None
    end.
Proof.
  intros Hraise. unfold parseBatchClassifierResponse, parseFrom, tryBlock.
  destruct (JSON_parse (jsonText text)) as [parsed rest| |] eqn:Eparse;
    [by destruct (Hraise parsed rest)| |].
  all: unfold catchBlock; rewrite fillDefaults_lookup.
  all: destruct key as [ident|lit| |position].
  all: try (rewrite fallbackLoop_other by done; rewrite lookup_empty;
            destruct (decide (_ ∈ _)) as [Hin|]; [|done];
            apply list_elem_of_fmap in Hin as (repo & ? & _); done).
  all: rewrite fallbackLoop_lookup, lookup_empty.
  all: destruct (extracted _ _ _ _); [done|].
  all: destruct (decide (KeyStr ident ∈ map (λ repo, KeyStr (id repo)) repos))
         as [Hin|Hout];
       destruct (decide (ident ∈ map id repos)) as [Hin'|Hout']; try done.
  - exfalso. apply Hout'. apply list_elem_of_fmap in Hin as (repo & [= ->] & ?).
    apply list_elem_of_fmap. by exists repo.
  - exfalso. apply Hout. apply list_elem_of_fmap in Hin' as (repo & -> & ?).
    apply list_elem_of_fmap. by exists repo.
  - exfalso. apply Hout'. apply list_elem_of_fmap in Hin as (repo & [= ->] & ?).
    apply list_elem_of_fmap. by exists repo.
  - exfalso. apply Hout. apply list_elem_of_fmap in Hin' as (repo & -> & ?).
    apply list_elem_of_fmap. by exists repo.
Qed.

Lemma parseBatchClassifierResponse_fallback_witness :
  parseBatchClassifierResponse Scenario.config (Scenario.truncated 170)
    Scenario.batch Scenario.categories !! KeyStr (js "octo/alpha")
  = match extracted Scenario.config (validCategoryNames Scenario.categories)
            (linePatternMatches (Scenario.truncated 170)) (js "octo/alpha") with
    | Some cats => Some cats
    | None => if decide (js "octo/alpha" ∈ map id Scenario.batch)
              then Some [defaultCategory Scenario.categories] else None
    end.
Proof.
  apply (parseBatchClassifierResponse_fallback Scenario.config
           (Scenario.truncated 170) Scenario.batch Scenario.categories
           (KeyStr (js "octo/alpha"))).
  intros parsed rest. vm_compute. discriminate.
Defined.



(** ** The repair of a truncated response *)

Lemma countChar_app (c : N) (a b : list N) :
  countChar c (a ++ b) = (countChar c a + countChar c b)%Z.
Proof.
  unfold countChar, jsstring, char16. rewrite filter_app, length_app. lia.
Qed.

Lemma countChar_nonneg (c : N) (s : list N) : (0 ≤ countChar c s)%Z.
Proof. unfold countChar. lia. Qed.

Lemma countChar_repeat_same (c : N) (n : Z) :
  countChar c (repeatChar c n) = Z.max 0 n.
Proof.
  unfold countChar, repeatChar, jsstring, char16.
  assert (H : ∀ k, filter (λ d, d = c) (replicate k c) = replicate k c).
  { induction k as [|k IH]; [done|]. simpl.
    rewrite filter_cons_True by done. by rewrite IH. }
  rewrite H, length_replicate. lia.
Qed.

Lemma countChar_repeat_other (c d : N) (n : Z) :
  d ≠ c → countChar c (repeatChar d n) = 0%Z.
Proof.
  intros Hne. unfold countChar, repeatChar, jsstring, char16.
  assert (H : ∀ k, filter (λ x, x = c) (replicate k d) = []).
  { induction k as [|k IH]; [done|]. simpl.
    by rewrite filter_cons_False by done. }
  by rewrite H.
Qed.

Lemma countChar_slices (c : N) (s : list N) (k : Z) :
  (0 ≤ k)%Z →
  countChar c s = (countChar c (sliceTo s k) + countChar c (sliceFrom s k))%Z.
Proof.
  intros Hk. unfold sliceTo, sliceFrom.
  destruct (Z.ltb_spec k 0); [lia|].
  by rewrite <- countChar_app, take_drop.
Qed.

Lemma includesChar_count (s : list N) (c : N) :
  if includesChar s c then (1 ≤ countChar c s)%Z else countChar c s = 0%Z.
Proof.
  unfold includesChar, countChar, jsstring, char16.
  induction s as [|d s IH]; [done|].
  simpl. destruct (N.eqb_spec c d) as [->|Hne]; simpl.
  - rewrite filter_cons_True by done. simpl. lia.
  - rewrite filter_cons_False by done. exact IH.
Qed.

(** X14. Whenever the repair step drops the fragment after the last
    closing brace, the text it returns has strictly more closing braces
    than opening ones: the braces to add are counted before the
    fragment, which holds an opening brace, is dropped. *)
Theorem repairTruncated_over_closes (jsonStr : jsstring) :
  dropsFragment jsonStr →
  (countChar lbrace (repairTruncated jsonStr)
   < countChar rbrace (repairTruncated jsonStr))%Z.
Proof.
  unfold repairTruncated, dropsFragment. cbv zeta.
  set (last := lastIndexOfChar jsonStr rbrace).
  set (afterLast := sliceFrom jsonStr (last + 1)).
  intros (Hlast & Hopens & Hcloses).
  pose proof (includesChar_count afterLast lbrace) as Hopen.
  pose proof (includesChar_count afterLast rbrace) as Hclose.
  rewrite Hopens in Hopen. rewrite Hcloses in Hclose.
  rewrite Hopens, Hcloses. simpl andb.
  destruct (Z.ltb_spec 0 last) as [_|?]; [|lia].
  rewrite !countChar_app, !countChar_repeat_same.
  rewrite !(countChar_repeat_other _ rbracket) by done.
  rewrite (countChar_repeat_other lbrace rbrace) by done.
  pose proof (countChar_slices lbrace jsonStr (last + 1) ltac:(lia)) as Hl.
  pose proof (countChar_slices rbrace jsonStr (last + 1) ltac:(lia)) as Hr.
  fold afterLast in Hl, Hr.
  pose proof (countChar_nonneg lbrace (sliceTo jsonStr (last + 1))).
  lia.
Qed.

Lemma repairTruncated_over_closes_witness :
  (countChar lbrace (repairTruncated (trim (Scenario.truncated 170)))
   < countChar rbrace (repairTruncated (trim (Scenario.truncated 170))))%Z.
Proof.
  apply (repairTruncated_over_closes (trim (Scenario.truncated 170))).
  vm_compute. repeat split; reflexivity.
Defined.

(** ** The requests made for one item *)

(** The options the command gives [retryWithBackoff]. *)
Lemma retryWithBackoff_item (T : Type) :
  retryWithBackoff (T:=T)
    {| maxRetries := Some 3%Z; initialDelayMs := Some 500%Z; maxDelayMs := None |}
  = attempts 3 500 5000 4 0 None.
Proof. reflexivity. Qed.

Section ItemFacts.

Variable env : Env.
Variable config : Config.
Variable repo : Repo.
Variable listIds : list jsstring.
Hypothesis some_list : listIds ≠ [].

(** One attempt: nothing is sent when a parameter check fails; else the
    node id is requested, and the membership only with a node id that is
    not empty. *)
Lemma addOnce_cases (attempt : nat) :
  (∃ e, addOnce env config repo listIds attempt = (Rejected e, []))
  ∨ (∃ e, addOnce env config repo listIds attempt
          = (Rejected e, [NodeIdRequest (ownerLogin repo) (repoName repo)]))
  ∨ (∃ settled repositoryId,
       repositoryId ≠ []
       ∧ addOnce env config repo listIds attempt
         = (settled, [NodeIdRequest (ownerLogin repo) (repoName repo);
                      MembershipRequest repositoryId listIds])).
Proof.
  unfold addOnce, getRepositoryNodeId, addRepoToGitHubLists, isEmpty.
  destruct (checkParameters _ _ _) as [e|]; [left; by exists e|].
  destruct (nodeIdAnswer env repo attempt) as [repositoryId|e];
    [|right; left; by exists e].
  destruct (bool_decide (githubToken config = [])); [right; left; by eexists|].
  destruct (bool_decide_reflect (repositoryId = [])) as [|Hne];
    [right; left; by eexists|].
  destruct listIds as [|l ls] eqn:E; [done|].
  right. right. by eexists _, repositoryId.
Qed.

Lemma attempts_requests (remaining : nat) (attempt : Z)
    (lastError : option Thrown) (calls : nat) (requests : list NetEvent) :
  (0 ≤ attempt)%Z →
  (attempt + Z.of_nat remaining = 4)%Z →
  ∃ settled calls' added,
    run (attempting env config repo listIds)
      (attempts 3 500 5000 remaining attempt lastError) (calls, requests)
    = (settled, (calls', requests ++ added))
    ∧ Forall (Disciplined repo listIds) added
    ∧ (length (List.filter isNodeIdRequest added) ≤ remaining)%nat
    ∧ (length (List.filter isMembershipRequest added)
       ≤ length (List.filter isNodeIdRequest added))%nat
    ∧ ∀ value, settled = Fulfilled value →
               ∃ repositoryId,
                 last added = Some (MembershipRequest repositoryId listIds).
Proof.
  revert attempt lastError calls requests.
  induction remaining as [|remaining IH];
    intros attempt lastError calls requests Hattempt Hsum.
  { eexists _, calls, []. cbn [attempts run]. rewrite app_nil_r.
    split; [reflexivity|]. split; [constructor|]. split; [simpl; lia|].
    split; [simpl; lia|]. intros value H. discriminate H. }
  cbn [attempts run attempting fst snd].
  assert (Hwait : (attempt <? 3)%Z = true →
                  Disciplined repo listIds
                    (Slept (Z.min (500 * 2 ^ attempt) 5000))).
  { intros Hlt%Z.ltb_lt. simpl.
    assert (attempt = 0 ∨ attempt = 1 ∨ attempt = 2)%Z as [-> | [-> | ->]] by lia;
      cbn; lia. }
  assert (Hnode : Disciplined repo listIds
                    (NodeIdRequest (ownerLogin repo) (repoName repo)))
    by done.
  destruct (addOnce_cases calls)
    as [[e ->]|[[e ->]|(settled & repositoryId & Hid & ->)]].
  - destruct (attempt <? 3)%Z eqn:Elt; cbn [run attempting fst snd].
    + destruct (IH (attempt + 1)%Z (Some (toError e)) (S calls)
                  ((requests ++ [])
                   ++ [Slept (Z.min (500 * 2 ^ attempt) 5000)])
                  ltac:(lia) ltac:(lia))
        as (settled & calls' & added & -> & Hall & Hnodes & Hmems & Hlast).
      exists settled, calls',
        (Slept (Z.min (500 * 2 ^ attempt) 5000) :: added).
      rewrite app_nil_r, <- app_assoc. split; [done|].
      split; [repeat (apply Forall_cons; split; [by auto|]); done|]. cbn [List.filter isNodeIdRequest
                                         isMembershipRequest].
      split; [lia|]. split; [lia|].
      intros value Hv. destruct (Hlast value Hv) as [rid Hrid].
      exists rid. destruct added; [done|]. done.
    + destruct (IH (attempt + 1)%Z (Some (toError e)) (S calls)
                  (requests ++ []) ltac:(lia) ltac:(lia))
        as (settled & calls' & added & -> & Hall & Hnodes & Hmems & Hlast).
      exists settled, calls', added. rewrite app_nil_r.
      split; [done|]. split; [done|]. split; [lia|]. done.
  - destruct (attempt <? 3)%Z eqn:Elt; cbn [run attempting fst snd].
    + destruct (IH (attempt + 1)%Z (Some (toError e)) (S calls)
                  ((requests ++ [NodeIdRequest (ownerLogin repo) (repoName repo)])
                   ++ [Slept (Z.min (500 * 2 ^ attempt) 5000)])
                  ltac:(lia) ltac:(lia))
        as (settled & calls' & added & -> & Hall & Hnodes & Hmems & Hlast).
      exists settled, calls',
        (NodeIdRequest (ownerLogin repo) (repoName repo)
         :: Slept (Z.min (500 * 2 ^ attempt) 5000) :: added).
      rewrite <- !app_assoc. split; [done|].
      split; [repeat (apply Forall_cons; split; [by auto|]); done|].
      cbn [List.filter isNodeIdRequest isMembershipRequest length].
      split; [lia|]. split; [lia|].
      intros value Hv. destruct (Hlast value Hv) as [rid Hrid].
      exists rid. destruct added; [done|]. done.
    + destruct (IH (attempt + 1)%Z (Some (toError e)) (S calls)
                  (requests ++ [NodeIdRequest (ownerLogin repo) (repoName repo)])
                  ltac:(lia) ltac:(lia))
        as (settled & calls' & added & -> & Hall & Hnodes & Hmems & Hlast).
      exists settled, calls',
        (NodeIdRequest (ownerLogin repo) (repoName repo) :: added).
      rewrite <- !app_assoc. split; [done|].
      split; [repeat (apply Forall_cons; split; [by auto|]); done|].
      cbn [List.filter isNodeIdRequest isMembershipRequest length].
      split; [lia|]. split; [lia|].
      intros value Hv. destruct (Hlast value Hv) as [rid Hrid].
      exists rid. destruct added; [done|]. done.
  - assert (Hmember : Disciplined repo listIds
                        (MembershipRequest repositoryId listIds)) by done.
    destruct settled as [value|e].
    + cbn [run]. eexists _, (S calls), _. split; [reflexivity|].
      split; [repeat (apply Forall_cons; split; [by auto|]); done|].
      cbn [List.filter isNodeIdRequest isMembershipRequest length].
      split; [lia|]. split; [lia|]. intros _ _. by exists repositoryId.
    + destruct (attempt <? 3)%Z eqn:Elt; cbn [run attempting fst snd].
      * destruct (IH (attempt + 1)%Z (Some (toError e)) (S calls)
                    ((requests
                      ++ [NodeIdRequest (ownerLogin repo) (repoName repo);
                          MembershipRequest repositoryId listIds])
                     ++ [Slept (Z.min (500 * 2 ^ attempt) 5000)])
                    ltac:(lia) ltac:(lia))
          as (settled & calls' & added & -> & Hall & Hnodes & Hmems & Hlast).
        exists settled, calls',
          (NodeIdRequest (ownerLogin repo) (repoName repo)
           :: MembershipRequest repositoryId listIds
           :: Slept (Z.min (500 * 2 ^ attempt) 5000) :: added).
        rewrite <- !app_assoc. split; [done|].
        split; [repeat (apply Forall_cons; split; [by auto|]); done|].
        cbn [List.filter isNodeIdRequest isMembershipRequest length].
        split; [lia|]. split; [lia|].
        intros value Hv. destruct (Hlast value Hv) as [rid Hrid].
        exists rid. destruct added; [done|]. done.
      * destruct (IH (attempt + 1)%Z (Some (toError e)) (S calls)
                    (requests
                     ++ [NodeIdRequest (ownerLogin repo) (repoName repo);
                         MembershipRequest repositoryId listIds])
                    ltac:(lia) ltac:(lia))
          as (settled & calls' & added & -> & Hall & Hnodes & Hmems & Hlast).
        exists settled, calls',
          (NodeIdRequest (ownerLogin repo) (repoName repo)
           :: MembershipRequest repositoryId listIds :: added).
        rewrite <- !app_assoc. split; [done|].
        split; [repeat (apply Forall_cons; split; [by auto|]); done|].
        cbn [List.filter isNodeIdRequest isMembershipRequest length].
        split; [lia|]. split; [lia|].
        intros value Hv. destruct (Hlast value Hv) as [rid Hrid].
        exists rid. destruct added; [done|]. done.
Qed.

End ItemFacts.

(** X15. Whatever the network answers, the requests the command makes
    for one item are disciplined: every node id request is for the
    repository of the item, every membership request carries a
    repository id that is not empty and exactly the list ids of the
    categories of the item (never an empty list), every wait is one of
    500, 1000 and 2000 ms, at most four node id requests are made and
    no more membership requests than node id requests; and the item is
    reported as a success only when the last request made for it was a
    membership request. *)
Theorem addToLists_requests_disciplined (env : Env) (config : Config)
    (createdLists : gmap jsstring CreatedList) (results : ResultMap)
    (repo : Repo) :
  let listIds :=
    listIdsOf createdLists (default [] (results !! KeyStr (fullName repo))) in
  let item := addToLists env config createdLists results repo in
  Forall (Disciplined repo listIds) item.2
  ∧ (length (List.filter isNodeIdRequest item.2) ≤ 4)%nat
  ∧ (length (List.filter isMembershipRequest item.2)
     ≤ length (List.filter isNodeIdRequest item.2))%nat
  ∧ (success item.1 = true →
     ∃ repositoryId, last item.2 = Some (MembershipRequest repositoryId listIds)).
Proof.
  intros listIds item. subst item. unfold addToLists. fold listIds.
  destruct listIds as [|l ls] eqn:E.
  { simpl. split; [constructor|]. split; [lia|]. split; [lia|]. discriminate. }
  rewrite (retryWithBackoff_item unit).
  destruct (attempts_requests env config repo (l :: ls) ltac:(done)
              4 0 None 0 [] ltac:(lia) ltac:(lia))
    as (settled & calls' & added & -> & Hall & Hnodes & Hmems & Hlast).
  cbn [app]. destruct settled as [value|e]; cbn [fst snd success].
  - split; [done|]. split; [done|]. split; [done|]. intros _. by eapply Hlast.
  - split; [done|]. split; [done|]. split; [done|]. discriminate.
Qed.

Lemma attempting_step (env : Env) (config : Config) (repo : Repo)
    (listIds : list jsstring) (remaining : nat) (attempt : Z)
    (lastError : option Thrown) (calls : nat) (requests : list NetEvent)
    (e : Thrown) (events : list NetEvent) :
  addOnce env config repo listIds calls = (Rejected e, events) →
  run (attempting env config repo listIds)
    (attempts 3 500 5000 (S remaining) attempt lastError) (calls, requests)
  = run (attempting env config repo listIds)
      (attempts 3 500 5000 remaining (attempt + 1) (Some (toError e)))
      (S calls,
       requests ++ events
       ++ (if (attempt <? 3)%Z
           then [Slept (Z.min (500 * 2 ^ attempt) 5000)] else [])).
Proof.
  intros Honce. cbn [attempts run attempting fst snd]. rewrite Honce.
  destruct (attempt <? 3)%Z; cbn [run attempting fst snd];
    by rewrite <- ?app_assoc, ?app_nil_r.
Qed.

(** X16. An item with a list to be added to, whose node id request is
    rejected on each of the four attempts: the command asks for the node
    id four times, waits 500, 1000 and 2000 ms in between, never sends a
    membership request, and reports the item as failed with the message
    of the last rejection. *)
Theorem addToLists_node_id_never_resolved (env : Env) (config : Config)
    (createdLists : gmap jsstring CreatedList) (results : ResultMap)
    (repo : Repo) (reasons : nat → Thrown) :
  githubToken config ≠ [] → ownerLogin repo ≠ [] → repoName repo ≠ [] →
  listIdsOf createdLists (default [] (results !! KeyStr (fullName repo))) ≠ [] →
  (∀ attempt, nodeIdAnswer env repo attempt = Rejected (reasons attempt)) →
  addToLists env config createdLists results repo
  = ({| repoId := fullName repo; success := false; categories := None;
        error := Some (errMsg (reasons 3%nat)) |},
     [NodeIdRequest (ownerLogin repo) (repoName repo); Slept 500;
      NodeIdRequest (ownerLogin repo) (repoName repo); Slept 1000;
      NodeIdRequest (ownerLogin repo) (repoName repo); Slept 2000;
      NodeIdRequest (ownerLogin repo) (repoName repo)]).
Proof.
  intros Htoken Howner Hname Hlists Hnode. unfold addToLists.
  destruct (listIdsOf _ _) as [|l ls]; [done|].
  rewrite (retryWithBackoff_item unit).
  assert (Honce : ∀ attempt,
             addOnce env config repo (l :: ls) attempt
             = (Rejected (reasons attempt),
                [NodeIdRequest (ownerLogin repo) (repoName repo)])).
  { intros attempt. unfold addOnce, getRepositoryNodeId.
    by rewrite checkParameters_pass, Hnode. }
  rewrite !(attempting_step env config repo (l :: ls) _ _ _ _ _ _ _ (Honce _)).
  cbn [attempts run]. simpl. by destruct (reasons 3%nat).
Qed.

Lemma addToLists_node_id_never_resolved_witness :
  addToLists Scenario.unresolved Scenario.config Scenario.lists
    (parseBatchClassifierResponse Scenario.config Scenario.response
       Scenario.batch Scenario.categories)
    (Scenario.starred "octo" "alpha")
  = ({| repoId := fullName (Scenario.starred "octo" "alpha"); success := false;
        categories := None;
        error := Some (errMsg (ErrorInstance (js "attempt 3"))) |},
     [NodeIdRequest (js "octo") (js "alpha"); Slept 500;
      NodeIdRequest (js "octo") (js "alpha"); Slept 1000;
      NodeIdRequest (js "octo") (js "alpha"); Slept 2000;
      NodeIdRequest (js "octo") (js "alpha")]).
Proof.
  apply (addToLists_node_id_never_resolved Scenario.unresolved Scenario.config
           Scenario.lists
           (parseBatchClassifierResponse Scenario.config Scenario.response
              Scenario.batch Scenario.categories)
           (Scenario.starred "octo" "alpha")
           (λ attempt, ErrorInstance (js "attempt " ++ [48 + N.of_nat attempt]))).
  - discriminate.
  - discriminate.
  - discriminate.
  - vm_compute. discriminate.
  - reflexivity.
Defined.

(** ** The run of the command *)

Section AbortFacts.

Variable env : Env.
Variable config : Config.
Hypothesis no_token : githubToken config = [].

Lemma fetchReadmes_no_token (batchRepos : list Repo) :
  fetchReadmes env config batchRepos
  = (match batchRepos with
     | [] => Fulfilled []
     | _ :: _ => Rejected (ErrorInstance (js "Missing GitHub token parameter"))
     end, []).
Proof.
  induction batchRepos as [|repo rest IH]; [done|].
  cbn [fetchReadmes]. unfold fetchRepositoryReadme, checkParameters, isEmpty.
  rewrite no_token. rewrite bool_decide_eq_true_2 by done.
  rewrite IH. by destruct rest.
Qed.

End AbortFacts.

(** X17. Without a GitHub token the command does not get past the README
    fetch of the first batch: with repositories to classify and a
    positive batch size it is rejected with Missing GitHub token
    parameter before any request is made, and nothing is counted. A
    failure of the classification call is contained in its batch; this
    one is not. *)
Theorem classifyAndAddRepos_missing_token (env : Env) (config : Config)
    (repo : Repo) (repos : list Repo) (categories : list Category)
    (createdLists : gmap jsstring CreatedList) (size : positive) :
  githubToken config = [] →
  classifyBatchSize config = Zpos size →
  classifyAndAddRepos env config (repo :: repos) categories createdLists
  = Some (Raised (ErrorInstance (js "Missing GitHub token parameter"))
            {| tally := {| succeeded := 0; failed := 0 |}; trace := [] |}).
Proof.
  intros Htoken Hsize. unfold classifyAndAddRepos. rewrite Hsize.
  set (batchSize := Pos.to_nat size).
  assert (Hpos : (0 < batchSize)%nat) by (subst batchSize; lia).
  assert (Htotal : ∃ n, totalBatchesOf (repo :: repos) batchSize = S n).
  { unfold totalBatchesOf. cbn [length].
    assert (1 ≤ (S (length repos) + batchSize - 1) / batchSize)%nat.
    { apply Nat.div_le_lower_bound; lia. }
    destruct ((S (length repos) + batchSize - 1) / batchSize)%nat; [lia|].
    by eexists. }
  destruct Htotal as [n ->]. cbn [batchLoop]. unfold batchStep.
  rewrite (fetchReadmes_no_token env config Htoken).
  unfold batchOf. simpl drop.
  destruct batchSize as [|b]; [lia|]. done.
Qed.

Lemma classifyAndAddRepos_missing_token_witness :
  classifyAndAddRepos Scenario.reliable Scenario.noToken
    (Scenario.starred "octo" "alpha"
     :: [Scenario.starred "octo" "beta"; Scenario.starred "octo" "gamma"])
    Scenario.categories Scenario.lists
  = Some (Raised (ErrorInstance (js "Missing GitHub token parameter"))
            {| tally := {| succeeded := 0; failed := 0 |}; trace := [] |}).
Proof.
  apply (classifyAndAddRepos_missing_token Scenario.reliable Scenario.noToken
           (Scenario.starred "octo" "alpha")
           [Scenario.starred "octo" "beta"; Scenario.starred "octo" "gamma"]
           Scenario.categories Scenario.lists 2).
  - reflexivity.
  - reflexivity.
Defined.

Lemma omap_map_None {A B C} (f : B → option C) (g : A → B) (l : list A) :
  (∀ x, f (g x) = None) → omap f (map g l) = [].
Proof.
  intros H. unfold omap. induction l as [|x l IH]; [done|].
  simpl. by rewrite H.
Qed.

Lemma omap_map_Some {A B C} (f : B → option C) (g : A → B) (h : A → C)
    (l : list A) :
  (∀ x, f (g x) = Some (h x)) → omap f (map g l) = map h l.
Proof.
  intros H. unfold omap. induction l as [|x l IH]; [done|].
  simpl. by rewrite H, IH.
Qed.

Lemma filter_map_false {A B} (p : B → bool) (g : A → B) (l : list A) :
  (∀ x, p (g x) = false) → List.filter p (map g l) = [].
Proof.
  intros H. induction l as [|x l IH]; [done|]. simpl. by rewrite H.
Qed.

Section TraceFacts.

Variable env : Env.
Variable config : Config.
Variable repos : list Repo.
Variable categories : list Category.
Variable createdLists : gmap jsstring CreatedList.
Variables batchSize totalBatches : nat.
Hypothesis addressable : Addressable config repos.

(** What a turn of the loop adds to the trace: the README requests of
    the batch, its classification request, and then either the failure
    of the spinner alone or the work on the items. *)
Lemma batchStep_shape batchIdx st :
  ∃ st' infos work,
    batchStep env config repos categories createdLists batchSize totalBatches
      batchIdx st = Returned st'
    ∧ trace st'
      = trace st
        ++ map (λ repo, ReadmeRequested (ownerLogin repo) (repoName repo))
             (batchOf repos batchSize batchIdx)
        ++ ClassifyRequested batchIdx
             (map fullName (batchOf repos batchSize batchIdx))
        :: work
    ∧ readmesOf work = []
    ∧ classifiedOf work = []
    ∧ match oracleAnswer env batchIdx infos with
      | Rejected _ =>
          List.filter isItemWork work = []
          ∧ tally st'
            = {| succeeded := succeeded (tally st);
                 failed := failed (tally st)
                           + length (batchOf repos batchSize batchIdx) |}
      | Fulfilled _ =>
          List.filter isPause work
          = if (S batchIdx <? totalBatches)%nat
            then [Paused (batchDelay config)] else []
      end.
Proof.
  destruct (fetchReadmes_fulfilled env config (batchOf repos batchSize batchIdx))
    as (infos & Hfetch & Hids); [by apply batchOf_Addressable|].
  destruct (oracleAnswer env batchIdx infos) as [text|reason] eqn:Horacle.
  - eexists _, infos, _. split.
    { apply (batchStep_classified env config repos categories createdLists
               batchSize totalBatches batchIdx st infos _ text Hfetch Horacle). }
    rewrite Horacle. cbn [trace]. rewrite Hids.
    split; [reflexivity|]. unfold readmesOf, classifiedOf.
    rewrite !omap_app, !List.filter_app, !omap_map_None, !filter_map_false
      by done.
    by destruct (S batchIdx <? totalBatches)%nat.
  - eexists _, infos, _. split.
    { apply (batchStep_classification_failed env config repos categories
               createdLists batchSize totalBatches batchIdx st infos _ reason
               Hfetch Horacle). }
    rewrite Horacle. cbn [trace tally]. rewrite Hids.
    split; [reflexivity|]. done.
Qed.

Lemma take_batches remaining batchIdx :
  take (S remaining * batchSize) (drop (batchIdx * batchSize) repos)
  = batchOf repos batchSize batchIdx
    ++ take (remaining * batchSize) (drop (S batchIdx * batchSize) repos).
Proof.
  unfold batchOf.
  replace (S remaining * batchSize)%nat with (batchSize + remaining * batchSize)%nat
    by lia.
  rewrite <- take_take_drop, drop_drop. do 3 f_equal. lia.
Qed.

Lemma readmesOf_app (a b : list Event) :
  readmesOf (a ++ b) = readmesOf a ++ readmesOf b.
Proof. apply omap_app. Qed.

Lemma classifiedOf_app (a b : list Event) :
  classifiedOf (a ++ b) = classifiedOf a ++ classifiedOf b.
Proof. apply omap_app. Qed.

Lemma readmesOf_requests (l : list Repo) :
  readmesOf (map (λ repo, ReadmeRequested (ownerLogin repo) (repoName repo)) l)
  = map (λ repo, (ownerLogin repo, repoName repo)) l
  ∧ classifiedOf
      (map (λ repo, ReadmeRequested (ownerLogin repo) (repoName repo)) l) = []
  ∧ List.filter isItemWork
      (map (λ repo, ReadmeRequested (ownerLogin repo) (repoName repo)) l) = []
  ∧ List.filter isPause
      (map (λ repo, ReadmeRequested (ownerLogin repo) (repoName repo)) l) = [].
Proof.
  unfold readmesOf, classifiedOf.
  rewrite (omap_map_Some _ _ (λ repo, (ownerLogin repo, repoName repo))) by done.
  by rewrite omap_map_None, !filter_map_false by done.
Qed.

(** Every repository of the batches gone through has its README
    requested once and is sent to the classifier once, in the order of
    the list. *)
Lemma batchLoop_coverage remaining batchIdx st :
  ∃ final,
    batchLoop env config repos categories createdLists batchSize totalBatches
      remaining batchIdx st = Returned final
    ∧ readmesOf (trace final)
      = readmesOf (trace st)
        ++ map (λ repo, (ownerLogin repo, repoName repo))
             (take (remaining * batchSize) (drop (batchIdx * batchSize) repos))
    ∧ classifiedOf (trace final)
      = classifiedOf (trace st)
        ++ map (λ b, (b, map fullName (batchOf repos batchSize b)))
             (seq batchIdx remaining).
Proof.
  revert batchIdx st. induction remaining as [|remaining IH]; intros batchIdx st.
  { exists st. cbn [batchLoop]. simpl. by rewrite !app_nil_r. }
  cbn [batchLoop].
  destruct (batchStep_shape batchIdx st)
    as (st' & infos & work & -> & Htrace & Hreadmes' & Hclassified' & _).
  destruct (IH (S batchIdx) st') as (final & -> & Hreadmes & Hclassified).
  exists final. split; [done|].
  destruct (readmesOf_requests (batchOf repos batchSize batchIdx))
    as (Hr & Hc & _).
  rewrite Hreadmes, Hclassified, Htrace.
  rewrite !readmesOf_app, !classifiedOf_app, Hr, Hc.
  change (readmesOf (ClassifyRequested ?b ?ids :: work)) with (readmesOf work).
  change (classifiedOf (ClassifyRequested ?b ?ids :: work))
    with ((b, ids) :: classifiedOf work).
  rewrite Hreadmes', Hclassified', take_batches, map_app. cbn [seq map app].
  by rewrite <- !app_assoc, ?app_nil_r.
Qed.

(** When the classification call of every batch raises. *)
Lemma batchLoop_all_failed remaining batchIdx st :
  (∀ b infos, ∃ reason, oracleAnswer env b infos = Rejected reason) →
  ∃ final,
    batchLoop env config repos categories createdLists batchSize totalBatches
      remaining batchIdx st = Returned final
    ∧ tally final
      = {| succeeded := succeeded (tally st);
           failed := failed (tally st)
                     + length (take (remaining * batchSize)
                                 (drop (batchIdx * batchSize) repos)) |}
    ∧ List.filter isItemWork (trace final) = List.filter isItemWork (trace st).
Proof.
  intros Hfail. revert batchIdx st.
  induction remaining as [|remaining IH]; intros batchIdx st.
  { exists st. cbn [batchLoop]. simpl. rewrite Nat.add_0_r.
    by destruct st as [[s f] t]. }
  cbn [batchLoop].
  destruct (batchStep_shape batchIdx st)
    as (st' & infos & work & -> & Htrace & _ & _ & Hcase).
  destruct (Hfail batchIdx infos) as [reason Hreason].
  rewrite Hreason in Hcase. destruct Hcase as [Hnone Htally].
  destruct (IH (S batchIdx) st') as (final & -> & Hfinal & Hwork).
  exists final. split; [done|]. rewrite Hfinal, Hwork, Htally, Htrace.
  cbn [succeeded failed]. rewrite take_batches, length_app. split.
  - f_equal. lia.
  - destruct (readmesOf_requests (batchOf repos batchSize batchIdx))
      as (_ & _ & Hw & _).
    rewrite !List.filter_app, Hw. cbn [List.filter isItemWork app].
    by rewrite Hnone, app_nil_r.
Qed.

(** When the classification call of every batch returns. *)
Lemma batchLoop_all_classified remaining batchIdx st :
  (∀ b infos, ∃ text, oracleAnswer env b infos = Fulfilled text) →
  (batchIdx + remaining = totalBatches)%nat →
  ∃ final,
    batchLoop env config repos categories createdLists batchSize totalBatches
      remaining batchIdx st = Returned final
    ∧ List.filter isPause (trace final)
      = List.filter isPause (trace st)
        ++ replicate (remaining - 1) (Paused (batchDelay config)).
Proof.
  intros Hok. revert batchIdx st.
  induction remaining as [|remaining IH]; intros batchIdx st Hsum.
  { exists st. cbn [batchLoop]. simpl. by rewrite app_nil_r. }
  cbn [batchLoop].
  destruct (batchStep_shape batchIdx st)
    as (st' & infos & work & -> & Htrace & _ & _ & Hcase).
  destruct (Hok batchIdx infos) as [text Htext]. rewrite Htext in Hcase.
  destruct (IH (S batchIdx) st' ltac:(lia)) as (final & -> & Hpauses).
  exists final. split; [done|]. rewrite Hpauses, Htrace.
  destruct (readmesOf_requests (batchOf repos batchSize batchIdx))
    as (_ & _ & _ & Hp).
  rewrite !List.filter_app, Hp. cbn [List.filter isPause app].
  rewrite Hcase, <- app_assoc. f_equal.
  destruct (Nat.ltb_spec (S batchIdx) totalBatches) as [Hmore|Hlast].
  - destruct remaining as [|remaining]; [lia|]. simpl.
    by rewrite Nat.sub_0_r.
  - by replace remaining with 0%nat by lia.
Qed.

End TraceFacts.

Lemma take_all_batches (repos : list Repo) (batchSize : nat) :
  (0 < batchSize)%nat →
  take (totalBatchesOf repos batchSize * batchSize) (drop (0 * batchSize) repos)
  = repos.
Proof.
  intros Hpos. simpl. apply take_ge. unfold totalBatchesOf.
  pose proof (Nat.div_mod_eq (length repos + batchSize - 1) batchSize) as Hdiv.
  pose proof (Nat.mod_upper_bound (length repos + batchSize - 1) batchSize
                ltac:(lia)) as Hmod.
  nia.
Qed.

(** X18. In a run whose parameters pass the checks of the API functions
    and whose batch size is positive, whatever the oracle and the network
    do: the README of every repository is requested exactly once, in the
    order of the list, and the classification is requested exactly once
    per batch, for the batches 0, 1, 2, ... in that order, each time with
    the ids of the repositories of that batch. *)
Theorem classifyAndAddRepos_covers_every_repository
    (env : Env) (config : Config) (repos : list Repo)
    (categories : list Category) (createdLists : gmap jsstring CreatedList)
    (size : positive) :
  classifyBatchSize config = Zpos size →
  Addressable config repos →
  ∃ final,
    classifyAndAddRepos env config repos categories createdLists
    = Some (Returned final)
    ∧ readmesOf (trace final)
      = map (λ repo, (ownerLogin repo, repoName repo)) repos
    ∧ classifiedOf (trace final)
      = map (λ b, (b, map fullName (batchOf repos (Pos.to_nat size) b)))
          (seq 0 (totalBatchesOf repos (Pos.to_nat size))).
Proof.
  intros Hsize Haddr. unfold classifyAndAddRepos. rewrite Hsize.
  destruct (batchLoop_coverage env config repos categories createdLists
              (Pos.to_nat size) (totalBatchesOf repos (Pos.to_nat size)) Haddr
              (totalBatchesOf repos (Pos.to_nat size)) 0
              {| tally := {| succeeded := 0; failed := 0 |}; trace := [] |})
    as (final & -> & Hreadmes & Hclassified).
  exists final. split; [done|]. rewrite Hreadmes, Hclassified.
  by rewrite take_all_batches by lia.
Qed.

Lemma classifyAndAddRepos_covers_every_repository_witness :
  ∃ final,
    classifyAndAddRepos Scenario.firstOracleCallFails Scenario.smallBatches
      Scenario.stars Scenario.categories Scenario.lists
    = Some (Returned final)
    ∧ readmesOf (trace final)
      = map (λ repo, (ownerLogin repo, repoName repo)) Scenario.stars
    ∧ classifiedOf (trace final)
      = map (λ b, (b, map fullName (batchOf Scenario.stars (Pos.to_nat 2) b)))
          (seq 0 (totalBatchesOf Scenario.stars (Pos.to_nat 2))).
Proof.
  apply (classifyAndAddRepos_covers_every_repository
           Scenario.firstOracleCallFails Scenario.smallBatches Scenario.stars
           Scenario.categories Scenario.lists 2).
  - reflexivity.
  - split; [discriminate|]. repeat constructor; discriminate.
Defined.

(** X19. In such a run, when the classification call raises for every
    batch: the run still returns, every repository is counted as failed
    and none as succeeded, and nothing is done for any item: no request,
    no report, no pause between the batches. *)
Theorem classifyAndAddRepos_oracle_out_of_reach
    (env : Env) (config : Config) (repos : list Repo)
    (categories : list Category) (createdLists : gmap jsstring CreatedList)
    (size : positive) :
  classifyBatchSize config = Zpos size →
  Addressable config repos →
  (∀ b infos, ∃ reason, oracleAnswer env b infos = Rejected reason) →
  ∃ final,
    classifyAndAddRepos env config repos categories createdLists
    = Some (Returned final)
    ∧ tally final = {| succeeded := 0; failed := length repos |}
    ∧ List.filter isItemWork (trace final) = [].
Proof.
  intros Hsize Haddr Hfail. unfold classifyAndAddRepos. rewrite Hsize.
  destruct (batchLoop_all_failed env config repos categories createdLists
              (Pos.to_nat size) (totalBatchesOf repos (Pos.to_nat size)) Haddr
              (totalBatchesOf repos (Pos.to_nat size)) 0
              {| tally := {| succeeded := 0; failed := 0 |}; trace := [] |}
              Hfail)
    as (final & -> & Htally & Hwork).
  exists final. split; [done|]. rewrite Htally, Hwork.
  by rewrite take_all_batches by lia.
Qed.

Lemma classifyAndAddRepos_oracle_out_of_reach_witness :
  ∃ final,
    classifyAndAddRepos Scenario.noOracle Scenario.smallBatches Scenario.stars
      Scenario.categories Scenario.lists
    = Some (Returned final)
    ∧ tally final = {| succeeded := 0; failed := length Scenario.stars |}
    ∧ List.filter isItemWork (trace final) = [].
Proof.
  apply (classifyAndAddRepos_oracle_out_of_reach Scenario.noOracle
           Scenario.smallBatches Scenario.stars Scenario.categories
           Scenario.lists 2).
  - reflexivity.
  - split; [discriminate|]. repeat constructor; discriminate.
  - intros b infos. by eexists.
Defined.

(** X20. In such a run, when the classification call returns for every
    batch, the command pauses for [batchDelay] after every batch but the
    last: the number of batches less one pauses, none for a single batch
    or for no repository at all. *)
Theorem classifyAndAddRepos_paces_between_batches
    (env : Env) (config : Config) (repos : list Repo)
    (categories : list Category) (createdLists : gmap jsstring CreatedList)
    (size : positive) :
  classifyBatchSize config = Zpos size →
  Addressable config repos →
  (∀ b infos, ∃ text, oracleAnswer env b infos = Fulfilled text) →
  ∃ final,
    classifyAndAddRepos env config repos categories createdLists
    = Some (Returned final)
    ∧ List.filter isPause (trace final)
      = replicate (totalBatchesOf repos (Pos.to_nat size) - 1)
          (Paused (batchDelay config)).
Proof.
  intros Hsize Haddr Hok. unfold classifyAndAddRepos. rewrite Hsize.
  destruct (batchLoop_all_classified env config repos categories createdLists
              (Pos.to_nat size) (totalBatchesOf repos (Pos.to_nat size)) Haddr
              (totalBatchesOf repos (Pos.to_nat size)) 0
              {| tally := {| succeeded := 0; failed := 0 |}; trace := [] |}
              Hok ltac:(lia))
    as (final & -> & Hpauses).
  exists final. split; [done|]. by rewrite Hpauses.
Qed.

Lemma classifyAndAddRepos_paces_between_batches_witness :
  ∃ final,
    classifyAndAddRepos Scenario.reliable Scenario.smallBatches Scenario.stars
      Scenario.categories Scenario.lists
    = Some (Returned final)
    ∧ List.filter isPause (trace final)
      = replicate (totalBatchesOf Scenario.stars (Pos.to_nat 2) - 1)
          (Paused (batchDelay Scenario.smallBatches)).
Proof.
  apply (classifyAndAddRepos_paces_between_batches Scenario.reliable
           Scenario.smallBatches Scenario.stars Scenario.categories
           Scenario.lists 2).
  - reflexivity.
  - split; [discriminate|]. repeat constructor; discriminate.
  - intros b infos. by eexists.
Defined.

(** ** The paginated fetch *)

Section Pagination.

Variable answer : nat → PageResponse.
Variable onProgress : bool.

Lemma pagesRequested_app (a b : list FetchEvent) :
  pagesRequested (a ++ b) = pagesRequested a ++ pagesRequested b.
Proof. apply omap_app. Qed.

Lemma pagesRequested_progress (count : nat) :
  pagesRequested (if onProgress then [ProgressReported count] else []) = [].
Proof. by destruct onProgress. Qed.

(** Through the full pages, from the page after [done] of them on. *)
Lemma fetchPages_full (pages : list (list Repo)) (fuel k : nat)
    (allRepos : list Repo) (observed : list FetchEvent) :
  Forall (λ page, 100 ≤ length page)%nat pages →
  (∀ i page, pages !! i = Some page → answer (S (k + i)) = PageOk page) →
  ∃ added,
    fetchPages answer onProgress (length pages + fuel) (S k) allRepos observed
    = fetchPages answer onProgress fuel (S (k + length pages))
        (allRepos ++ concat pages) (observed ++ added)
    ∧ pagesRequested added = seq (S k) (length pages).
Proof.
  revert k allRepos observed.
  induction pages as [|page pages IH]; intros k allRepos observed Hfull Hanswer.
  { exists []. simpl. by rewrite Nat.add_0_r, !app_nil_r. }
  apply Forall_cons in Hfull as [Hpage Hfull].
  cbn [length Nat.add fetchPages].
  pose proof (Hanswer 0%nat page eq_refl) as Hfirst.
  rewrite Nat.add_0_r in Hfirst. rewrite Hfirst.
  destruct (Nat.ltb_spec (length page) 100); [lia|].
  destruct (IH (S k) (allRepos ++ page)
              ((observed ++ [PageRequested (S k)])
               ++ (if onProgress
                   then [ProgressReported (length (allRepos ++ page))] else []))
              Hfull) as (added & -> & Hadded).
  { intros i p Hp. rewrite <- (Hanswer (S i) p Hp). f_equal. lia. }
  exists ([PageRequested (S k)]
          ++ (if onProgress
              then [ProgressReported (length (allRepos ++ page))] else [])
          ++ added).
  split.
  - cbn [concat]. rewrite <- !app_assoc. do 2 f_equal. lia.
  - rewrite !pagesRequested_app, pagesRequested_progress, Hadded. done.
Qed.

End Pagination.

(** X21. When the pages 1 to [n] are full (100 repositories or more) and
    page [n + 1] is short, the paginated fetch returns, with status 200,
    the repositories of all these pages in the order of the pages, after
    having asked for the pages 1, 2, ..., [n + 1] and for no other. *)
Theorem fetchAllMyStarredRepos_collects (answer : nat → PageResponse)
    (onProgress : bool) (pages : list (list Repo)) (lastPage : list Repo)
    (fuel : nat) :
  Forall (λ page, 100 ≤ length page)%nat pages →
  (length lastPage < 100)%nat →
  (∀ i page, pages !! i = Some page → answer (S i) = PageOk page) →
  answer (S (length pages)) = PageOk lastPage →
  (length pages < fuel)%nat →
  ∃ observed,
    fetchAllMyStarredRepos answer onProgress fuel
    = Some (Fulfilled {| fetchedRepos := Some (concat pages ++ lastPage);
                         fetchedStatus := 200 |}, observed)
    ∧ pagesRequested observed = seq 1 (S (length pages)).
Proof.
  intros Hfull Hshort Hpages Hlast Hfuel. unfold fetchAllMyStarredRepos.
  replace fuel with (length pages + S (fuel - S (length pages)))%nat by lia.
  destruct (fetchPages_full answer onProgress pages
              (S (fuel - S (length pages))) 0 [] [] Hfull Hpages)
    as (added & -> & Hadded).
  cbn [fetchPages Nat.add app]. rewrite Hlast.
  destruct (Nat.ltb_spec (length lastPage) 100); [|lia].
  eexists. split; [reflexivity|].
  rewrite !pagesRequested_app, pagesRequested_progress, Hadded.
  cbn [pagesRequested omap list_omap app]. rewrite app_nil_r.
  by rewrite seq_S.
Qed.

Lemma fetchAllMyStarredRepos_collects_witness :
  ∃ observed,
    fetchAllMyStarredRepos
      (λ page, if (page =? 1)%nat
               then PageOk (replicate 100 (Scenario.starred "octo" "alpha"))
               else PageOk [Scenario.starred "octo" "beta"])
      true 5
    = Some (Fulfilled
              {| fetchedRepos :=
                   Some (concat [replicate 100 (Scenario.starred "octo" "alpha")]
                         ++ [Scenario.starred "octo" "beta"]);
                 fetchedStatus := 200 |}, observed)
    ∧ pagesRequested observed
      = seq 1 (S (length [replicate 100 (Scenario.starred "octo" "alpha")])).
Proof.
  apply (fetchAllMyStarredRepos_collects
           (λ page, if (page =? 1)%nat
                    then PageOk (replicate 100 (Scenario.starred "octo" "alpha"))
                    else PageOk [Scenario.starred "octo" "beta"])
           true [replicate 100 (Scenario.starred "octo" "alpha")]
           [Scenario.starred "octo" "beta"] 5).
  - apply Forall_cons. split; [|constructor]. rewrite length_replicate. lia.
  - simpl. lia.
  - intros i page Hi. destruct i as [|i]; [|done]. by injection Hi as <-.
  - reflexivity.
  - simpl. lia.
Defined.

(** X22. When a page is answered by a response that is not ok, after
    any number of full pages, the paginated fetch returns the status of
    that response and no repositories at all: what the earlier pages
    gave is dropped. *)
Theorem fetchAllMyStarredRepos_not_ok (answer : nat → PageResponse)
    (onProgress : bool) (pages : list (list Repo)) (status : Z) (fuel : nat) :
  Forall (λ page, 100 ≤ length page)%nat pages →
  (∀ i page, pages !! i = Some page → answer (S i) = PageOk page) →
  answer (S (length pages)) = PageNotOk status →
  (length pages < fuel)%nat →
  ∃ observed,
    fetchAllMyStarredRepos answer onProgress fuel
    = Some (Fulfilled {| fetchedRepos := None; fetchedStatus := status |},
            observed)
    ∧ pagesRequested observed = seq 1 (S (length pages)).
Proof.
  intros Hfull Hpages Hlast Hfuel. unfold fetchAllMyStarredRepos.
  replace fuel with (length pages + S (fuel - S (length pages)))%nat by lia.
  destruct (fetchPages_full answer onProgress pages
              (S (fuel - S (length pages))) 0 [] [] Hfull Hpages)
    as (added & -> & Hadded).
  cbn [fetchPages Nat.add app]. rewrite Hlast.
  eexists. split; [reflexivity|].
  rewrite !pagesRequested_app, Hadded.
  cbn [pagesRequested omap list_omap app]. by rewrite seq_S.
Qed.

Lemma fetchAllMyStarredRepos_not_ok_witness :
  ∃ observed,
    fetchAllMyStarredRepos
      (λ page, if (page =? 1)%nat
               then PageOk (replicate 100 (Scenario.starred "octo" "alpha"))
               else PageNotOk 403)
      false 2
    = Some (Fulfilled {| fetchedRepos := None; fetchedStatus := 403 |}, observed)
    ∧ pagesRequested observed
      = seq 1 (S (length [replicate 100 (Scenario.starred "octo" "alpha")])).
Proof.
  apply (fetchAllMyStarredRepos_not_ok
           (λ page, if (page =? 1)%nat
                    then PageOk (replicate 100 (Scenario.starred "octo" "alpha"))
                    else PageNotOk 403)
           false [replicate 100 (Scenario.starred "octo" "alpha")] 403 2).
  - apply Forall_cons. split; [|constructor]. rewrite length_replicate. lia.
  - intros i page Hi. destruct i as [|i]; [|done]. by injection Hi as <-.
  - reflexivity.
  - simpl. lia.
Defined.

(** ** The lists that exist *)

Section ExistingListsFacts.

Lemma existingLists_fold_lookup (lists : list FormattedList)
    (m : gmap jsstring CreatedList) (listed : jsstring) :
  listed ∈ map formattedName lists ∨ is_Some (m !! listed) →
  is_Some
    (foldl (λ m list,
              <[formattedName list :=
                  {| listId := formattedId list; listName := formattedName list;
                     listDescription := formattedDescription list |}]> m)
       m lists !! listed).
Proof.
  revert m. induction lists as [|list lists IH]; intros m.
  { intros [H|H]; [by apply elem_of_nil in H|done]. }
  intros H. cbn [foldl]. apply IH.
  destruct (decide (formattedName list = listed)) as [<-|Hne].
  - right. rewrite lookup_insert_eq. eauto.
  - destruct H as [H|H].
    + left. cbn [map] in H. apply elem_of_cons in H as [?|?]; [congruence|done].
    + right. by rewrite lookup_insert_ne.
Qed.

Lemma existingLists_fold_ids (lists : list FormattedList)
    (m : gmap jsstring CreatedList) :
  Forall (λ list, formattedId list ≠ []) lists →
  map_Forall (λ _ created, listId created ≠ []) m →
  map_Forall (λ _ created, listId created ≠ [])
    (foldl (λ m list,
              <[formattedName list :=
                  {| listId := formattedId list; listName := formattedName list;
                     listDescription := formattedDescription list |}]> m)
       m lists).
Proof.
  revert m. induction lists as [|list lists IH]; intros m Hids Hm; [done|].
  apply Forall_cons in Hids as [Hid Hids]. cbn [foldl].
  apply IH; [done|]. by apply map_Forall_insert_2.
Qed.

Lemma addedRepoNames_inner (repos : list ListedRepo) (names : gset jsstring)
    (key : jsstring) :
  key ∈ foldl (λ names repo, {[listedKey repo]} ∪ names) names repos
  ↔ key ∈ names ∨ key ∈ map listedKey repos.
Proof.
  revert names. induction repos as [|repo repos IH]; intros names.
  { simpl. split; [by left|]. intros [?|H]; [done|by apply elem_of_nil in H]. }
  cbn [foldl map]. rewrite IH, elem_of_union, elem_of_singleton, elem_of_cons.
  tauto.
Qed.

Lemma addedRepoNames_outer (lists : list FormattedList) (names : gset jsstring)
    (key : jsstring) :
  key ∈ foldl (λ names list,
                 foldl (λ names repo, {[listedKey repo]} ∪ names)
                       names (repositories list))
              names lists
  ↔ key ∈ names ∨ Listed lists key.
Proof.
  revert names. induction lists as [|list lists IH]; intros names.
  { simpl. split; [by left|]. intros [?|(l & r & H & _)]; [done|].
    by apply elem_of_nil in H. }
  cbn [foldl]. rewrite IH, addedRepoNames_inner. unfold Listed. split.
  - intros [[?|Hin]|(l & r & Hl & Hr & Hk)].
    + by left.
    + right. apply list_elem_of_fmap in Hin as (r & -> & Hr).
      exists list, r. split; [by left|done].
    + right. exists l, r. split; [by right|done].
  - intros [?|(l & r & Hl & Hr & Hk)]; [by left; left|].
    apply elem_of_cons in Hl as [->|Hl].
    + left. right. apply list_elem_of_fmap. by exists r.
    + right. by exists l, r.
Qed.

Lemma addedRepoNamesOf_Listed (lists : list FormattedList) (key : jsstring) :
  key ∈ addedRepoNamesOf lists ↔ Listed lists key.
Proof.
  unfold addedRepoNamesOf. rewrite addedRepoNames_outer.
  split; [intros [H|H]; [by apply elem_of_empty in H|done]|by right].
Qed.

End ExistingListsFacts.

(** X23. With the categories taken from the lists that exist (the option
    use-existing), every list having an id and the first list a name
    that is not empty: whatever the response of the oracle, every
    repository of the batch resolves to at least one list id, so that no
    item fails for want of a matching category. *)
Theorem use_existing_lists_always_match (config : Config) (text : jsstring)
    (infos : list BatchRepoInfo) (first : FormattedList)
    (others : list FormattedList) (repo : Repo) :
  formattedName first ≠ [] →
  Forall (λ list, formattedId list ≠ []) (first :: others) →
  fullName repo ∈ map id infos →
  listIdsOf (existingListsOf (first :: others))
    (default []
       (parseBatchClassifierResponse config text infos
          (existingCategoriesOf (first :: others)) !! KeyStr (fullName repo)))
  ≠ [].
Proof.
  intros Hname Hids Hrepo.
  set (lists := first :: others) in *.
  set (categories := existingCategoriesOf lists).
  assert (Hnames : validCategoryNames categories = map formattedName lists).
  { unfold validCategoryNames, categories, existingCategoriesOf.
    by rewrite map_map. }
  assert (Hdefault : defaultCategory categories = formattedName first).
  { unfold categories, lists. simpl. by destruct (formattedName first). }
  pose proof (parseFrom_covers config (jsonText text) text infos categories)
    as Hcov.
  pose proof (parseFrom_values config
                (λ v, v ≠ [] ∧ Forall (λ c, c ∈ validCategoryNames categories) v)
                (jsonText text) text infos categories) as Hval.
  apply list_elem_of_fmap in Hrepo as (info & Hid & Hinfo).
  rewrite Forall_forall in Hcov. destruct (Hcov info Hinfo) as [cats Hcats].
  fold (parseBatchClassifierResponse config text infos categories) in Hcats, Hval.
  rewrite Hid, Hcats. change (default [] (Some cats)) with cats.
  destruct (Hval) with (i := KeyStr (id info)) (x := cats) as [Hne Hall];
    [| | |done|].
  - split; [done|]. rewrite Hdefault, Hnames. repeat constructor.
  - intros cs _ Hcs. split; [done|]. apply validCategories_valid.
  - intros str _ Hstr. split; [done|]. apply fallbackCategories_valid.
  - destruct cats as [|c cats]; [done|].
    apply Forall_cons in Hall as [Hc _]. rewrite Hnames in Hc.
    destruct (existingLists_fold_lookup lists ∅ c (or_introl Hc))
      as [created Hcreated].
    pose proof (existingLists_fold_ids lists ∅ Hids (map_Forall_empty _)
                  c created Hcreated) as Hcid.
    unfold listIdsOf, existingListsOf, omap. cbn [list_omap].
    rewrite Hcreated. unfold isEmpty.
    by rewrite bool_decide_eq_false_2.
Qed.

Lemma use_existing_lists_always_match_witness :
  listIdsOf
    (existingListsOf
       ({| formattedId := js "UL_1"; formattedName := js "AI: LLM";
           formattedDescription := None; repositories := [] |} :: []))
    (default []
       (parseBatchClassifierResponse Scenario.config Scenario.response
          Scenario.batch
          (existingCategoriesOf
             ({| formattedId := js "UL_1"; formattedName := js "AI: LLM";
                 formattedDescription := None; repositories := [] |} :: []))
        !! KeyStr (fullName (Scenario.starred "octo" "beta"))))
  ≠ [].
Proof.
  apply (use_existing_lists_always_match Scenario.config Scenario.response
           Scenario.batch
           {| formattedId := js "UL_1"; formattedName := js "AI: LLM";
              formattedDescription := None; repositories := [] |} []
           (Scenario.starred "octo" "beta")).
  - discriminate.
  - repeat constructor; discriminate.
  - apply list_elem_of_In. vm_compute. auto.
Defined.

(** X24. The filter of the new repositories keeps, in the order of the
    starred repositories, exactly those whose owner/name key is the key
    of no repository of any list: nothing already listed is processed
    again and nothing else is skipped. *)
Theorem newReposOf_exactly_unlisted (lists : list FormattedList)
    (allRepos : list Repo) :
  sublist (newReposOf lists allRepos) allRepos
  ∧ ∀ repo, repo ∈ newReposOf lists allRepos
            ↔ repo ∈ allRepos ∧ ¬ Listed lists (fullName repo).
Proof.
  unfold newReposOf. split; [apply sublist_filter|].
  intros repo. rewrite list_elem_of_filter, addedRepoNamesOf_Listed. tauto.
Qed.

(** ** The reset *)

Section ResetFacts.

Variable env : ResetEnv.
Variable config : Config.
Variable githubRequestDelay : Z.

Lemma reposInLists_inner (repos : list ListedRepo)
    (found : list (jsstring * ListedRepo)) :
  let found' :=
    foldl (λ found repo,
             if decide (listedKey repo ∈ map fst found) then found
             else found ++ [(listedKey repo, repo)])
          found repos in
  (NoDup (map fst found) → NoDup (map fst found'))
  ∧ ∀ key, key ∈ map fst found'
           ↔ key ∈ map fst found ∨ key ∈ map listedKey repos.
Proof.
  revert found. induction repos as [|repo repos IH]; intros found.
  { simpl. split; [done|]. intros key. split; [by left|].
    intros [?|H]; [done|by apply elem_of_nil in H]. }
  cbn [foldl map]. cbv zeta in IH.
  destruct (decide (listedKey repo ∈ map fst found)) as [Hin|Hout].
  - destruct (IH found) as [Hdup Hkeys]. split; [done|].
    intros key. rewrite Hkeys, elem_of_cons. split; [tauto|].
    intros [?|[->|?]]; tauto.
  - destruct (IH (found ++ [(listedKey repo, repo)])) as [Hdup Hkeys].
    split.
    + intros Hnd. apply Hdup. rewrite map_app. simpl.
      apply NoDup_app. split; [done|]. split; [|apply NoDup_singleton].
      intros key Hkey Hone. apply list_elem_of_singleton in Hone. by subst.
    + intros key. rewrite Hkeys, map_app, elem_of_app, elem_of_cons. simpl.
      rewrite list_elem_of_singleton. tauto.
Qed.

Lemma reposInLists_outer (lists : list FormattedList)
    (found : list (jsstring * ListedRepo)) :
  let found' :=
    foldl (λ found list,
             foldl (λ found repo,
                      if decide (listedKey repo ∈ map fst found) then found
                      else found ++ [(listedKey repo, repo)])
                   found (repositories list))
          found lists in
  (NoDup (map fst found) → NoDup (map fst found'))
  ∧ ∀ key, key ∈ map fst found' ↔ key ∈ map fst found ∨ Listed lists key.
Proof.
  revert found. induction lists as [|list lists IH]; intros found.
  { simpl. split; [done|]. intros key. split; [by left|].
    intros [?|(l & r & H & _)]; [done|by apply elem_of_nil in H]. }
  cbn [foldl]. cbv zeta in IH.
  destruct (reposInLists_inner (repositories list) found) as [Hdup1 Hkeys1].
  cbv zeta in Hdup1, Hkeys1.
  destruct (IH (foldl (λ found repo,
                         if decide (listedKey repo ∈ map fst found) then found
                         else found ++ [(listedKey repo, repo)])
                      found (repositories list))) as [Hdup2 Hkeys2].
  split; [auto|]. intros key. rewrite Hkeys2, Hkeys1. unfold Listed. split.
  - intros [[?|Hin]|(l & r & Hl & Hr & Hk)].
    + by left.
    + right. apply list_elem_of_fmap in Hin as (r & -> & Hr).
      exists list, r. split; [by left|done].
    + right. exists l, r. split; [by right|done].
  - intros [?|(l & r & Hl & Hr & Hk)]; [by left; left|].
    apply elem_of_cons in Hl as [->|Hl].
    + left. right. apply list_elem_of_fmap. by exists r.
    + right. by exists l, r.
Qed.

Lemma resetOne_events (repo : ListedRepo) :
  let '(ok, sent) := resetOne env config githubRequestDelay repo in
  List.filter isResetSlept sent
  = (if ok then [ResetSlept githubRequestDelay] else [])
  ∧ (length (List.filter isResetNodeIdRequest sent) ≤ 1)%nat.
Proof.
  unfold resetOne.
  destruct (checkParameters _ _ _); [by split; [|simpl; lia]|].
  destruct (resetNodeId env repo) as [repoNodeId|]; [|by split; [|simpl; lia]].
  destruct (isEmpty (githubToken config) || isEmpty repoNodeId);
    [by split; [|simpl; lia]|].
  destruct (resetRemoval env repoNodeId); by split; [|simpl; lia].
Qed.

Lemma resetLoop_counts (repos : list (jsstring * ListedRepo))
    (removed failed : nat) (events : list ResetEvent) :
  let '(removed', failed', events') :=
    resetLoop env config githubRequestDelay repos removed failed events in
  (removed' + failed' = removed + failed + length repos)%nat
  ∧ List.filter isResetSlept events'
    = List.filter isResetSlept events
      ++ replicate (removed' - removed) (ResetSlept githubRequestDelay)
  ∧ (removed ≤ removed')%nat
  ∧ (length (List.filter isResetNodeIdRequest events')
     ≤ length (List.filter isResetNodeIdRequest events) + length repos)%nat.
Proof.
  revert removed failed events.
  induction repos as [|[key repo] repos IH]; intros removed failed events.
  { simpl. rewrite Nat.sub_diag, app_nil_r. repeat split; lia. }
  cbn [resetLoop]. pose proof (resetOne_events repo) as Hone.
  destruct (resetOne env config githubRequestDelay repo) as [ok sent].
  destruct Hone as [Hslept Hnode]. destruct ok.
  - specialize (IH (S removed) failed (events ++ sent)).
    destruct (resetLoop _ _ _ _ _ _ _) as [[removed' failed'] events'].
    destruct IH as (Hsum & Hev & Hle & Hreq). cbn [length].
    split; [lia|]. split; [|split; [lia|]].
    + rewrite Hev, List.filter_app, Hslept, <- app_assoc. f_equal.
      replace (removed' - removed)%nat with (S (removed' - S removed)) by lia.
      done.
    + rewrite List.filter_app, length_app in Hreq. lia.
  - specialize (IH removed (S failed) (events ++ sent)).
    destruct (resetLoop _ _ _ _ _ _ _) as [[removed' failed'] events'].
    destruct IH as (Hsum & Hev & Hle & Hreq). cbn [length].
    split; [lia|]. split; [|split; [lia|]].
    + by rewrite Hev, List.filter_app, Hslept, app_nil_r.
    + rewrite List.filter_app, length_app in Hreq. lia.
Qed.

End ResetFacts.

(** X25. The reset works on the set of the repositories of the lists: a
    repository that is in several lists is handled once. When lists
    exist and the removal is confirmed, every such repository is counted
    once, as removed or as failed; at most one node id request is made
    for each; and the command waits [githubRequestDelay] once after each
    removal that succeeded and never after a failure. Without the
    confirmation nothing is sent. *)
Theorem handleReset_each_listed_once (env : ResetEnv) (config : Config)
    (githubRequestDelay totalLists : Z) (lists : list FormattedList) :
  totalLists ≠ 0%Z →
  NoDup (map fst (reposInListsOf lists))
  ∧ (∀ key, key ∈ map fst (reposInListsOf lists) ↔ Listed lists key)
  ∧ (handleReset env config githubRequestDelay totalLists lists false).2 = []
  ∧ (reposInListsOf lists ≠ [] →
     ∃ removed failed events,
       handleReset env config githubRequestDelay totalLists lists true
       = (Removed removed failed, events)
       ∧ (removed + failed = length (reposInListsOf lists))%nat
       ∧ List.filter isResetSlept events
         = replicate removed (ResetSlept githubRequestDelay)
       ∧ (length (List.filter isResetNodeIdRequest events)
          ≤ length (reposInListsOf lists))%nat).
Proof.
  intros Htotal.
  destruct (reposInLists_outer lists []) as [Hdup Hkeys]. cbv zeta in Hdup, Hkeys.
  fold (reposInListsOf lists) in Hdup, Hkeys.
  split; [apply Hdup, NoDup_nil_2|]. split.
  { intros key. rewrite Hkeys. split; [|by right].
    intros [H|H]; [by apply elem_of_nil in H|done]. }
  unfold handleReset. destruct (Z.eqb_spec totalLists 0) as [|_]; [done|].
  destruct (reposInListsOf lists) as [|r rs] eqn:E; [done|].
  split; [done|]. intros _.
  pose proof (resetLoop_counts env config githubRequestDelay (r :: rs) 0 0 [])
    as Hloop.
  destruct (resetLoop _ _ _ _ _ _ _) as [[removed failed] events].
  destruct Hloop as (Hsum & Hev & _ & Hreq).
  exists removed, failed, events. split; [done|]. split; [lia|].
  split; [|simpl in Hreq; simpl; lia].
  rewrite Hev. simpl. by rewrite Nat.sub_0_r.
Qed.

Lemma handleReset_each_listed_once_witness :
  NoDup (map fst (reposInListsOf
                    [{| formattedId := js "UL_1"; formattedName := js "AI: LLM";
                        formattedDescription := None;
                        repositories :=
                          [{| listedOwner := js "octo"; listedName := js "alpha" |}] |};
                     {| formattedId := js "UL_2"; formattedName := js "Dev: Tools";
                        formattedDescription := None;
                        repositories :=
                          [{| listedOwner := js "octo"; listedName := js "alpha" |};
                           {| listedOwner := js "octo"; listedName := js "beta" |}] |}])).
Proof.
  refine (proj1 (handleReset_each_listed_once
                   {| resetNodeId := λ repo, Fulfilled (js "R_" ++ listedName repo);
                      resetRemoval := λ _, Fulfilled tt |}
                   Scenario.config 100 2 _ _)).
  lia.
Defined.
